(** * AugmentationSequential: multi-modality dispatch of an augmentation pipeline

    A shallow embedding of [kornia/augmentation/container/augment.py].

    The class [AugmentationSequential] routes every transform of a pipeline
    to every data modality (pixel tensor, mask, boxes, keypoints), once in
    pipeline order ([forward]) and once in reverse ([inverse]).  The file
    follows the source method by method:

    - Python exceptions are values of [Exn]; a computation that may raise
      returns a [result];
    - attributes of [self] and the random generator live in a [World] that
      is threaded through [__init__], [forward] and [inverse]; an assignment
      made before a [raise] stays made, as in Python;
    - the transformation kernels, the base class [ImageSequential], the
      [Boxes] utility and [ApplyInverse] are collaborators: they are the
      fields of the class [Collaborators] and every definition is generic
      in them;
    - a torch tensor is a shape with a flat payload, and [Tensor.view]
      follows torch's size inference, including the [-1] wildcard;
    - a data key is a member of [DataKey] wherever the source works with
      the normalised list; [RawKey] adds the strings and integers a caller
      may pass, for the places where the source works with the list as it
      was passed. *)

From Stdlib Require Import List String ZArith Bool Lia.
Import ListNotations.
Local Open Scope Z_scope.

Set Implicit Arguments.
Set Warnings "-register-all".

(** ** Exceptions *)

(** Python exception classes that can leave the file's methods. *)
Inductive PyExc :=
| AssertionError | NotImplementedError | ValueError
| IndexError | TypeError | AttributeError | RuntimeError.

(** ** Data keys *)

(** [kornia.constants.DataKey]. *)
Inductive DataKey := INPUT | MASK | BBOX | BBOX_XYXY | BBOX_XYWH | KEYPOINTS.

(** One constructor per [raise] of the file, named after the error kind;
    [Interp] stands for an exception raised by the interpreter or by torch
    (indexing, unpacking, attribute lookup, [view]), and collaborators may
    raise whatever they like. *)
Inductive Exn :=
| FirstKeyNotInput                  (* NotImplementedError, __init__ *)
| KeysNotDataKeys                   (* AssertionError, __init__ *)
| ArityMismatch                     (* AssertionError, inverse / _validate_args_datakeys *)
| UnsupportedMode                   (* ValueError, _arguments_preproc *)
| UnsupportedModality (d : DataKey) (* NotImplementedError, _arguments_preproc *)
| MissingParameters                 (* ValueError, inverse *)
| MissingInput                      (* ValueError, forward *)
| InputNotATensor                   (* ValueError, forward *)
| PatchNotSupported                 (* NotImplementedError, dispatch *)
| UnsupportedSequential             (* ValueError, dispatch *)
| KeyNotImplemented (d : DataKey)   (* NotImplementedError, dispatch *)
| Interp (c : PyExc).

Definition py_class (e : Exn) : PyExc :=
  match e with
  | FirstKeyNotInput => NotImplementedError
  | KeysNotDataKeys => AssertionError
  | ArityMismatch => AssertionError
  | UnsupportedMode => ValueError
  | UnsupportedModality _ => NotImplementedError
  | MissingParameters => ValueError
  | MissingInput => ValueError
  | InputNotATensor => ValueError
  | PatchNotSupported => NotImplementedError
  | UnsupportedSequential => ValueError
  | KeyNotImplemented _ => NotImplementedError
  | Interp c => c
  end.

Inductive result (A : Type) :=
| Ok (a : A)
| Err (e : Exn).
Arguments Ok {A} a.
Arguments Err {A} e.

Definition rbind {A B} (r : result A) (k : A -> result B) : result B :=
  match r with
  | Ok a => k a
  | Err e => Err e
  end.

Definition is_ok {A} (r : result A) : bool :=
  match r with Ok _ => true | Err _ => false end.

Declare Scope result_scope.
Delimit Scope result_scope with res.
Notation "x <- c ;; k" := (rbind c (fun x => k))
  (at level 61, c at next level, right associativity) : result_scope.
Notation "' pat <- c ;; k" := (rbind c (fun x => match x with pat => k end))
  (at level 61, pat pattern, c at next level, right associativity) : result_scope.

Definition DataKey_eqb (a b : DataKey) : bool :=
  match a, b with
  | INPUT, INPUT | MASK, MASK | BBOX, BBOX
  | BBOX_XYXY, BBOX_XYXY | BBOX_XYWH, BBOX_XYWH | KEYPOINTS, KEYPOINTS => true
  | _, _ => false
  end.

(** [DataKey.get] on a key that is already a member of the enumeration.
    The entry points below take their keys as members; the string and
    integer spellings that [DataKey.get] also accepts come with
    [DataKey_get_any] and the entry points [__init___raw], [forward_raw]
    and [inverse_raw]. *)
Definition DataKey_get (d : DataKey) : DataKey := d.

(** [dcate in DataKey]: membership in the enumeration. *)
Definition in_DataKey (d : DataKey) : bool :=
  match d with
  | INPUT | MASK | BBOX | BBOX_XYXY | BBOX_XYWH | KEYPOINTS => true
  end.

(** [x in xs] for a list of data keys. *)
Definition key_in (d : DataKey) (ds : list DataKey) : bool :=
  existsb (DataKey_eqb d) ds.

(** [ds.index(d)], used only under [d in ds]. *)
Fixpoint key_index (d : DataKey) (ds : list DataKey) : nat :=
  match ds with
  | [] => 0%nat
  | x :: r => if DataKey_eqb x d then 0%nat else S (key_index d r)
  end.

(** ** Transform modules *)

(** The classes the dispatchers test with [isinstance]. *)
Inductive PyClass :=
| _AugmentationBase
| IntensityAugmentationBase2D
| GeometricAugmentationBase2D
| RandomErasing
| SequentialBase
| ImageSequential
| VideoSequential
| PatchSequential.

Definition PyClass_eqb (a b : PyClass) : bool :=
  match a, b with
  | _AugmentationBase, _AugmentationBase
  | IntensityAugmentationBase2D, IntensityAugmentationBase2D
  | GeometricAugmentationBase2D, GeometricAugmentationBase2D
  | RandomErasing, RandomErasing
  | SequentialBase, SequentialBase
  | ImageSequential, ImageSequential
  | VideoSequential, VideoSequential
  | PatchSequential, PatchSequential => true
  | _, _ => false
  end.

(** A module of the pipeline.  [mro] lists, among the classes above, the
    ones found in the method resolution order of the module's type, which is
    what [isinstance] consults; [intensity_only] is what the module's
    [is_intensity_only()] answers (a method of the containers); [ident]
    tells the instances apart for the appliers. *)
Record Module := mkModule {
  ident : nat;
  mro : list PyClass;
  intensity_only : bool
}.

Definition isinstance (m : Module) (c : PyClass) : bool :=
  existsb (PyClass_eqb c) (mro m).

(** [isinstance(m, (c1, ..., cn))]. *)
Definition isinstance_any (m : Module) (cs : list PyClass) : bool :=
  existsb (isinstance m) cs.

(** ** Classification of a (module, data key) pair

    The conditions of the two [if]/[elif] chains, in the order of the
    source, each named by the branch it selects. *)
Inductive Branch :=
| SkipIntensity         (* pass *)
| SkipIntensityContainer(* pass *)
| VideoFold             (* view, apply, view *)
| PatchFailure          (* raise NotImplementedError *)
| ApplyByKey            (* geometric, container or erasing *)
| SequentialFailure     (* raise ValueError *)
| NotImplementedFailure (* raise NotImplementedError *).

(** The forward chain has one more branch, tested first. *)
Inductive ForwardBranch :=
| ApplyToInput          (* dcate == DataKey.INPUT *)
| Shared (b : Branch).

(** [forward], lines 357-377. *)
Definition forward_classify (module : Module) (dcate : DataKey)
  : ForwardBranch :=
  if DataKey_eqb dcate INPUT then ApplyToInput
  else if isinstance module IntensityAugmentationBase2D && in_DataKey dcate
          && negb (isinstance module RandomErasing)
  then Shared SkipIntensity
  else if isinstance module ImageSequential && intensity_only module
          && in_DataKey dcate
  then Shared SkipIntensityContainer
  else if isinstance module VideoSequential
          && negb (key_in dcate [INPUT; MASK])
  then Shared VideoFold
  else if isinstance module PatchSequential
  then Shared PatchFailure
  else if isinstance_any module
            [GeometricAugmentationBase2D; ImageSequential; RandomErasing]
          && in_DataKey dcate
  then Shared ApplyByKey
  else if isinstance_any module [SequentialBase]
  then Shared SequentialFailure
  else Shared NotImplementedFailure.

(** [inverse], lines 217-235. *)
Definition inverse_classify (module : Module) (dcate : DataKey) : Branch :=
  if isinstance module IntensityAugmentationBase2D && in_DataKey dcate
     && negb (isinstance module RandomErasing)
  then SkipIntensity
  else if isinstance module ImageSequential && intensity_only module
          && in_DataKey dcate
  then SkipIntensityContainer
  else if isinstance module VideoSequential
          && negb (key_in dcate [INPUT; MASK])
  then VideoFold
  else if isinstance module PatchSequential
  then PatchFailure
  else if isinstance_any module
            [GeometricAugmentationBase2D; ImageSequential; RandomErasing]
          && in_DataKey dcate
  then ApplyByKey
  else if isinstance_any module [SequentialBase]
  then SequentialFailure
  else NotImplementedFailure.

(** ** Tensors and Python values *)

(** What the embedding leaves abstract: tensor entries, the payload of a
    sampled parameter, the state of the random generator, and whatever a
    [Boxes] object remembers besides its vertex tensor. *)
Class Carrier := {
  Scalar : Type;
  ParamData : Type;
  Rng : Type;
  BoxMeta : Type;
  InitOptions : Type
}.

Section Augment.

Context {carrier : Carrier}.

(** A contiguous tensor: its sizes and its entries in row-major order. *)
Record Tensor := mkTensor {
  shape : list Z;
  data : list Scalar
}.

Definition numel (t : Tensor) : Z := fold_right Z.mul 1 (shape t).

(** The values that travel through the container: [None], a tensor, a
    tuple, a list, or a [Boxes] object with its [_data] attribute. *)
Inductive Value :=
| VNone
| VTensor (t : Tensor)
| VTuple (xs : list Value)
| VList (xs : list Value)
| VBoxes (_data : Value) (meta : BoxMeta).

Definition is_None (v : Value) : bool :=
  match v with VNone => true | _ => false end.

(** [isinstance(v, (tuple,))] and [isinstance(v, (tuple, list))]. *)
Definition is_tuple (v : Value) : bool :=
  match v with VTuple _ => true | _ => false end.
Definition is_tuple_or_list (v : Value) : bool :=
  match v with VTuple _ | VList _ => true | _ => false end.
Definition is_Boxes (v : Value) : bool :=
  match v with VBoxes _ _ => true | _ => false end.

(** [ParamItem], a named tuple [(name, data)]. *)
Record ParamItem := mkParamItem {
  name : string;
  pdata : ParamData
}.

Definition Ledger := list ParamItem.

(** *** torch: [size], [shape], [view] *)

(** [t.size(0)]. *)
Definition tensor_size0 (t : Tensor) : result Z :=
  match shape t with
  | [] => Err (Interp IndexError)
  | d :: _ => Ok d
  end.

(** Size inference of [view]: one pass over the requested sizes computes
    the product of the given ones and the position of the wildcard. *)
Fixpoint infer_scan (req : list Z) (dim : nat) (newsize : Z)
         (infer_dim : option nat) : result (Z * option nat) :=
  match req with
  | [] => Ok (newsize, infer_dim)
  | d :: r =>
      if d =? -1 then
        match infer_dim with
        | Some _ => Err (Interp RuntimeError)
        | None => infer_scan r (S dim) newsize (Some dim)
        end
      else if 0 <=? d then infer_scan r (S dim) (newsize * d) infer_dim
      else Err (Interp RuntimeError)
  end.

(** [l[i] = x]; every index the source assigns to is within the list. *)
Fixpoint set_nth (A : Type) (i : nat) (x : A) (l : list A) : list A :=
  match l, i with
  | [], _ => []
  | _ :: r, O => x :: r
  | y :: r, S j => y :: set_nth j x r
  end.

Definition infer_size (req : list Z) (n : Z) : result (list Z) :=
  (' (newsize, infer_dim) <- infer_scan req 0%nat 1 None ;;
   match infer_dim with
   | Some i =>
       if (n =? newsize) || ((0 <? newsize) && (n mod newsize =? 0)) then
         if newsize =? 0 then Err (Interp RuntimeError)
         else Ok (set_nth i (n / newsize) req)
       else Err (Interp RuntimeError)
   | None =>
       if n =? newsize then Ok req else Err (Interp RuntimeError)
   end)%res.

(** [t.view( *req )] on a contiguous tensor. *)
Definition tensor_view (t : Tensor) (req : list Z) : result Tensor :=
  (sh <- infer_size req (numel t) ;;
   Ok {| shape := sh; data := data t |})%res.

(** The same three operations on a value; anything but a tensor has no
    such attribute. *)
Definition size0 (v : Value) : result Z :=
  match v with
  | VTensor t => tensor_size0 t
  | _ => Err (Interp AttributeError)
  end.

Definition shape_of (v : Value) : result (list Z) :=
  match v with
  | VTensor t => Ok (shape t)
  | _ => Err (Interp AttributeError)
  end.

Definition view (v : Value) (req : list Z) : result Value :=
  match v with
  | VTensor t => (t' <- tensor_view t req ;; Ok (VTensor t'))%res
  | _ => Err (Interp AttributeError)
  end.

(** ** The container and its collaborators *)

(** [Boxes.from_tensor] modes chosen by [_arguments_preproc]. *)
Inductive BoxMode := vertices_plus | xyxy | xywh.

(** What the base class [ImageSequential] keeps on [self]: the named
    children, the ledger of the last forward pass, and [return_label]. *)
Record Base := mkBase {
  modules : list (string * Module);
  _params : option Ledger;
  return_label : option bool
}.

(** [self]: the base class part and the two attributes this class adds. *)
Record Self := mkSelf {
  base : Base;
  data_keys : list DataKey;
  contains_video_sequential : bool
}.

Record World := mkWorld {
  self : Self;
  rng : Rng
}.

(** Code outside the file.  Only [forward_parameters] draws random
    numbers; the appliers replay the parameters they are handed.  The base
    class methods see the [Base] part of [self] only: [data_keys] and
    [contains_video_sequential] are attributes of the subclass. *)
Class Collaborators := {
  (* ImageSequential.__init__ *)
  super_init : list Module -> InitOptions -> result Base;
  (* ImageSequential.forward(input, label, params=params); stores the ledger *)
  super_forward : Base -> Value -> Value -> Ledger -> Base * result Value;
  (* self.apply_to_input(input, label, module=module, param=param) *)
  apply_to_input : Base -> Value -> Value -> Module -> ParamItem
                   -> result (Value * Value);
  (* self.autofill_dim(inp, dim_range=...) *)
  autofill_dim : Base -> Value -> Z * Z -> result (Value * list Z);
  (* self.forward_parameters(out_shape) *)
  forward_parameters : Base -> list Z -> Rng -> Ledger * Rng;
  (* self.contains_label_operations(params) *)
  contains_label_operations : Base -> Ledger -> bool;
  (* self.get_forward_sequence(params) *)
  get_forward_sequence : Base -> Ledger -> result (list (string * Module));
  (* ApplyInverse.apply_by_key(input, label, module, param, dcate) *)
  apply_by_key : Value -> Value -> Module -> ParamItem -> DataKey
                 -> result (Value * Value);
  (* ApplyInverse.inverse_by_key(input, module, param, dcate) *)
  inverse_by_key : Value -> Module -> option ParamItem -> DataKey
                   -> result Value;
  (* Boxes.from_tensor(arg, mode=mode): the vertex tensor and the rest *)
  Boxes_from_tensor : Value -> BoxMode -> result (Value * BoxMeta);
  (* boxes.to_tensor() on an object with the given _data *)
  Boxes_to_tensor : Value -> BoxMeta -> result Value;
  (* iterating a tensor along its first axis, for tuple unpacking *)
  tensor_iter : Tensor -> result (list Value)
}.

Context {ext : Collaborators}.

Local Open Scope result_scope.

(** [bool(self.return_label)] for an [Optional[bool]]. *)
Definition truthy (o : option bool) : bool :=
  match o with Some true => true | _ => false end.

(** [xs[i]] on a Python list. *)
Definition getitem (A : Type) (xs : list A) (i : nat) : result A :=
  match nth_error xs i with
  | Some x => Ok x
  | None => Err (Interp IndexError)
  end.

(** [a, b = v]. *)
Definition unpack2 (v : Value) : result (Value * Value) :=
  xs <- match v with
        | VTuple xs | VList xs => Ok xs
        | VTensor t => tensor_iter t
        | VNone | VBoxes _ _ => Err (Interp TypeError)
        end ;;
  match xs with
  | [a; b] => Ok (a, b)
  | _ => Err (Interp ValueError)
  end.

(** [self.get_submodule(name)] over the direct children. *)
Definition get_submodule (b : Base) (n : string) : result Module :=
  match find (fun p => String.eqb (fst p) n) (modules b) with
  | Some p => Ok (snd p)
  | None => Err (Interp AttributeError)
  end.

(** *** [_validate_args_datakeys] and [_arguments_preproc] *)

Definition _validate_args_datakeys (args : list Value)
           (data_keys : list DataKey) : result unit :=
  if negb (List.length args =? List.length data_keys)%nat then Err ArityMismatch
  else Ok tt.

Definition preproc_one (arg : Value) (dcate : DataKey) : result Value :=
  if key_in (DataKey_get dcate) [INPUT; MASK; KEYPOINTS] then Ok arg
  else if key_in (DataKey_get dcate) [BBOX; BBOX_XYXY; BBOX_XYWH] then
    mode <- (if key_in (DataKey_get dcate) [BBOX] then Ok vertices_plus
             else if key_in (DataKey_get dcate) [BBOX_XYXY] then Ok xyxy
             else if key_in (DataKey_get dcate) [BBOX_XYWH] then Ok xywh
             else Err UnsupportedMode) ;;
    ' (d, meta) <- Boxes_from_tensor arg mode ;;
    Ok (VBoxes d meta)
  else Err (UnsupportedModality dcate).

Fixpoint _arguments_preproc (args : list Value) (data_keys : list DataKey)
  : result (list Value) :=
  match args, data_keys with
  | arg :: args', dcate :: data_keys' =>
      x <- preproc_one arg dcate ;;
      inp <- _arguments_preproc args' data_keys' ;;
      Ok (x :: inp)
  | _, _ => Ok []
  end.

(** *** The forward dispatcher (lines 355-377) *)

(** The body run for one module and its record. *)
Definition forward_exec (b : Base) (dcate : DataKey) (module : Module)
           (param : ParamItem) (input label : Value)
  : result (Value * Value) :=
  match forward_classify module dcate with
  | ApplyToInput => apply_to_input b input label module param
  | Shared SkipIntensity => Ok (input, label)
  | Shared SkipIntensityContainer => Ok (input, label)
  | Shared VideoFold =>
      batch_size <- size0 input ;;
      sh <- shape_of input ;;
      input <- view input (-1 :: skipn 2 sh) ;;
      ' (input, label) <- apply_by_key input label module param dcate ;;
      sh <- shape_of input ;;
      input <- view input (batch_size :: -1 :: skipn 1 sh) ;;
      Ok (input, label)
  | Shared PatchFailure => Err PatchNotSupported
  | Shared ApplyByKey => apply_by_key input label module param dcate
  | Shared SequentialFailure => Err UnsupportedSequential
  | Shared NotImplementedFailure => Err (KeyNotImplemented dcate)
  end.

Definition forward_step (b : Base) (dcate : DataKey) (param : ParamItem)
           (input label : Value) : result (Value * Value) :=
  module <- get_submodule b (name param) ;;
  forward_exec b dcate module param input label.

(** [for param in params: ...] *)
Fixpoint forward_dispatch (b : Base) (dcate : DataKey) (params : Ledger)
         (input label : Value) : result (Value * Value) :=
  match params with
  | [] => Ok (input, label)
  | param :: params' =>
      ' (input, label) <- forward_step b dcate param input label ;;
      forward_dispatch b dcate params' input label
  end.

(** [arg.data] for a [Boxes] object, the argument itself otherwise. *)
Definition payload (arg : Value) : Value :=
  match arg with
  | VBoxes d _ => d
  | _ => arg
  end.

(** [arg._data = input; arg.to_tensor()] for a [Boxes] object, [input]
    otherwise. *)
Definition repack (arg input : Value) : result Value :=
  match arg with
  | VBoxes _ meta => Boxes_to_tensor input meta
  | _ => Ok input
  end.

(** [for idx, (arg, dcate, out) in enumerate(zip(args, _data_keys, outputs))].
    Each [out] is read before slot [idx] is written, so the zipped third
    components are the outputs as they stand when the loop starts. *)
Fixpoint forward_each (b : Base) (params : Ledger) (idx : nat)
         (items : list (Value * DataKey * Value))
         (outputs : list Value) (label : Value)
  : result (list Value * Value) :=
  match items with
  | [] => Ok (outputs, label)
  | (arg, dcate, out) :: items' =>
      if negb (is_None out) then
        forward_each b params (S idx) items' outputs label
      else
        ' (input, label) <- forward_dispatch b dcate params (payload arg) label ;;
        o <- repack arg input ;;
        forward_each b params (S idx) items' (set_nth idx o outputs) label
  end.

Fixpoint zip3 (A B C : Type) (xs : list A) (ys : list B) (zs : list C)
  : list (A * B * C) :=
  match xs, ys, zs with
  | x :: xs', y :: ys', z :: zs' => (x, y, z) :: zip3 xs' ys' zs'
  | _, _, _ => []
  end.

(** *** [__packup_output__] *)

Definition __packup_output__ (s : Self) (output : list Value) (label : Value)
  : Value :=
  match output with
  | [o] =>
      if truthy (return_label (base s)) then VTuple [o; label] else o
  | _ =>
      if truthy (return_label (base s)) then VTuple [VList output; label]
      else VList output
  end.

(** *** The inverse dispatcher (lines 212-235) *)

(** [itertools.zip_longest] with the default fill value [None]. *)
Fixpoint zip_longest (A B : Type) (xs : list A) (ys : list B)
  : list (option A * option B) :=
  match xs, ys with
  | [], _ => map (fun y => (None, Some y)) ys
  | _, [] => map (fun x => (Some x, None)) xs
  | x :: xs', y :: ys' => (Some x, Some y) :: zip_longest xs' ys'
  end.

(** [name in params]: a [str] compared with the [ParamItem] tuples of a
    list is equal to none of them. *)
Definition name_in_params (n : string) (params : Ledger) : bool :=
  existsb (fun _ : ParamItem => false) params.

(** Lines 213-216.  [params[name]] would index a list with a string. *)
Definition select_param (module : Module) (n : string) (params : Ledger)
           (param : option ParamItem) : result (option ParamItem) :=
  if isinstance_any module [_AugmentationBase; ImageSequential] then
    if name_in_params n params then Err (Interp TypeError) else Ok param
  else Ok None.

Definition inverse_exec (dcate : DataKey) (module : Module)
           (param : option ParamItem) (input : Value) : result Value :=
  match inverse_classify module dcate with
  | SkipIntensity => Ok input
  | SkipIntensityContainer => Ok input
  | VideoFold =>
      batch_size <- size0 input ;;
      sh <- shape_of input ;;
      input <- view input (-1 :: skipn 2 sh) ;;
      input <- inverse_by_key input module param dcate ;;
      sh <- shape_of input ;;
      view input (batch_size :: -1 :: skipn 1 sh)
  | PatchFailure => Err PatchNotSupported
  | ApplyByKey => inverse_by_key input module param dcate
  | SequentialFailure => Err UnsupportedSequential
  | NotImplementedFailure => Err (KeyNotImplemented dcate)
  end.

(** One turn of the loop; [(name, module), param] cannot be unpacked from
    a [None] filled in on the left. *)
Definition inverse_step (params : Ledger) (dcate : DataKey)
           (item : option (string * Module) * option ParamItem)
           (input : Value) : result Value :=
  match fst item with
  | None => Err (Interp TypeError)
  | Some (n, module) =>
      param <- select_param module n params (snd item) ;;
      inverse_exec dcate module param input
  end.

Fixpoint inverse_dispatch (params : Ledger) (dcate : DataKey)
         (items : list (option (string * Module) * option ParamItem))
         (input : Value) : result Value :=
  match items with
  | [] => Ok input
  | item :: items' =>
      input <- inverse_step params dcate item input ;;
      inverse_dispatch params dcate items' input
  end.

(** Lines 205-211: which tensor of [arg] is worked on. *)
Definition inverse_payload (arg : Value) (dcate : DataKey) : result Value :=
  if DataKey_eqb dcate INPUT && is_tuple_or_list arg then
    ' (input, _) <- unpack2 arg ;; Ok input
  else Ok (payload arg).

(** [for idx, (arg, dcate) in enumerate(zip(args, data_keys))] *)
Fixpoint inverse_each (b : Base) (params : Ledger) (idx : nat)
         (items : list (Value * DataKey)) (outputs : list Value)
  : result (list Value) :=
  match items with
  | [] => Ok outputs
  | (arg, dcate) :: items' =>
      input <- inverse_payload arg dcate ;;
      seq <- get_forward_sequence b params ;;
      input <- inverse_dispatch params dcate
                 (zip_longest (rev seq) (rev params)) input ;;
      o <- repack arg input ;;
      inverse_each b params (S idx) items' (set_nth idx o outputs)
  end.

(** [inverse( *args, params=None, data_keys=None)] with [data_keys]
    omitted or made of members of [DataKey], for which the list the caller
    passes and the normalised one are the same list; [inverse_raw] below
    keeps them apart.  The method reads [self] and writes nothing. *)
Definition inverse (s : Self) (args : list Value) (params : option Ledger)
           (keys : option (list DataKey)) : result Value :=
  let data_keys := match keys with
                   | None => data_keys s
                   | Some ks => ks
                   end in
  let _data_keys := map DataKey_get data_keys in
  if negb (List.length args =? List.length data_keys)%nat then Err ArityMismatch
  else
    args <- _arguments_preproc args _data_keys ;;
    params <- match params with
              | Some p => Ok p
              | None =>
                  match _params (base s) with
                  | None => Err MissingParameters
                  | Some p => Ok p
                  end
              end ;;
    outputs <- inverse_each (base s) params 0%nat (combine args data_keys)
                 (repeat VNone (List.length data_keys)) ;;
    match outputs with
    | [o] => Ok o
    | _ => Ok (VList outputs)
    end.

(** *** Stateful code: [self] and the random generator

    A computation takes the world and gives back the world it leaves
    behind with its result; an exception keeps the writes made so far. *)
Definition M (A : Type) : Type := World -> World * result A.

Definition ret (A : Type) (a : A) : M A := fun w => (w, Ok a).

Definition raise {A : Type} (e : Exn) : M A := fun w => (w, Err e).

Definition bind (A B : Type) (m : M A) (k : A -> M B) : M B :=
  fun w =>
    match m w with
    | (w', Ok a) => k a w'
    | (w', Err e) => (w', Err e)
    end.

Definition lift (A : Type) (r : result A) : M A := fun w => (w, r).

Declare Scope world_scope.
Delimit Scope world_scope with world.
Notation "x <- c ;; k" := (bind c (fun x => k))
  (at level 61, c at next level, right associativity) : world_scope.
Notation "' pat <- c ;; k" := (bind c (fun x => match x with pat => k end))
  (at level 61, pat pattern, c at next level, right associativity) : world_scope.
Notation "c ;;; k" := (bind c (fun _ => k))
  (at level 61, right associativity) : world_scope.

Definition get_self : M Self := fun w => (w, Ok (self w)).

(** [self.data_keys = ks] *)
Definition set_data_keys (ks : list DataKey) : M unit :=
  fun w =>
    ({| self := {| base := base (self w);
                   data_keys := ks;
                   contains_video_sequential :=
                     contains_video_sequential (self w) |};
        rng := rng w |}, Ok tt).

Definition with_base (s : Self) (b : Base) : Self :=
  {| base := b;
     data_keys := data_keys s;
     contains_video_sequential := contains_video_sequential s |}.

(** [self.return_label = v] *)
Definition set_return_label (v : option bool) : M unit :=
  fun w =>
    ({| self := with_base (self w)
                  {| modules := modules (base (self w));
                     _params := _params (base (self w));
                     return_label := v |};
        rng := rng w |}, Ok tt).

(** [super().forward(_inp, label, params=params)] *)
Definition call_super_forward (_inp label : Value) (params : Ledger)
  : M Value :=
  fun w =>
    let (b', r) := super_forward (base (self w)) _inp label params in
    ({| self := with_base (self w) b'; rng := rng w |}, r).

(** [self.forward_parameters(out_shape)]: the one place that draws. *)
Definition sample (out_shape : list Z) : M Ledger :=
  fun w =>
    let (p, g) := forward_parameters (base (self w)) out_shape (rng w) in
    ({| self := self w; rng := g |}, Ok p).

Local Open Scope world_scope.

(** Lines 312-330: the ledger to use. *)
Definition resolve_params (args : list Value) (_data_keys : list DataKey)
           (params : option Ledger) : M Ledger :=
  match params with
  | Some p => ret p
  | None =>
      if key_in INPUT _data_keys then
        _input <- lift (getitem args (key_index INPUT _data_keys)) ;;
        inp <- (match _input with
                | VTuple xs => lift (getitem xs 0%nat)
                | _ => ret _input
                end) ;;
        if is_tuple_or_list inp then raise InputNotATensor
        else
          s <- get_self ;;
          ' (_, out_shape) <-
            lift (autofill_dim (base s) inp
                    (if contains_video_sequential s then (3, 5) else (2, 4))) ;;
          sample out_shape
      else raise MissingInput
  end.

(** Lines 332-342: the pixel tensor goes through the base class first. *)
Definition forward_input (args : list Value) (_data_keys : list DataKey)
           (params : Ledger) (outputs : list Value) (label : Value)
  : M (list Value * Value) :=
  if key_in INPUT _data_keys then
    let idx := key_index INPUT _data_keys in
    _inp <- lift (getitem args idx) ;;
    _out <- call_super_forward _inp label params ;;
    s <- get_self ;;
    ' (_input, label) <-
      (if truthy (return_label (base s)) then lift (unpack2 _out)
       else ret (_out, label)) ;;
    ret (set_nth idx _input outputs, label)
  else ret (outputs, label).

(** [forward( *args, label=None, params=None, data_keys=None)] *)
Definition forward (args : list Value) (label : Value)
           (params : option Ledger) (keys : option (list DataKey))
  : M Value :=
  _data_keys <-
    (match keys with
     | None => s <- get_self ;; ret (data_keys s)
     | Some ks =>
         let _data_keys := map DataKey_get ks in
         set_data_keys _data_keys ;;; ret _data_keys
     end) ;;
  lift (_validate_args_datakeys args _data_keys) ;;;
  args <- lift (_arguments_preproc args _data_keys) ;;
  params <- resolve_params args _data_keys params ;;
  ' (outputs, label) <-
    forward_input args _data_keys params
      (repeat VNone (List.length _data_keys)) label ;;
  s <- get_self ;;
  set_return_label
    (Some (truthy (return_label (base s))
           || negb (is_None label)
           || contains_label_operations (base s) params)) ;;;
  s <- get_self ;;
  ' (outputs, label) <-
    lift (forward_each (base s) params 0%nat
            (zip3 args _data_keys outputs) outputs label) ;;
  s <- get_self ;;
  ret (__packup_output__ s outputs label).

Local Close Scope world_scope.

(** *** [__init__] *)

Inductive Warning := GeometricInPatchSequential.

(** Lines 164-169: the scan of the constructor's modules. *)
Fixpoint scan_args (args : list Module) (video : bool) (ws : list Warning)
  : bool * list Warning :=
  match args with
  | [] => (video, ws)
  | arg :: args' =>
      let ws := if isinstance arg PatchSequential && negb (intensity_only arg)
                then ws ++ [GeometricInPatchSequential] else ws in
      let video := if isinstance arg VideoSequential then true else video in
      scan_args args' video ws
  end.

(** [AugmentationSequential( *args, data_keys=[DataKey.INPUT], ...)]: the
    new object and the warnings emitted on the way. *)
Definition __init__ (args : list Module) (keys : option (list DataKey))
           (opts : InitOptions) : result (Self * list Warning) :=
  b <- super_init args opts ;;
  let data_keys := map DataKey_get
                     (match keys with None => [INPUT] | Some ks => ks end) in
  if negb (forallb in_DataKey data_keys) then Err KeysNotDataKeys
  else
    k0 <- getitem data_keys 0%nat ;;
    if negb (DataKey_eqb k0 INPUT) then Err FirstKeyNotInput
    else
      let (video, ws) := scan_args args false [] in
      Ok ({| base := b;
             data_keys := data_keys;
             contains_video_sequential := video |}, ws).

(** The two intensity tests that come first in both chains. *)
Definition intensity_short_circuit (module : Module) (dcate : DataKey) : bool :=
  (isinstance module IntensityAugmentationBase2D && in_DataKey dcate
   && negb (isinstance module RandomErasing))
  || (isinstance module ImageSequential && intensity_only module
      && in_DataKey dcate).

(** A module whose type is one of the container classes. *)
Definition is_container (module : Module) : bool :=
  isinstance_any module
    [SequentialBase; ImageSequential; VideoSequential; PatchSequential].

(** [reduce(mul, sizes, 1)] *)
Definition prod_sizes (sizes : list Z) : Z := fold_right Z.mul 1 sizes.

Definition positive_sizes (sizes : list Z) : Prop :=
  Forall (fun d => 0 < d) sizes.

(** Modelled from the spec: [ImageSequential.get_forward_sequence] called
    with a ledger, which is not in this file.  The spec gives it as
    "get_forward_sequence(ledger) -> ordered (name, transform) pairs": one
    pair per record, in the order of the ledger, the transform being the
    child the record names. *)
Fixpoint children_by_params (b : Base) (params : Ledger)
  : result (list (string * Module)) :=
  match params with
  | [] => Ok []
  | p :: r =>
      m <- get_submodule b (name p) ;;
      ms <- children_by_params b r ;;
      Ok ((name p, m) :: ms)
  end.

(** A module of a purely geometric pipeline without patch grid: no
    intensity transform, no erasing, no patch container, no container of
    intensity transforms only; a geometric transform or a container. *)
Definition purely_geometric (module : Module) : bool :=
  negb (isinstance module IntensityAugmentationBase2D)
  && negb (isinstance module RandomErasing)
  && negb (isinstance module PatchSequential)
  && negb (isinstance module ImageSequential && intensity_only module)
  && (isinstance module GeometricAugmentationBase2D
      || isinstance module ImageSequential).

(** The parameter the inverse dispatcher hands on for a record (lines
    213-216). *)
Definition kept_param (module : Module) (param : ParamItem)
  : option ParamItem :=
  if isinstance_any module [_AugmentationBase; ImageSequential]
  then Some param else None.

(** A computation that never assigns [self.data_keys]. *)
Definition keeps_keys (A : Type) (m : M A) : Prop :=
  forall w, data_keys (self (fst (m w))) = data_keys (self w).

(** A computation that neither reads nor advances the random generator:
    started from the same [self] under two generator states, it gives the
    same result, leaves the same [self], and leaves each generator alone. *)
Definition rng_blind (A : Type) (m : M A) : Prop :=
  forall s g1 g2,
    snd (m {| self := s; rng := g1 |}) = snd (m {| self := s; rng := g2 |})
    /\ self (fst (m {| self := s; rng := g1 |}))
       = self (fst (m {| self := s; rng := g2 |}))
    /\ rng (fst (m {| self := s; rng := g1 |})) = g1.

(** [calls_without_keys w w']: the world [w'] is reached from [w] by any
    number of [forward] calls that pass no [data_keys] ([inverse] writes
    nothing, so it need not be listed). *)
Inductive calls_without_keys : World -> World -> Prop :=
| no_call (w : World) : calls_without_keys w w
| then_forward (w w' : World) (args : list Value) (label : Value)
               (params : option Ledger) :
    calls_without_keys w w' ->
    calls_without_keys w (fst (forward args label params None w')).

(** The keys a call works with: the explicit ones, or [self.data_keys]. *)
Definition effective_keys (s : Self) (keys : option (list DataKey))
  : list DataKey :=
  match keys with
  | None => data_keys s
  | Some ks => ks
  end.

(** A record the two intensity tests make both dispatchers pass over: its
    name resolves to a child that meets one of them. *)
Definition skipped_record (b : Base) (dcate : DataKey) (p : ParamItem)
  : bool :=
  match get_submodule b (name p) with
  | Ok module => intensity_short_circuit module dcate
  | Err _ => false
  end.

(** A patch container the dispatchers refuse for a data key. *)
Definition refused_patch (module : Module) (dcate : DataKey) : bool :=
  isinstance module PatchSequential
  && negb (isinstance module VideoSequential)
  && negb (intensity_short_circuit module dcate).

Definition is_tensor (v : Value) : bool :=
  match v with VTensor _ => true | _ => false end.

(** The keys [_arguments_preproc] hands through untouched. *)
Definition plain_key (d : DataKey) : bool :=
  key_in d [INPUT; MASK; KEYPOINTS].

(** What [inverse] returns for its list of outputs (lines 242-245). *)
Definition single_or_list (outputs : list Value) : Value :=
  match outputs with
  | [o] => o
  | _ => VList outputs
  end.

(** A pixel argument that lines 317-322 refuse: a list, or a tuple whose
    first element is a tuple or a list. *)
Definition refused_pixel_input (v : Value) : bool :=
  match v with
  | VTuple (x :: _) => is_tuple_or_list x
  | VList _ => true
  | _ => false
  end.

(** Constructor arguments that draw the warning of line 167. *)
Definition geometric_patch (module : Module) : bool :=
  isinstance module PatchSequential && negb (intensity_only module).

(** A computation that leaves the random generator alone. *)
Definition keeps_rng (A : Type) (m : M A) : Prop :=
  forall w, rng (fst (m w)) = rng w.

(** A computation that leaves the children and the stored ledger alone. *)
Definition keeps_cache (A : Type) (m : M A) : Prop :=
  forall w,
    modules (base (self (fst (m w)))) = modules (base (self w))
    /\ _params (base (self (fst (m w)))) = _params (base (self w)).


(** The value line 344 assigns to [self.return_label]. *)
Definition next_return_label (b : Base) (label : Value) (params : Ledger)
  : option bool :=
  Some (truthy (return_label b) || negb (is_None label)
        || contains_label_operations b params).

(** [forward] without [data_keys], stage by stage: the checks, the ledger,
    the pixel pass, the assignment of [return_label], the other
    modalities, the packing. *)
Definition forward_stages (args : list Value) (label : Value)
           (params : option Ledger) (w : World) : World * result Value :=
  let _data_keys := data_keys (self w) in
  match _validate_args_datakeys args _data_keys with
  | Err e => (w, Err e)
  | Ok _ =>
      match _arguments_preproc args _data_keys with
      | Err e => (w, Err e)
      | Ok inp =>
          match resolve_params inp _data_keys params w with
          | (w1, Err e) => (w1, Err e)
          | (w1, Ok p) =>
              match forward_input inp _data_keys p
                      (repeat VNone (List.length _data_keys)) label w1 with
              | (w2, Err e) => (w2, Err e)
              | (w2, Ok (outputs, label1)) =>
                  let w3 :=
                    fst (set_return_label
                           (next_return_label (base (self w2)) label1 p) w2) in
                  match forward_each (base (self w3)) p 0%nat
                          (zip3 inp _data_keys outputs) outputs label1 with
                  | Err e => (w3, Err e)
                  | Ok (outputs', label2) =>
                      (w3, Ok (__packup_output__ (self w3) outputs' label2))
                  end
              end
          end
      end
  end.

(** A computation that leaves the world as it found it. *)
Definition quiet (A : Type) (m : M A) : Prop :=
  forall w, fst (m w) = w.

(** A computation that leaves [self] alone and draws from the generator at
    most once, with the base part of [self]. *)
Definition draws_at_most_once (A : Type) (m : M A) : Prop :=
  forall w,
    self (fst (m w)) = self w
    /\ (rng (fst (m w)) = rng w
        \/ exists out_shape,
             rng (fst (m w))
             = snd (forward_parameters (base (self w)) out_shape (rng w))).

(** The keys of the modalities that are plain tensors and not the pixels. *)
Definition mask_or_keypoints (d : DataKey) : bool :=
  key_in d [MASK; KEYPOINTS].


(** A module both dispatchers hand to the applier for a data key (the
    branch of lines 229-231 and 371-373). *)
Definition applied_by_key (module : Module) (dcate : DataKey) : bool :=
  match inverse_classify module dcate with
  | ApplyByKey => true
  | _ => false
  end.


(** Lines 337-341: the pixel output and the label that come back from
    the base class, as [forward] reads them off [_out]. *)
Definition pixel_pass (b : Base) (_inp label : Value) (params : Ledger)
  : result (Value * Value) :=
  let (b', r) := super_forward b _inp label params in
  (_out <- r ;;
   if truthy (return_label b') then unpack2 _out else Ok (_out, label))%res.

(** What two calls of [forward] left on objects [s1] and [s2] return when
    they computed the same list of outputs, one per data key, and the same
    label: each call packs them with [__packup_output__] under its own
    [return_label]; or both raise the same exception. *)
Definition same_outputs (s1 s2 : Self) (r1 r2 : result Value) : Prop :=
  match r1, r2 with
  | Ok v1, Ok v2 =>
      exists outputs label,
        v1 = __packup_output__ s1 outputs label
        /\ v2 = __packup_output__ s2 outputs label
  | Err e1, Err e2 => e1 = e2
  | _, _ => False
  end.


End Augment.

(** ** Data keys as a caller may spell them

    The three entry points take [data_keys] as a list of
    [Union[str, int, DataKey]] (lines 140, 175, 294) and normalise it with
    [DataKey.get].  [__init__] and [forward] work with the normalised list
    from then on, so the definitions above describe them once the keys are
    members.  [inverse] normalises too (line 185), but hands the normalised
    list to [_arguments_preproc] only: the arity check, the length of the
    outputs and the loop of line 204 use the list the caller passed.  The
    definitions of this section keep the two lists apart. *)
Inductive RawKey :=
| KMember (d : DataKey)   (* DataKey.MASK *)
| KStr (s : string)       (* a string such as mask *)
| KInt (z : Z).           (* an integer such as 1 *)

Section Spelled.

Context {carrier : Carrier} {ext : Collaborators}.

(** Modelled from the spec: [kornia.constants.DataKey] and
    [ApplyInverse] are not in this file.  The spec gives the "modality tag
    vocabulary (string/int/enum accepted, normalized to enum)"; what
    [DataKey.get] answers for a string or an integer, what the interpreter
    answers to [key in DataKey] and to [key == DataKey.X] for such a key
    (the former depends on the version of Python), and what
    [ApplyInverse.inverse_by_key] does when it is handed one, are the
    fields of this class.  A string is equal to no member of an
    enumeration, whatever its base class. *)
Class Spellings := {
  (* DataKey.get(key) for a str or an int *)
  DataKey_get_spelled : RawKey -> result DataKey;
  (* key in DataKey for a str or an int *)
  spelled_in_DataKey : RawKey -> result bool;
  (* z == DataKey.X for an int *)
  int_equals_member : Z -> DataKey -> bool;
  (* ApplyInverse.inverse_by_key(input, module, param, key) for a str or an int *)
  inverse_by_key_spelled : Value -> Module -> option ParamItem -> RawKey
                           -> result Value
}.

Context {spell : Spellings}.

Local Open Scope result_scope.

(** [DataKey.get(key)] *)
Definition DataKey_get_any (k : RawKey) : result DataKey :=
  match k with
  | KMember d => Ok (DataKey_get d)
  | _ => DataKey_get_spelled k
  end.

(** [[DataKey.get(inp) for inp in data_keys]] *)
Fixpoint normalise (ks : list RawKey) : result (list DataKey) :=
  match ks with
  | [] => Ok []
  | k :: r =>
      d <- DataKey_get_any k ;;
      ds <- normalise r ;;
      Ok (d :: ds)
  end.

(** [key == DataKey.X] *)
Definition raw_eqb (k : RawKey) (d : DataKey) : bool :=
  match k with
  | KMember d' => DataKey_eqb d' d
  | KStr _ => false
  | KInt z => int_equals_member z d
  end.

(** [key in [DataKey.X, ...]] *)
Definition raw_key_in (k : RawKey) (ds : list DataKey) : bool :=
  existsb (raw_eqb k) ds.

(** [key in DataKey] *)
Definition raw_in_DataKey (k : RawKey) : result bool :=
  match k with
  | KMember d => Ok (in_DataKey d)
  | _ => spelled_in_DataKey k
  end.

(** [inverse], lines 217-235, on the key the loop of line 204 yields.
    [and] evaluates its right operand only when the left one holds, which
    matters where the right operand may raise. *)
Definition inverse_classify_raw (module : Module) (dcate : RawKey)
  : result Branch :=
  c1 <- (if isinstance module IntensityAugmentationBase2D then
           c <- raw_in_DataKey dcate ;;
           Ok (c && negb (isinstance module RandomErasing))
         else Ok false) ;;
  if c1 then Ok SkipIntensity
  else
    c2 <- (if isinstance module ImageSequential && intensity_only module
           then raw_in_DataKey dcate else Ok false) ;;
    if c2 then Ok SkipIntensityContainer
    else if isinstance module VideoSequential
            && negb (raw_key_in dcate [INPUT; MASK])
    then Ok VideoFold
    else if isinstance module PatchSequential
    then Ok PatchFailure
    else
      c5 <- (if isinstance_any module
                  [GeometricAugmentationBase2D; ImageSequential; RandomErasing]
             then raw_in_DataKey dcate else Ok false) ;;
      if c5 then Ok ApplyByKey
      else if isinstance_any module [SequentialBase]
      then Ok SequentialFailure
      else Ok NotImplementedFailure.

(** [ApplyInverse.inverse_by_key(input, module, param, dcate)] *)
Definition inverse_by_key_any (input : Value) (module : Module)
           (param : option ParamItem) (dcate : RawKey) : result Value :=
  match dcate with
  | KMember d => inverse_by_key input module param d
  | _ => inverse_by_key_spelled input module param dcate
  end.

Definition inverse_exec_raw (dcate : RawKey) (module : Module)
           (param : option ParamItem) (input : Value) : result Value :=
  br <- inverse_classify_raw module dcate ;;
  match br with
  | SkipIntensity => Ok input
  | SkipIntensityContainer => Ok input
  | VideoFold =>
      batch_size <- size0 input ;;
      sh <- shape_of input ;;
      input <- view input (-1 :: skipn 2 sh) ;;
      input <- inverse_by_key_any input module param dcate ;;
      sh <- shape_of input ;;
      view input (batch_size :: -1 :: skipn 1 sh)
  | PatchFailure => Err PatchNotSupported
  | ApplyByKey => inverse_by_key_any input module param dcate
  | SequentialFailure => Err UnsupportedSequential
  | NotImplementedFailure =>
      match dcate with
      | KMember d => Err (KeyNotImplemented d)
      | _ => Err (Interp NotImplementedError)
      end
  end.

Definition inverse_step_raw (params : Ledger) (dcate : RawKey)
           (item : option (string * Module) * option ParamItem)
           (input : Value) : result Value :=
  match fst item with
  | None => Err (Interp TypeError)
  | Some (n, module) =>
      param <- select_param module n params (snd item) ;;
      inverse_exec_raw dcate module param input
  end.

Fixpoint inverse_dispatch_raw (params : Ledger) (dcate : RawKey)
         (items : list (option (string * Module) * option ParamItem))
         (input : Value) : result Value :=
  match items with
  | [] => Ok input
  | item :: items' =>
      input <- inverse_step_raw params dcate item input ;;
      inverse_dispatch_raw params dcate items' input
  end.

(** Lines 205-211. *)
Definition inverse_payload_raw (arg : Value) (dcate : RawKey) : result Value :=
  if raw_eqb dcate INPUT && is_tuple_or_list arg then
    ' (input, _) <- unpack2 arg ;; Ok input
  else Ok (payload arg).

(** [for idx, (arg, dcate) in enumerate(zip(args, data_keys))], line 204:
    the arguments are the preprocessed ones, the keys are the caller's. *)
Fixpoint inverse_each_raw (b : Base) (params : Ledger) (idx : nat)
         (items : list (Value * RawKey)) (outputs : list Value)
  : result (list Value) :=
  match items with
  | [] => Ok outputs
  | (arg, dcate) :: items' =>
      input <- inverse_payload_raw arg dcate ;;
      seq <- get_forward_sequence b params ;;
      input <- inverse_dispatch_raw params dcate
                 (zip_longest (rev seq) (rev params)) input ;;
      o <- repack arg input ;;
      inverse_each_raw b params (S idx) items' (set_nth idx o outputs)
  end.

(** [inverse( *args, params=None, data_keys=None)] with the keys as the
    caller spells them. *)
Definition inverse_raw (s : Self) (args : list Value) (params : option Ledger)
           (keys : option (list RawKey)) : result Value :=
  let data_keys := match keys with
                   | None => map KMember (data_keys s)
                   | Some ks => ks
                   end in
  _data_keys <- normalise data_keys ;;
  if negb (List.length args =? List.length data_keys)%nat then Err ArityMismatch
  else
    args <- _arguments_preproc args _data_keys ;;
    params <- match params with
              | Some p => Ok p
              | None =>
                  match _params (base s) with
                  | None => Err MissingParameters
                  | Some p => Ok p
                  end
              end ;;
    outputs <- inverse_each_raw (base s) params 0%nat (combine args data_keys)
                 (repeat VNone (List.length data_keys)) ;;
    match outputs with
    | [o] => Ok o
    | _ => Ok (VList outputs)
    end.

(** [forward] with the keys as the caller spells them: line 306 normalises
    them before anything is assigned, and the rest of the method sees the
    members only. *)
Definition forward_raw (args : list Value) (label : Value)
           (params : option Ledger) (keys : option (list RawKey))
  : M Value :=
  match keys with
  | None => forward args label params None
  | Some ks =>
      fun w =>
        match normalise ks with
        | Ok _data_keys => forward args label params (Some _data_keys) w
        | Err e => (w, Err e)
        end
  end.

(** [__init__] with the keys as the caller spells them: the base class is
    initialised first (line 147), then line 156 normalises the keys. *)
Definition __init___raw (args : list Module) (keys : option (list RawKey))
           (opts : InitOptions) : result (Self * list Warning) :=
  _ <- super_init args opts ;;
  match keys with
  | None => __init__ args None opts
  | Some ks =>
      _data_keys <- normalise ks ;;
      __init__ args (Some _data_keys) opts
  end.

(** Two arguments that [inverse] treats alike under one key of the
    caller. *)
Definition same_item_raw (it it' : Value * RawKey) : Prop :=
  snd it = snd it'
  /\ inverse_payload_raw (fst it) (snd it)
     = inverse_payload_raw (fst it') (snd it')
  /\ forall x, repack (fst it) x = repack (fst it') x.

End Spelled.

(** ** A small pipeline to run the definitions on

    Integer entries, integer parameters, a counter for the random
    generator.  A geometric kernel adds its parameter to every entry and
    its inverse subtracts it; everything else leaves the entries alone. *)
Module Toy.

#[export] Instance carrier : Carrier := {|
  Scalar := Z;
  ParamData := Z;
  Rng := Z;
  BoxMeta := BoxMode;
  InitOptions := unit
|}.

Definition ColorJitter : Module :=
  {| ident := 0;
     mro := [IntensityAugmentationBase2D; _AugmentationBase];
     intensity_only := true |}.

Definition RandomAffine : Module :=
  {| ident := 1;
     mro := [GeometricAugmentationBase2D; _AugmentationBase];
     intensity_only := false |}.

Definition Erasing : Module :=
  {| ident := 2;
     mro := [RandomErasing; IntensityAugmentationBase2D; _AugmentationBase];
     intensity_only := true |}.

(** [VideoSequential(ColorJitter, RandomAffine)] *)
Definition Video : Module :=
  {| ident := 3;
     mro := [VideoSequential; ImageSequential; SequentialBase];
     intensity_only := false |}.

(** [VideoSequential(ColorJitter)] *)
Definition VideoJitter : Module :=
  {| ident := 4;
     mro := [VideoSequential; ImageSequential; SequentialBase];
     intensity_only := true |}.

(** [PatchSequential(RandomAffine)] *)
Definition Patch : Module :=
  {| ident := 5;
     mro := [PatchSequential; ImageSequential; SequentialBase];
     intensity_only := false |}.

Definition shift (k : Z) (v : Value) : Value :=
  match v with
  | VTensor t => VTensor {| shape := shape t; data := map (Z.add k) (data t) |}
  | _ => v
  end.

(** What a module does to the entries, given its parameter. *)
Definition kernel (module : Module) (k : Z) (v : Value) : Value :=
  if isinstance_any module
       [GeometricAugmentationBase2D; VideoSequential; PatchSequential]
     && negb (intensity_only module)
  then shift k v else v.

Definition child_name (i : nat) : string :=
  String (Ascii.ascii_of_nat (97 + i)) EmptyString.

Fixpoint name_children (i : nat) (args : list Module)
  : list (string * Module) :=
  match args with
  | [] => []
  | m :: r => (child_name i, m) :: name_children (S i) r
  end.

Fixpoint run_input (b : Base) (params : Ledger) (v : Value) : result Value :=
  match params with
  | [] => Ok v
  | p :: r =>
      (m <- get_submodule b (name p) ;;
       run_input b r (kernel m (pdata p) v))%res
  end.

#[export] Instance ext : Collaborators := {|
  super_init := fun args _ =>
    Ok {| modules := name_children 0 args;
          _params := None;
          return_label := None |};
  super_forward := fun b inp label params =>
    let rl := match return_label b with
              | None => Some (negb (is_None label))
              | Some r => Some r
              end in
    ({| modules := modules b; _params := Some params; return_label := rl |},
     (out <- run_input b params inp ;;
      Ok (if truthy rl then VTuple [out; label] else out))%res);
  apply_to_input := fun b input label module param =>
    Ok (kernel module (pdata param) input, label);
  autofill_dim := fun _ inp _ =>
    match inp with
    | VTensor t => Ok (inp, shape t)
    | _ => Err (Interp AttributeError)
    end;
  forward_parameters := fun b _ g =>
    (map (fun nm => {| name := fst nm; pdata := g |}) (modules b), g + 1);
  contains_label_operations := fun _ _ => false;
  get_forward_sequence := children_by_params;
  apply_by_key := fun input label module param _ =>
    Ok (kernel module (pdata param) input, label);
  inverse_by_key := fun input module param _ =>
    Ok (match param with
        | Some p => kernel module (- pdata p) input
        | None => input
        end);
  Boxes_from_tensor := fun v mode => Ok (v, mode);
  Boxes_to_tensor := fun v _ => Ok v;
  tensor_iter := fun _ => Err (Interp TypeError)
|}.

(** A pixel tensor of shape (1, 2) and key points of shape (1, 2, 1, 2). *)
Definition image : Value := VTensor {| shape := [1; 2]; data := [10; 20] |}.
Definition points : Value :=
  VTensor {| shape := [1; 2; 1; 2]; data := [1; 2; 3; 4] |}.

(** The object the constructor builds from [args], before any call. *)
Definition fresh (args : list Module) (keys : list DataKey) : Self :=
  {| base := {| modules := name_children 0 args;
                _params := None;
                return_label := None |};
     data_keys := keys;
     contains_video_sequential := false |}.

Definition world (s : Self) (g : Z) : World := {| self := s; rng := g |}.

Definition record (n : string) (k : Z) : ParamItem :=
  {| name := n; pdata := k |}.

(** [AugmentationSequential(ColorJitter, RandomAffine,
    data_keys=["input", "keypoints"])] *)
Definition jitter_affine : Self :=
  fresh [ColorJitter; RandomAffine] [INPUT; KEYPOINTS].

(** [AugmentationSequential(RandomAffine, VideoSequential(...))] *)
Definition affine_video : Self := fresh [RandomAffine; Video] [INPUT].

(** The same collaborators with a [Boxes.from_tensor] that accepts tensors
    only. *)
Definition strict_ext : Collaborators := {|
  super_init := @super_init carrier ext;
  super_forward := @super_forward carrier ext;
  apply_to_input := @apply_to_input carrier ext;
  autofill_dim := @autofill_dim carrier ext;
  forward_parameters := @forward_parameters carrier ext;
  contains_label_operations := @contains_label_operations carrier ext;
  get_forward_sequence := @get_forward_sequence carrier ext;
  apply_by_key := @apply_by_key carrier ext;
  inverse_by_key := @inverse_by_key carrier ext;
  Boxes_from_tensor := fun v mode =>
    match v with
    | VTensor _ => Ok (v, mode)
    | _ => Err (Interp AttributeError)
    end;
  Boxes_to_tensor := @Boxes_to_tensor carrier ext;
  tensor_iter := @tensor_iter carrier ext
|}.

(** [AugmentationSequential(ColorJitter, VideoSequential(ColorJitter))] *)
Definition jitter_only : Self :=
  fresh [ColorJitter; VideoJitter] [INPUT; KEYPOINTS].

(** [AugmentationSequential(RandomAffine, PatchSequential(RandomAffine))] *)
Definition affine_patch : Self := fresh [RandomAffine; Patch] [INPUT; MASK].

(** Key points of an empty batch, shape (0, 2, 1, 2). *)
Definition no_points : Tensor := @mkTensor carrier [0; 2; 1; 2] [].


(** The vocabulary of the spec: the six names, and the values 0 to 5. *)
Definition key_of_string (s : string) : result DataKey :=
  if String.eqb s "input" then Ok INPUT
  else if String.eqb s "mask" then Ok MASK
  else if String.eqb s "bbox" then Ok BBOX
  else if String.eqb s "bbox_xyxy" then Ok BBOX_XYXY
  else if String.eqb s "bbox_xywh" then Ok BBOX_XYWH
  else if String.eqb s "keypoints" then Ok KEYPOINTS
  else Err (Interp ValueError).

Definition key_of_int (z : Z) : result DataKey :=
  match z with
  | 0 => Ok INPUT
  | 1 => Ok MASK
  | 2 => Ok BBOX
  | 3 => Ok BBOX_XYXY
  | 4 => Ok BBOX_XYWH
  | 5 => Ok KEYPOINTS
  | _ => Err (Interp ValueError)
  end.

(** An interpreter that refuses [key in DataKey] for a key that is not a
    member, an enumeration whose members are equal to no integer, and an
    [inverse_by_key] that normalises the key it is handed. *)
#[export] Instance spell : Spellings := {|
  DataKey_get_spelled := fun k =>
    match k with
    | KMember d => Ok d
    | KStr s => key_of_string s
    | KInt z => key_of_int z
    end;
  spelled_in_DataKey := fun _ => Err (Interp TypeError);
  int_equals_member := fun _ _ => false;
  inverse_by_key_spelled := fun input module param k =>
    (d <- match k with
          | KMember d => Ok d
          | KStr s => key_of_string s
          | KInt z => key_of_int z
          end ;;
     inverse_by_key input module param d)%res
|}.

(** [AugmentationSequential(VideoSequential(ColorJitter, RandomAffine))] *)
Definition video_only : Self := fresh [Video] [INPUT].

(** A mask of shape (1, 2, 1, 2). *)
Definition mask : Value :=
  VTensor {| shape := [1; 2; 1; 2]; data := [0; 1; 1; 0] |}.


End Toy.

(** * Properties of the dispatchers *)

Lemma DataKey_eqb_spec a b : reflect (a = b) (DataKey_eqb a b).
Proof. destruct a, b; constructor; congruence. Qed.

Lemma DataKey_eqb_INPUT_false dcate :
  dcate <> INPUT -> DataKey_eqb dcate INPUT = false.
Proof. intros H. destruct (DataKey_eqb_spec dcate INPUT); congruence. Qed.

Lemma in_DataKey_total dcate : in_DataKey dcate = true.
Proof. destruct dcate; reflexivity. Qed.

(** Split on the test of the first undecided conditional of the goal. *)
Ltac split_if :=
  match goal with
  | |- context [if ?c then _ else _] =>
      lazymatch c with
      | true => fail
      | false => fail
      | _ => destruct c eqn:?
      end
  end.

(** The forward chain is the inverse chain behind one more test. *)
Lemma forward_classify_unfold (module : Module) (dcate : DataKey) :
  forward_classify module dcate
  = if DataKey_eqb dcate INPUT then ApplyToInput
    else Shared (inverse_classify module dcate).
Proof.
  unfold forward_classify, inverse_classify.
  destruct (DataKey_eqb dcate INPUT); [reflexivity |].
  repeat (split_if; [reflexivity |]).
  reflexivity.
Qed.

Lemma forward_classify_shared (module : Module) (dcate : DataKey) (br : Branch) :
  dcate <> INPUT ->
  inverse_classify module dcate = br ->
  forward_classify module dcate = Shared br.
Proof.
  intros Hkey <-.
  now rewrite forward_classify_unfold, (DataKey_eqb_INPUT_false Hkey).
Qed.

(** For every module and every member of [DataKey] other than INPUT, the
    forward chain of tests selects the branch that [inverse_classify]
    selects: skip for an intensity transform, skip for an intensity-only
    container, video fold, patch failure, apply by key, unsupported
    sequential, not implemented.  This is what [inverse] does when its keys
    are members; [inverse_classify_raw] is what it does with the keys it is
    handed. *)
Lemma forward_inverse_same_branch (module : Module) (dcate : DataKey) :
  dcate <> INPUT ->
  forward_classify module dcate = Shared (inverse_classify module dcate).
Proof.
  intros Hkey.
  now rewrite forward_classify_unfold, (DataKey_eqb_INPUT_false Hkey).
Qed.

(** On the pixel key the two chains part: forward hands the record to
    [apply_to_input], inverse runs the shared chain. *)
Remark forward_input_branch (module : Module) :
  forward_classify module INPUT = ApplyToInput.
Proof. reflexivity. Qed.

Lemma short_circuit_branch module dcate :
  intensity_short_circuit module dcate = true ->
  inverse_classify module dcate = SkipIntensity
  \/ inverse_classify module dcate = SkipIntensityContainer.
Proof.
  unfold intensity_short_circuit, inverse_classify. intros H.
  destruct (isinstance module IntensityAugmentationBase2D && in_DataKey dcate
            && negb (isinstance module RandomErasing)); [now left |].
  simpl in H. rewrite H. now right.
Qed.

Lemma no_short_circuit_branch module dcate :
  intensity_short_circuit module dcate = false ->
  inverse_classify module dcate =
    if isinstance module VideoSequential && negb (key_in dcate [INPUT; MASK])
    then VideoFold
    else if isinstance module PatchSequential then PatchFailure
    else if isinstance_any module
              [GeometricAugmentationBase2D; ImageSequential; RandomErasing]
            && in_DataKey dcate
    then ApplyByKey
    else if isinstance_any module [SequentialBase] then SequentialFailure
    else NotImplementedFailure.
Proof.
  unfold intensity_short_circuit, inverse_classify. intros H.
  apply orb_false_iff in H. destruct H as [H1 H2]. now rewrite H1, H2.
Qed.

Section Properties.

Context {carrier : Carrier} {ext : Collaborators}.

Lemma name_in_params_false (n : string) (params : Ledger) :
  name_in_params n params = false.
Proof.
  unfold name_in_params. induction params as [| p r IH]; simpl; auto.
Qed.

Lemma forward_step_exec b dcate param module input label :
  get_submodule b (name param) = Ok module ->
  forward_step b dcate param input label
  = forward_exec b dcate module param input label.
Proof. intros H. unfold forward_step. now rewrite H. Qed.

Lemma inverse_step_exec params dcate n module param input :
  inverse_step params dcate (Some (n, module), param) input
  = inverse_exec dcate module
      (if isinstance_any module [_AugmentationBase; ImageSequential]
       then param else None) input.
Proof.
  unfold inverse_step, select_param. cbn [fst snd].
  rewrite name_in_params_false.
  now destruct (isinstance_any module [_AugmentationBase; ImageSequential]).
Qed.

(** C4. For a data key other than INPUT, a record whose module is an
    intensity transform other than an erasing one, or a container that
    answers [is_intensity_only()] with true, leaves the representation (and
    the label) as it was, whatever parameter the record carries, in the
    forward dispatch and in the inverse dispatch. *)
Theorem intensity_only_record_is_identity
        (b : Base) (params : Ledger) (dcate : DataKey) (module : Module)
        (param : ParamItem) (n : string) (iparam : option ParamItem)
        (input label : Value) :
  dcate <> INPUT ->
  get_submodule b (name param) = Ok module ->
  (isinstance module IntensityAugmentationBase2D = true
   /\ isinstance module RandomErasing = false)
  \/ (isinstance module ImageSequential = true
      /\ intensity_only module = true) ->
  forward_step b dcate param input label = Ok (input, label)
  /\ inverse_step params dcate (Some (n, module), iparam) input = Ok input.
Proof.
  intros Hkey Hsub Hmod.
  assert (Hsc : intensity_short_circuit module dcate = true).
  { unfold intensity_short_circuit. rewrite in_DataKey_total.
    destruct Hmod as [[H1 H2] | [H1 H2]]; rewrite H1, H2; simpl;
      auto using orb_true_r. }
  rewrite forward_step_exec with (module := module) by exact Hsub.
  rewrite inverse_step_exec.
  unfold forward_exec, inverse_exec.
  destruct (short_circuit_branch _ _ Hsc) as [Hb | Hb];
    rewrite (@forward_classify_shared module dcate _ Hkey Hb), Hb;
    split; reflexivity.
Qed.

(** C5. In the inverse dispatch, for every data key (mask, boxes and key
    points among them), a record whose module is a [RandomErasing] (and no
    container) is not skipped: the outcome of the step is the outcome of
    [inverse_by_key] on the input, the module and the record's parameter,
    whether or not the module also counts as an intensity transform. *)
Theorem erasing_inverse_is_applied
        (params : Ledger) (dcate : DataKey) (module : Module) (n : string)
        (param : option ParamItem) (input : Value) :
  isinstance module RandomErasing = true ->
  is_container module = false ->
  inverse_step params dcate (Some (n, module), param) input
  = inverse_by_key input module
      (if isinstance module _AugmentationBase then param else None) dcate.
Proof.
  intros Her Hc. rewrite inverse_step_exec.
  unfold is_container, isinstance_any in Hc. simpl in Hc.
  repeat (apply orb_false_iff in Hc; destruct Hc as [? Hc]).
  unfold inverse_exec, inverse_classify, isinstance_any. simpl existsb.
  repeat match goal with H : isinstance module _ = _ |- _ => rewrite H end.
  rewrite in_DataKey_total, !andb_false_r, !orb_false_r. simpl.
  rewrite !orb_true_r. simpl.
  now destruct (isinstance module _AugmentationBase).
Qed.

(** C7. For a data key other than INPUT, a record whose module is a
    [PatchSequential] (and no video container) that the two intensity tests
    do not short-circuit makes the forward step and the inverse step raise
    the patch [NotImplementedError]. *)
Theorem patch_container_is_rejected
        (b : Base) (params : Ledger) (dcate : DataKey) (module : Module)
        (param : ParamItem) (n : string) (iparam : option ParamItem)
        (input label : Value) :
  dcate <> INPUT ->
  get_submodule b (name param) = Ok module ->
  isinstance module PatchSequential = true ->
  isinstance module VideoSequential = false ->
  intensity_short_circuit module dcate = false ->
  forward_step b dcate param input label = Err PatchNotSupported
  /\ inverse_step params dcate (Some (n, module), iparam) input
     = Err PatchNotSupported
  /\ py_class PatchNotSupported = NotImplementedError.
Proof.
  intros Hkey Hsub Hpatch Hvideo Hsc.
  assert (Hb : inverse_classify module dcate = PatchFailure).
  { rewrite (no_short_circuit_branch _ _ Hsc), Hvideo, Hpatch. reflexivity. }
  rewrite forward_step_exec with (module := module) by exact Hsub.
  rewrite inverse_step_exec.
  unfold forward_exec, inverse_exec.
  rewrite (@forward_classify_shared module dcate _ Hkey Hb), Hb.
  repeat split.
Qed.

(** *** Size inference on the shapes the video branch builds *)

Lemma prod_sizes_pos sizes : positive_sizes sizes -> 0 < prod_sizes sizes.
Proof.
  induction 1 as [| d r Hd _ IH]; simpl; [lia |].
  now apply Z.mul_pos_pos.
Qed.

Lemma infer_scan_given req dim acc infer_dim :
  positive_sizes req ->
  infer_scan req dim acc infer_dim = Ok (acc * prod_sizes req, infer_dim).
Proof.
  intros Hreq. revert dim acc.
  induction Hreq as [| d r Hd _ IH]; intros dim acc; simpl.
  - now rewrite Z.mul_1_r.
  - destruct (Z.eqb_spec d (-1)); [lia |].
    destruct (Z.leb_spec 0 d); [| lia].
    rewrite IH. now rewrite Z.mul_assoc.
Qed.

(** [view(-1, *rest)] on [k * prod rest] entries gives [k :: rest]. *)
Lemma infer_size_fold rest k :
  positive_sizes rest ->
  infer_size (-1 :: rest) (k * prod_sizes rest) = Ok (k :: rest).
Proof.
  intros Hrest. pose proof (prod_sizes_pos Hrest) as Hp.
  unfold infer_size.
  replace (infer_scan (-1 :: rest) 0 1 None)
    with (infer_scan rest 1 1 (Some 0%nat)) by reflexivity.
  rewrite (infer_scan_given 1%nat 1 (Some 0%nat) Hrest). cbn [rbind].
  rewrite Z.mul_1_l, Z.mod_mul by lia.
  destruct (Z.ltb_spec 0 (prod_sizes rest)); [| lia].
  rewrite orb_true_r.
  destruct (Z.eqb_spec (prod_sizes rest) 0); [lia |].
  cbn [set_nth]. now rewrite Z.div_mul by lia.
Qed.

(** [view(batch, -1, *rest)] on [batch * k * prod rest] entries gives
    [batch :: k :: rest]. *)
Lemma infer_size_unfold batch rest k :
  0 < batch ->
  positive_sizes rest ->
  infer_size (batch :: -1 :: rest) (batch * k * prod_sizes rest)
  = Ok (batch :: k :: rest).
Proof.
  intros Hb Hrest. pose proof (prod_sizes_pos Hrest) as Hp.
  unfold infer_size. cbn [infer_scan].
  destruct (Z.eqb_spec batch (-1)); [lia |].
  destruct (Z.leb_spec 0 batch); [| lia].
  change (-1 =? -1) with true. cbv iota.
  rewrite (infer_scan_given 2%nat (1 * batch) (Some 1%nat) Hrest).
  cbn [rbind]. rewrite Z.mul_1_l.
  assert (Hn : batch * k * prod_sizes rest = k * (batch * prod_sizes rest))
    by ring.
  assert (Hq : 0 < batch * prod_sizes rest) by now apply Z.mul_pos_pos.
  rewrite Hn, Z.mod_mul by lia.
  destruct (Z.ltb_spec 0 (batch * prod_sizes rest)); [| lia].
  rewrite orb_true_r.
  destruct (Z.eqb_spec (batch * prod_sizes rest) 0); [lia |].
  cbn [set_nth]. now rewrite Z.div_mul by lia.
Qed.

Lemma view_fold (t : Tensor) batch time rest :
  shape t = batch :: time :: rest ->
  positive_sizes rest ->
  view (VTensor t) (-1 :: skipn 2 (shape t))
  = Ok (VTensor {| shape := batch * time :: rest; data := data t |}).
Proof.
  intros Hs Hrest. unfold view, tensor_view, numel. rewrite Hs.
  cbn [skipn shape fold_right].
  change (fold_right Z.mul 1 rest) with (prod_sizes rest).
  rewrite Z.mul_assoc, infer_size_fold by assumption. reflexivity.
Qed.

Lemma view_unfold (out : Tensor) batch time rest :
  shape out = batch * time :: rest ->
  0 < batch ->
  positive_sizes rest ->
  view (VTensor out) (batch :: -1 :: skipn 1 (shape out))
  = Ok (VTensor {| shape := batch :: time :: rest; data := data out |}).
Proof.
  intros Hs Hb Hrest. unfold view, tensor_view, numel. rewrite Hs.
  cbn [skipn shape fold_right].
  change (fold_right Z.mul 1 rest) with (prod_sizes rest).
  rewrite infer_size_unfold by assumption. reflexivity.
Qed.

(** C6, amended. For a data key that is neither INPUT nor MASK, a record
    whose module is a [VideoSequential] that the two intensity tests do not
    short-circuit is dispatched on a tensor of shape (batch, time, rest...)
    by handing the applier the tensor of shape (batch * time, rest...) with
    the same entries; when the applier answers a tensor of shape
    (batch * time, rest'...), the step returns its entries under the shape
    (batch, time, rest'...).  This holds for the forward step with
    [apply_by_key] and for the inverse step with [inverse_by_key]. *)
Theorem video_record_folds_time_into_batch
        (b : Base) (params : Ledger) (dcate : DataKey) (module : Module)
        (param : ParamItem) (n : string) (iparam : option ParamItem)
        (t : Tensor) (label : Value) (batch time : Z) (rest : list Z) :
  isinstance module VideoSequential = true ->
  key_in dcate [INPUT; MASK] = false ->
  intensity_short_circuit module dcate = false ->
  get_submodule b (name param) = Ok module ->
  shape t = batch :: time :: rest ->
  0 < batch ->
  positive_sizes rest ->
  let folded := VTensor {| shape := batch * time :: rest; data := data t |} in
  let iparam' := if isinstance_any module [_AugmentationBase; ImageSequential]
                 then iparam else None in
  (forall out label' rest',
      apply_by_key folded label module param dcate = Ok (VTensor out, label') ->
      shape out = batch * time :: rest' ->
      positive_sizes rest' ->
      forward_step b dcate param (VTensor t) label
      = Ok (VTensor {| shape := batch :: time :: rest'; data := data out |},
            label'))
  /\ (forall out rest',
         inverse_by_key folded module iparam' dcate = Ok (VTensor out) ->
         shape out = batch * time :: rest' ->
         positive_sizes rest' ->
         inverse_step params dcate (Some (n, module), iparam) (VTensor t)
         = Ok (VTensor {| shape := batch :: time :: rest'; data := data out |})).
Proof.
  intros Hvideo Hkey Hsc Hsub Hshape Hb Hrest folded iparam'.
  assert (Hne : dcate <> INPUT) by (intros ->; discriminate).
  assert (Hbr : inverse_classify module dcate = VideoFold).
  { rewrite (no_short_circuit_branch _ _ Hsc), Hvideo, Hkey. reflexivity. }
  split.
  - intros out label' rest' Happ Hout Hrest'.
    rewrite forward_step_exec with (module := module) by exact Hsub.
    unfold forward_exec.
    rewrite (@forward_classify_shared module dcate _ Hne Hbr).
    unfold size0, tensor_size0, shape_of. rewrite Hshape at 1. cbn [rbind].
    rewrite (@view_fold t batch time rest Hshape Hrest). cbn [rbind].
    fold folded. rewrite Happ. cbn [rbind].
    rewrite (@view_unfold out batch time rest' Hout Hb Hrest'). reflexivity.
  - intros out rest' Happ Hout Hrest'.
    rewrite inverse_step_exec. fold iparam'.
    unfold inverse_exec. rewrite Hbr.
    unfold size0, tensor_size0, shape_of. rewrite Hshape at 1. cbn [rbind].
    rewrite (@view_fold t batch time rest Hshape Hrest). cbn [rbind].
    fold folded. rewrite Happ. cbn [rbind].
    rewrite (@view_unfold out batch time rest' Hout Hb Hrest'). reflexivity.
Qed.

(** *** Calls that lack a ledger or an input *)

Lemma map_DataKey_get ks : map DataKey_get ks = ks.
Proof. induction ks as [| k r IH]; simpl; [| rewrite IH]; reflexivity. Qed.

(** C8. When [self._params] is [None] and no [params] is passed,
    [inverse] never returns a value: it raises.  If the number of inputs
    equals the number of data keys and the inputs pass
    [_arguments_preproc], which are the two steps that run first, the
    exception is the [ValueError] for missing parameters. *)
Theorem inverse_without_ledger_raises
        (s : Self) (args : list Value) (keys : option (list DataKey)) :
  _params (base s) = None ->
  is_ok (inverse s args None keys) = false
  /\ (List.length args = List.length (effective_keys s keys) ->
      is_ok (_arguments_preproc args (effective_keys s keys)) = true ->
      inverse s args None keys = Err MissingParameters
      /\ py_class MissingParameters = ValueError).
Proof.
  intros Hnone. unfold inverse. fold (effective_keys s keys).
  rewrite map_DataKey_get, Hnone.
  destruct (List.length args =? List.length (effective_keys s keys))%nat
    eqn:Hlen; cbn [negb].
  - destruct (_arguments_preproc args (effective_keys s keys)) as [inp | e];
      cbn [rbind is_ok]; split; auto.
    intros _ Hok. discriminate Hok.
  - split; [reflexivity |].
    intros Heq. apply Nat.eqb_neq in Hlen. contradiction.
Qed.

(** C9, amended. The constructor rejects a list of data keys whose first
    element is not INPUT (with the [NotImplementedError] of line 162 when
    the base constructor succeeded and the list is not empty).  [forward]
    does not test the position of INPUT in the keys it is given: without a
    ledger, a list of keys that passes the arity check and the
    preprocessing is refused, for want of an input, only when INPUT occurs
    nowhere in it. *)
Theorem first_key_is_checked_by_constructor
        (args : list Module) (ks : list DataKey) (opts : InitOptions) :
  hd_error ks <> Some INPUT ->
  is_ok (__init__ args (Some ks) opts) = false
  /\ (forall b, super_init args opts = Ok b -> ks <> [] ->
                __init__ args (Some ks) opts = Err FirstKeyNotInput)
  /\ (forall w vals label,
         List.length vals = List.length ks ->
         is_ok (_arguments_preproc vals ks) = true ->
         key_in INPUT ks = false ->
         snd (forward vals label None (Some ks) w) = Err MissingInput).
Proof.
  intros Hhd. unfold __init__. rewrite map_DataKey_get.
  assert (Hall : forallb in_DataKey ks = true).
  { apply forallb_forall. intros. apply in_DataKey_total. }
  rewrite Hall. cbn [negb].
  repeat split.
  - destruct (super_init args opts) as [b | e]; cbn [rbind]; [| reflexivity].
    destruct ks as [| k r]; [reflexivity |].
    unfold getitem. cbn [nth_error rbind].
    destruct (DataKey_eqb_spec k INPUT) as [-> | Hk]; [| reflexivity].
    now elim Hhd.
  - intros b Hb Hne. rewrite Hb. cbn [rbind].
    destruct ks as [| k r]; [now elim Hne |].
    unfold getitem. cbn [nth_error rbind].
    destruct (DataKey_eqb_spec k INPUT) as [-> | Hk]; [| reflexivity].
    now elim Hhd.
  - intros w vals label Hlen Hok Hin.
    unfold forward, bind, lift, ret, set_data_keys, _validate_args_datakeys.
    rewrite map_DataKey_get, Hlen, Nat.eqb_refl. cbn [negb].
    destruct (_arguments_preproc vals ks) as [inp | e]; [| discriminate Hok].
    unfold resolve_params. rewrite Hin. reflexivity.
Qed.

(** *** Which computations assign [self.data_keys] *)

Lemma keeps_ret A (a : A) : keeps_keys (ret a).
Proof. intros w. reflexivity. Qed.

Lemma keeps_raise (A : Type) (e : Exn) : keeps_keys (raise (A := A) e).
Proof. intros w. reflexivity. Qed.

Lemma keeps_lift A (r : result A) : keeps_keys (lift r).
Proof. intros w. reflexivity. Qed.

Lemma keeps_get_self : keeps_keys get_self.
Proof. intros w. reflexivity. Qed.

Lemma keeps_set_return_label v : keeps_keys (set_return_label v).
Proof. intros w. reflexivity. Qed.

Lemma keeps_call_super_forward _inp label params :
  keeps_keys (call_super_forward _inp label params).
Proof.
  intros w. unfold call_super_forward.
  now destruct (super_forward (base (self w)) _inp label params).
Qed.

Lemma keeps_sample out_shape : keeps_keys (sample out_shape).
Proof.
  intros w. unfold sample.
  now destruct (forward_parameters (base (self w)) out_shape (rng w)).
Qed.

Lemma keeps_bind A B (m : M A) (k : A -> M B) :
  keeps_keys m -> (forall a, keeps_keys (k a)) -> keeps_keys (bind m k).
Proof.
  intros Hm Hk w. unfold bind. specialize (Hm w).
  destruct (m w) as [w' [a | e]]; cbn [fst] in *.
  - now rewrite Hk.
  - assumption.
Qed.

Create HintDb keys.
#[local] Hint Resolve keeps_ret keeps_raise keeps_lift keeps_get_self
  keeps_set_return_label keeps_call_super_forward keeps_sample : keys.

(** Walk down a computation written with [bind], splitting every
    conditional met on the way. *)
Ltac keeps_keys_tac :=
  repeat first
    [ apply keeps_bind; [| intros ? ]
    | progress auto with keys
    | match goal with
      | |- keeps_keys (match ?x with _ => _ end) => destruct x
      end ].

Lemma resolve_params_keeps_keys args ks params :
  keeps_keys (resolve_params args ks params).
Proof. unfold resolve_params. keeps_keys_tac. Qed.

Lemma forward_input_keeps_keys args ks params outputs label :
  keeps_keys (forward_input args ks params outputs label).
Proof. unfold forward_input. keeps_keys_tac. Qed.

#[local] Hint Resolve resolve_params_keeps_keys forward_input_keeps_keys : keys.

Lemma forward_keeps_keys args label params :
  keeps_keys (forward args label params None).
Proof. unfold forward. keeps_keys_tac. Qed.

(** Passing keys is assigning them and then calling without. *)
Lemma forward_explicit_keys args label params ks w :
  forward args label params (Some ks) w
  = forward args label params None (fst (set_data_keys ks w)).
Proof.
  unfold forward. rewrite map_DataKey_get.
  unfold bind at 1 2. unfold bind at 7 8.
  reflexivity.
Qed.

Lemma set_data_keys_same w :
  fst (set_data_keys (data_keys (self w)) w) = w.
Proof. destruct w as [[b ks v] g]. reflexivity. Qed.

(** C10. A [forward] call that passes [data_keys] leaves them in
    [self.data_keys], whatever else the call does and whether or not it
    raises.  After any number of later [forward] calls without [data_keys]
    they are still there, and a [forward] or an [inverse] call without
    [data_keys] behaves as the same call with those keys. *)
Theorem forward_data_keys_persist
        (w w' : World) (args : list Value) (label : Value)
        (params : option Ledger) (ks : list DataKey) :
  calls_without_keys (fst (forward args label params (Some ks) w)) w' ->
  data_keys (self w') = ks
  /\ (forall args' label' params',
         forward args' label' params' None w'
         = forward args' label' params' (Some ks) w')
  /\ (forall args' params',
         inverse (self w') args' params' None
         = inverse (self w') args' params' (Some ks)).
Proof.
  intros Hcalls.
  assert (Hks : data_keys (self w') = ks).
  { remember (fst (forward args label params (Some ks) w)) as w0 eqn:Hw0.
    induction Hcalls as [w1 | w1 w2 args' label' params' _ IH].
    - subst w1. rewrite forward_explicit_keys, forward_keeps_keys.
      reflexivity.
    - rewrite forward_keeps_keys. now apply IH. }
  repeat split.
  - exact Hks.
  - intros. rewrite forward_explicit_keys, <- Hks, set_data_keys_same.
    reflexivity.
  - intros. unfold inverse. now rewrite Hks.
Qed.

(** *** Which computations touch the random generator *)

Lemma blind_ret A (a : A) : rng_blind (ret a).
Proof. intros s g1 g2. repeat split. Qed.

Lemma blind_raise (A : Type) (e : Exn) : rng_blind (raise (A := A) e).
Proof. intros s g1 g2. repeat split. Qed.

Lemma blind_lift A (r : result A) : rng_blind (lift r).
Proof. intros s g1 g2. repeat split. Qed.

Lemma blind_get_self : rng_blind get_self.
Proof. intros s g1 g2. repeat split. Qed.

Lemma blind_set_data_keys ks : rng_blind (set_data_keys ks).
Proof. intros s g1 g2. repeat split. Qed.

Lemma blind_set_return_label v : rng_blind (set_return_label v).
Proof. intros s g1 g2. repeat split. Qed.

Lemma blind_call_super_forward _inp label params :
  rng_blind (call_super_forward _inp label params).
Proof.
  intros s g1 g2. unfold call_super_forward. cbn [self rng].
  destruct (super_forward (base s) _inp label params). repeat split.
Qed.

Lemma blind_bind A B (m : M A) (k : A -> M B) :
  rng_blind m -> (forall a, rng_blind (k a)) -> rng_blind (bind m k).
Proof.
  intros Hm Hk s g1 g2. unfold bind.
  destruct (Hm s g1 g2) as (Hr & Hs & Hg1).
  destruct (Hm s g2 g1) as (_ & _ & Hg2).
  destruct (m {| self := s; rng := g1 |}) as [[s1 h1] r1].
  destruct (m {| self := s; rng := g2 |}) as [[s2 h2] r2].
  cbn [fst snd self rng] in *. subst.
  destruct r2 as [a | e]; [apply Hk | repeat split].
Qed.

Create HintDb blind.
#[local] Hint Resolve blind_ret blind_raise blind_lift blind_get_self
  blind_set_data_keys blind_set_return_label blind_call_super_forward : blind.

Ltac rng_blind_tac :=
  repeat first
    [ apply blind_bind; [| intros ? ]
    | progress auto with blind
    | match goal with
      | |- rng_blind (match ?x with _ => _ end) => destruct x
      end ].

(** With a ledger in hand, [forward] is blind to the generator: the only
    drawing call, [sample], sits in the branch taken without one. *)
Lemma forward_replay_blind args label ledger keys :
  rng_blind (forward args label (Some ledger) keys).
Proof.
  unfold forward, resolve_params, forward_input. rng_blind_tac.
Qed.

(** Two objects in the same state: [forward] with the same explicit
    ledger, inputs, label and data keys returns the same value on both and
    leaves them in the same state, whatever the states of the random
    generator, which neither call advances. *)
Lemma forward_replay_is_deterministic
        (w1 w2 : World) (args : list Value) (label : Value)
        (ledger : Ledger) (keys : option (list DataKey)) :
  self w1 = self w2 ->
  snd (forward args label (Some ledger) keys w1)
  = snd (forward args label (Some ledger) keys w2)
  /\ self (fst (forward args label (Some ledger) keys w1))
     = self (fst (forward args label (Some ledger) keys w2))
  /\ rng (fst (forward args label (Some ledger) keys w1)) = rng w1
  /\ rng (fst (forward args label (Some ledger) keys w2)) = rng w2.
Proof.
  destruct w1 as [s1 g1], w2 as [s2 g2]. cbn [self rng]. intros <-.
  destruct (forward_replay_blind args label ledger keys s1 g1 g2)
    as (Hr & Hs & Hg1).
  destruct (forward_replay_blind args label ledger keys s1 g2 g1)
    as (_ & _ & Hg2).
  auto.
Qed.

(** *** Undoing a geometric pipeline on the pixel tensor *)

Lemma zip_longest_snoc A B (xs : list A) (ys : list B) (a : A) (b : B) :
  List.length xs = List.length ys ->
  zip_longest (xs ++ [a]) (ys ++ [b])
  = zip_longest xs ys ++ [(Some a, Some b)].
Proof.
  revert ys. induction xs as [| x xs IH]; intros [| y ys] Hlen;
    try discriminate Hlen; simpl.
  - reflexivity.
  - f_equal. apply IH. now injection Hlen.
Qed.

Lemma inverse_dispatch_snoc params dcate items item input :
  inverse_dispatch params dcate (items ++ [item]) input
  = rbind (inverse_dispatch params dcate items input)
          (inverse_step params dcate item).
Proof.
  revert input. induction items as [| it items IH]; intros input; simpl.
  - now destruct (inverse_step params dcate item input).
  - destruct (inverse_step params dcate it input); simpl; auto.
Qed.

Lemma children_by_params_length b ledger seq :
  children_by_params b ledger = Ok seq ->
  List.length seq = List.length ledger.
Proof.
  revert seq. induction ledger as [| p r IH]; intros seq; simpl.
  - now intros [= <-].
  - destruct (get_submodule b (name p)); [| discriminate].
    cbn [rbind].
    destruct (children_by_params b r) as [seq_r |]; [| discriminate].
    cbn [rbind]. intros [= <-]. simpl. now rewrite (IH seq_r).
Qed.

Lemma purely_geometric_branch module :
  purely_geometric module = true ->
  inverse_classify module INPUT = ApplyByKey.
Proof.
  unfold purely_geometric. intros H.
  repeat (apply andb_true_iff in H; destruct H as [H ?]).
  unfold inverse_classify, isinstance_any. cbn [existsb key_in in_DataKey].
  repeat match goal with
         | Hn : negb _ = true |- _ => apply negb_true_iff in Hn; rewrite ?Hn
         end.
  cbn [DataKey_eqb negb orb andb]. rewrite !andb_false_r.
  match goal with
  | Hg : (_ || _)%bool = true |- _ =>
      apply orb_true_iff in Hg; destruct Hg as [Hg | Hg]; rewrite Hg
  end; cbn [orb andb]; rewrite ?orb_true_r; reflexivity.
Qed.

Lemma inverse_dispatch_undoes_forward b params0 ledger :
  forall seq x label y label',
    children_by_params b ledger = Ok seq ->
    forallb (fun nm => purely_geometric (snd nm)) seq = true ->
    (forall nm param u l v l',
        In nm seq ->
        apply_to_input b u l (snd nm) param = Ok (v, l') ->
        inverse_by_key v (snd nm) (kept_param (snd nm) param) INPUT = Ok u) ->
    forward_dispatch b INPUT ledger x label = Ok (y, label') ->
    inverse_dispatch params0 INPUT (zip_longest (rev seq) (rev ledger)) y
    = Ok x.
Proof.
  induction ledger as [| p r IH]; intros seq x label y label' Hseq Hgeo Hinv Hfwd.
  - simpl in Hseq, Hfwd. injection Hseq as <-. injection Hfwd as <- <-.
    reflexivity.
  - simpl in Hseq, Hfwd.
    destruct (get_submodule b (name p)) as [m |] eqn:Hm; [| discriminate].
    cbn [rbind] in Hseq.
    destruct (children_by_params b r) as [seq_r |] eqn:Hr; [| discriminate].
    cbn [rbind] in Hseq. injection Hseq as <-.
    unfold forward_step in Hfwd. rewrite Hm in Hfwd. cbn [rbind] in Hfwd.
    unfold forward_exec in Hfwd. cbn [forward_classify DataKey_eqb] in Hfwd.
    destruct (apply_to_input b x label m p) as [[x1 l1] |] eqn:Happ;
      [| discriminate].
    cbn [rbind] in Hfwd.
    cbn [forallb snd] in Hgeo. apply andb_true_iff in Hgeo.
    destruct Hgeo as [Hgm Hgr].
    cbn [rev]. rewrite zip_longest_snoc, inverse_dispatch_snoc.
    + rewrite (IH seq_r x1 l1 y label' eq_refl Hgr); [| | exact Hfwd].
      * cbn [rbind]. rewrite inverse_step_exec. unfold inverse_exec.
        rewrite (purely_geometric_branch _ Hgm).
        apply (Hinv (name p, m) p x label x1 l1); [now left | exact Happ].
      * intros nm param u l v l' Hin. apply Hinv. now right.
    + rewrite !length_rev. eapply children_by_params_length. exact Hr.
Qed.

(** The inverse dispatcher alone: if applying the ledger in pipeline order
    to the pixel tensor [x] gives [y], every module of the ledger is purely
    geometric, and [inverse_by_key] on the pixel key undoes [apply_to_input]
    for each of them, then [inverse] called on [y] with the same ledger
    returns [x]. *)
Lemma geometric_pipeline_round_trip
        (s : Self) (ledger : Ledger) (seq : list (string * Module))
        (x label y label' : Value) :
  children_by_params (base s) ledger = Ok seq ->
  get_forward_sequence (base s) ledger = Ok seq ->
  forallb (fun nm => purely_geometric (snd nm)) seq = true ->
  (forall nm param u l v l',
      In nm seq ->
      apply_to_input (base s) u l (snd nm) param = Ok (v, l') ->
      inverse_by_key v (snd nm) (kept_param (snd nm) param) INPUT = Ok u) ->
  forward_dispatch (base s) INPUT ledger x label = Ok (y, label') ->
  is_tuple_or_list y = false ->
  is_Boxes y = false ->
  inverse s [y] (Some ledger) (Some [INPUT]) = Ok x.
Proof.
  intros Hseq Hget Hgeo Hinv Hfwd Htl Hbox.
  unfold inverse. cbn [map List.length Nat.eqb negb _arguments_preproc].
  unfold preproc_one. cbn [DataKey_get key_in existsb DataKey_eqb orb rbind].
  cbn [combine repeat inverse_each]. unfold inverse_payload.
  rewrite Htl. cbn [DataKey_eqb andb rbind]. rewrite Hget. cbn [rbind].
  assert (Hpay : payload y = y) by (destruct y; try reflexivity; discriminate).
  rewrite Hpay.
  rewrite (@inverse_dispatch_undoes_forward (base s) ledger ledger seq x label
             y label' Hseq Hgeo Hinv Hfwd).
  cbn [rbind]. unfold repack.
  destruct y; try discriminate Hbox; reflexivity.
Qed.

End Properties.

(** * More of the container's behaviour *)

Section Coverage.

Context {carrier : Carrier} {ext : Collaborators}.

(** *** Ledgers in sequence *)

Lemma forward_dispatch_split b dcate l1 l2 input label :
  forward_dispatch b dcate (l1 ++ l2) input label
  = rbind (forward_dispatch b dcate l1 input label)
          (fun r => forward_dispatch b dcate l2 (fst r) (snd r)).
Proof.
  revert input label. induction l1 as [| p l1 IH]; intros input label; simpl.
  - reflexivity.
  - destruct (forward_step b dcate p input label) as [[i l] | e]; simpl.
    + apply IH.
    + reflexivity.
Qed.

(** X1. Dispatching the concatenation of two ledgers on a modality is
    dispatching the first and then the second on what the first returned
    (input and label); if the first raises, the whole raises that exception
    and the second is not run. *)
Theorem forward_dispatch_app
        (b : Base) (dcate : DataKey) (l1 l2 : Ledger) (input label : Value) :
  forward_dispatch b dcate (l1 ++ l2) input label
  = rbind (forward_dispatch b dcate l1 input label)
          (fun r => forward_dispatch b dcate l2 (fst r) (snd r)).
Proof. apply forward_dispatch_split. Qed.

Lemma inverse_dispatch_split params dcate items1 items2 input :
  inverse_dispatch params dcate (items1 ++ items2) input
  = rbind (inverse_dispatch params dcate items1 input)
          (inverse_dispatch params dcate items2).
Proof.
  revert input. induction items1 as [| it items1 IH]; intros input; simpl.
  - now destruct (inverse_dispatch params dcate items2 input).
  - destruct (inverse_step params dcate it input); simpl; auto.
Qed.

Lemma zip_longest_app A B (xs1 xs2 : list A) (ys1 ys2 : list B) :
  List.length xs1 = List.length ys1 ->
  zip_longest (xs1 ++ xs2) (ys1 ++ ys2)
  = zip_longest xs1 ys1 ++ zip_longest xs2 ys2.
Proof.
  revert ys1. induction xs1 as [| x xs1 IH]; intros [| y ys1] Hlen;
    try discriminate Hlen; simpl.
  - reflexivity.
  - f_equal. apply IH. now injection Hlen.
Qed.

(** X2. The inverse dispatcher runs a ledger back to front: for a ledger
    [l1 ++ l2] whose forward sequence is [s1 ++ s2], with as many modules
    in [s1] as records in [l1], it undoes [l2] first and then [l1] on the
    result; if the part for [l2] raises, [l1] is not reached. *)
Theorem inverse_dispatch_runs_backwards
        (params : Ledger) (dcate : DataKey)
        (s1 s2 : list (string * Module)) (l1 l2 : Ledger) (input : Value) :
  List.length s1 = List.length l1 ->
  List.length s2 = List.length l2 ->
  inverse_dispatch params dcate
    (zip_longest (rev (s1 ++ s2)) (rev (l1 ++ l2))) input
  = rbind (inverse_dispatch params dcate
             (zip_longest (rev s2) (rev l2)) input)
          (inverse_dispatch params dcate (zip_longest (rev s1) (rev l1))).
Proof.
  intros H1 H2. rewrite !rev_app_distr.
  rewrite zip_longest_app by now rewrite !length_rev.
  apply inverse_dispatch_split.
Qed.


(** *** Pipelines of intensity transforms *)

Lemma intensity_short_circuit_any_key module d d' :
  intensity_short_circuit module d = intensity_short_circuit module d'.
Proof.
  unfold intensity_short_circuit. now rewrite !in_DataKey_total.
Qed.

Lemma forward_exec_skipped b dcate module param input label :
  dcate <> INPUT ->
  intensity_short_circuit module dcate = true ->
  forward_exec b dcate module param input label = Ok (input, label).
Proof.
  intros Hkey Hsc. unfold forward_exec.
  destruct (short_circuit_branch _ _ Hsc) as [Hb | Hb];
    now rewrite (@forward_classify_shared module dcate _ Hkey Hb).
Qed.

Lemma inverse_exec_skipped dcate module param input :
  intensity_short_circuit module dcate = true ->
  inverse_exec dcate module param input = Ok input.
Proof.
  intros Hsc. unfold inverse_exec.
  destruct (short_circuit_branch _ _ Hsc) as [Hb | Hb]; now rewrite Hb.
Qed.

Lemma forward_dispatch_skipped b dcate ledger input label :
  dcate <> INPUT ->
  forallb (skipped_record b dcate) ledger = true ->
  forward_dispatch b dcate ledger input label = Ok (input, label).
Proof.
  intros Hkey. induction ledger as [| p r IH]; intros Hall; simpl.
  - reflexivity.
  - cbn [forallb] in Hall. apply andb_true_iff in Hall.
    destruct Hall as [Hp Hr]. unfold skipped_record in Hp.
    unfold forward_step.
    destruct (get_submodule b (name p)) as [module |]; [| discriminate].
    cbn [rbind]. rewrite (forward_exec_skipped b module p input label Hkey Hp).
    cbn [rbind]. now apply IH.
Qed.

Lemma zip_longest_left A B (xs : list A) (ys : list B) :
  (List.length ys <= List.length xs)%nat ->
  Forall (fun it => exists x, fst it = Some x /\ In x xs) (zip_longest xs ys).
Proof.
  revert ys. induction xs as [| x xs IH]; intros [| y ys] Hlen; simpl in *.
  - constructor.
  - lia.
  - constructor.
    + exists x. split; [reflexivity | now left].
    + apply Forall_forall. intros it Hin. apply in_map_iff in Hin.
      destruct Hin as (x' & <- & Hx'). exists x'. split; [reflexivity | now right].
  - constructor.
    + exists x. split; [reflexivity | now left].
    + assert (Hle : (List.length ys <= List.length xs)%nat) by lia.
      specialize (IH ys Hle). apply Forall_forall. intros it Hin.
      rewrite Forall_forall in IH. destruct (IH it Hin) as (x' & Hf & Hx').
      exists x'. split; [exact Hf | now right].
Qed.

Lemma inverse_dispatch_skipped params dcate items input :
  Forall (fun it => exists nm, fst it = Some nm
                    /\ intensity_short_circuit (snd nm) dcate = true) items ->
  inverse_dispatch params dcate items input = Ok input.
Proof.
  induction 1 as [| [o param] items (nm & Hfst & Hsc) _ IH]; simpl.
  - reflexivity.
  - cbn [fst] in Hfst. subst o. destruct nm as [n module].
    rewrite inverse_step_exec. cbn [snd] in Hsc.
    rewrite inverse_exec_skipped by exact Hsc.
    cbn [rbind]. exact IH.
Qed.

Lemma inverse_ledger_skipped params dcate seq (ledger : Ledger) input :
  (List.length ledger <= List.length seq)%nat ->
  forallb (fun nm => intensity_short_circuit (snd nm) dcate) seq = true ->
  inverse_dispatch params dcate (zip_longest (rev seq) (rev ledger)) input
  = Ok input.
Proof.
  intros Hlen Hall. apply inverse_dispatch_skipped.
  assert (Hl : (List.length (rev ledger) <= List.length (rev seq))%nat)
    by now rewrite !length_rev.
  pose proof (zip_longest_left (rev seq) (rev ledger) Hl) as Hz.
  rewrite Forall_forall in *. intros it Hin.
  destruct (Hz it Hin) as (nm & Hf & Hnm). exists nm. split; [exact Hf |].
  rewrite forallb_forall in Hall. apply Hall. now apply in_rev.
Qed.

(** X3. A ledger all of whose records name intensity transforms (other
    than erasing) or intensity-only containers is the identity on every
    modality other than the pixel tensor: the forward dispatch returns the
    input and the label it was given, and the inverse dispatch, given a
    forward sequence of such modules at least as long as the ledger,
    returns its input. *)
Theorem intensity_only_ledger_is_identity
        (b : Base) (params : Ledger) (dcate : DataKey) (ledger : Ledger)
        (seq : list (string * Module)) (input label : Value) :
  dcate <> INPUT ->
  forallb (skipped_record b dcate) ledger = true ->
  (List.length ledger <= List.length seq)%nat ->
  forallb (fun nm => intensity_short_circuit (snd nm) dcate) seq = true ->
  forward_dispatch b dcate ledger input label = Ok (input, label)
  /\ inverse_dispatch params dcate (zip_longest (rev seq) (rev ledger)) input
     = Ok input.
Proof.
  intros Hkey Hfwd Hlen Hinv. split.
  - now apply forward_dispatch_skipped.
  - now apply inverse_ledger_skipped.
Qed.


(** *** [_arguments_preproc] *)

Lemma preproc_one_plain arg dcate :
  plain_key dcate = true -> preproc_one arg dcate = Ok arg.
Proof.
  unfold plain_key, preproc_one, DataKey_get. now intros ->.
Qed.

Lemma arguments_preproc_plain args keys :
  forallb plain_key keys = true ->
  _arguments_preproc args keys = Ok (firstn (List.length keys) args).
Proof.
  revert keys. induction args as [| arg args IH]; intros [| d keys] Hall;
    try reflexivity.
  cbn [forallb] in Hall. apply andb_true_iff in Hall. destruct Hall as [Hd Hk].
  cbn [_arguments_preproc]. rewrite preproc_one_plain by exact Hd.
  cbn [rbind]. rewrite (IH keys Hk). reflexivity.
Qed.

(** X4. When every data key is INPUT, MASK or KEYPOINTS,
    [_arguments_preproc] raises nothing and hands back the arguments as
    they are, one per key (the arguments beyond the last key are dropped,
    as [zip] does). *)
Theorem arguments_preproc_passes_plain_keys
        (args : list Value) (keys : list DataKey) :
  forallb plain_key keys = true ->
  _arguments_preproc args keys = Ok (firstn (List.length keys) args)
  /\ (List.length args = List.length keys ->
      _arguments_preproc args keys = Ok args).
Proof.
  intros Hall. split.
  - now apply arguments_preproc_plain.
  - intros Hlen. rewrite arguments_preproc_plain by exact Hall.
    rewrite <- Hlen. now rewrite firstn_all.
Qed.

(** X5. For data keys that are members of [DataKey], the two [raise]
    statements of [_arguments_preproc] (lines 283 and 286) are never
    reached: if it raises, the exception is one that [Boxes.from_tensor]
    raised on an argument tagged with a box key, called with the mode of
    that key ("vertices_plus" for BBOX, "xyxy" for BBOX_XYXY, "xywh" for
    BBOX_XYWH). *)
Theorem arguments_preproc_raises_only_from_boxes
        (args : list Value) (keys : list DataKey) (e : Exn) :
  _arguments_preproc args keys = Err e ->
  exists arg dcate mode,
    In (arg, dcate) (combine args keys)
    /\ ((dcate = BBOX /\ mode = vertices_plus)
        \/ (dcate = BBOX_XYXY /\ mode = xyxy)
        \/ (dcate = BBOX_XYWH /\ mode = xywh))
    /\ Boxes_from_tensor arg mode = Err e.
Proof.
  revert keys. induction args as [| arg args IH]; intros [| d keys] H;
    try discriminate H.
  cbn [_arguments_preproc] in H.
  destruct (preproc_one arg d) as [x | e1] eqn:Hone; cbn [rbind] in H.
  - destruct (_arguments_preproc args keys) as [inp | e2] eqn:Hrest;
      cbn [rbind] in H; [discriminate H |].
    injection H as ->. destruct (IH keys Hrest) as (a & k & m & Hin & Hm & Hb).
    exists a, k, m. repeat split; auto. now right.
  - injection H as ->. unfold preproc_one, DataKey_get in Hone.
    destruct d; cbn in Hone; try discriminate Hone.
    + exists arg, BBOX, vertices_plus.
      destruct (Boxes_from_tensor arg vertices_plus) as [[dt mt] | e1];
        cbn in Hone; [discriminate Hone | injection Hone as ->].
      repeat split; auto. now left.
    + exists arg, BBOX_XYXY, xyxy.
      destruct (Boxes_from_tensor arg xyxy) as [[dt mt] | e1];
        cbn in Hone; [discriminate Hone | injection Hone as ->].
      repeat split; auto. now left.
    + exists arg, BBOX_XYWH, xywh.
      destruct (Boxes_from_tensor arg xywh) as [[dt mt] | e1];
        cbn in Hone; [discriminate Hone | injection Hone as ->].
      repeat split; auto. now left.
Qed.

(** *** What [inverse] returns *)

Lemma set_nth_length A (i : nat) (x : A) (l : list A) :
  List.length (set_nth i x l) = List.length l.
Proof.
  revert i. induction l as [| y r IH]; intros [| j]; simpl; auto.
Qed.

Lemma set_nth_middle A (done rest : list A) (x y : A) :
  set_nth (List.length done) x (done ++ y :: rest) = done ++ x :: rest.
Proof. induction done as [| d done IH]; simpl; [| rewrite IH]; reflexivity. Qed.

Lemma inverse_each_length b params idx items outputs outputs' :
  inverse_each b params idx items outputs = Ok outputs' ->
  List.length outputs' = List.length outputs.
Proof.
  revert idx outputs. induction items as [| [arg dcate] items IH];
    intros idx outputs H; simpl in H.
  - now injection H as <-.
  - destruct (inverse_payload arg dcate); [| discriminate H]. cbn [rbind] in H.
    destruct (get_forward_sequence b params); [| discriminate H].
    cbn [rbind] in H.
    destruct (inverse_dispatch params dcate _ _); [| discriminate H].
    cbn [rbind] in H.
    destruct (repack arg _); [| discriminate H]. cbn [rbind] in H.
    rewrite (IH _ _ H). apply set_nth_length.
Qed.

(** X6. When [inverse] returns, it returns one output per data key: the
    output itself when there is exactly one key, and otherwise the list of
    outputs, as long as the list of keys (so an empty list for no key). *)
Theorem inverse_returns_one_output_per_key
        (s : Self) (args : list Value) (params : option Ledger)
        (keys : option (list DataKey)) (v : Value) :
  inverse s args params keys = Ok v ->
  exists outputs,
    List.length outputs = List.length (effective_keys s keys)
    /\ v = single_or_list outputs.
Proof.
  unfold inverse. fold (effective_keys s keys). intros H.
  destruct (negb (List.length args =? List.length (effective_keys s keys))%nat);
    [discriminate H |].
  destruct (_arguments_preproc args _) as [inp |]; [| discriminate H].
  cbn [rbind] in H.
  destruct (match params with
            | Some p => Ok p
            | None => match _params (base s) with
                      | Some p => Ok p
                      | None => Err MissingParameters
                      end
            end) as [p |]; [| discriminate H].
  cbn [rbind] in H.
  destruct (inverse_each (base s) p 0 (combine inp (effective_keys s keys))
              (repeat VNone (List.length (effective_keys s keys))))
    as [outputs |] eqn:Heach; [| discriminate H].
  cbn [rbind] in H. exists outputs. split.
  - apply inverse_each_length in Heach. rewrite Heach. apply repeat_length.
  - unfold single_or_list. destruct outputs as [| o [| o' r]];
      now injection H as <-.
Qed.


Lemma inverse_each_skipped b ledger seq :
  get_forward_sequence b ledger = Ok seq ->
  (List.length ledger <= List.length seq)%nat ->
  forallb (fun nm => intensity_short_circuit (snd nm) INPUT) seq = true ->
  forall items done,
    forallb (fun it => is_tensor (fst it)) items = true ->
    inverse_each b ledger (List.length done) items
      (done ++ repeat VNone (List.length items))
    = Ok (done ++ map fst items).
Proof.
  intros Hseq Hlen Hall.
  induction items as [| [arg dcate] items IH]; intros done Hten.
  - reflexivity.
  - cbn [forallb fst] in Hten. apply andb_true_iff in Hten.
    destruct Hten as [Harg Hitems].
    destruct arg as [| t | | |]; try discriminate Harg.
    cbn [inverse_each List.length repeat map fst].
    unfold inverse_payload. cbn [is_tuple_or_list payload].
    rewrite andb_false_r. cbn [rbind]. rewrite Hseq. cbn [rbind].
    rewrite inverse_ledger_skipped; [| exact Hlen |].
    + cbn [rbind repack]. rewrite set_nth_middle.
      specialize (IH (done ++ [VTensor t]) Hitems).
      rewrite length_app in IH. cbn [List.length] in IH.
      rewrite Nat.add_1_r, <- !app_assoc in IH. exact IH.
    + apply forallb_forall. intros nm Hin.
      rewrite forallb_forall in Hall.
      rewrite (intensity_short_circuit_any_key (snd nm) dcate INPUT).
      now apply Hall.
Qed.

(** X7. [inverse] does not undo intensity transforms.  For a ledger whose
    forward sequence holds only intensity transforms (other than erasing)
    and intensity-only containers, called on tensors tagged INPUT, MASK or
    KEYPOINTS, it returns the tensors it was given, the pixel tensor
    included: the single tensor for one key, the list of them otherwise. *)
Theorem inverse_skips_intensity_pipeline
        (s : Self) (args : list Value) (ledger : Ledger)
        (keys : option (list DataKey)) (seq : list (string * Module)) :
  List.length args = List.length (effective_keys s keys) ->
  forallb plain_key (effective_keys s keys) = true ->
  forallb is_tensor args = true ->
  get_forward_sequence (base s) ledger = Ok seq ->
  (List.length ledger <= List.length seq)%nat ->
  forallb (fun nm => intensity_short_circuit (snd nm) INPUT) seq = true ->
  inverse s args (Some ledger) keys = Ok (single_or_list args).
Proof.
  intros Hlen Hplain Hten Hseq Hle Hall.
  unfold inverse. fold (effective_keys s keys).
  rewrite map_DataKey_get, Hlen, Nat.eqb_refl. cbn [negb].
  rewrite arguments_preproc_plain by exact Hplain.
  rewrite <- Hlen, firstn_all. cbn [rbind].
  assert (Hitems : forallb (fun it : Value * DataKey => is_tensor (fst it))
                     (combine args (effective_keys s keys)) = true).
  { apply forallb_forall. intros [a d] Hin. apply in_combine_l in Hin.
    rewrite forallb_forall in Hten. now apply Hten. }
  pose proof (inverse_each_skipped (base s) ledger Hseq Hle Hall
                (combine args (effective_keys s keys)) [] Hitems) as Heach.
  cbn [List.length app] in Heach.
  rewrite length_combine, <- Hlen, Nat.min_id in Heach.
  rewrite Heach. cbn [rbind].
  assert (Hmap : map fst (combine args (effective_keys s keys)) = args).
  { clear - Hlen. revert Hlen. generalize (effective_keys s keys) as ks.
    induction args as [| a args IH]; intros [| k ks] Hlen;
      try discriminate Hlen; simpl; [reflexivity |].
    f_equal. apply IH. now injection Hlen. }
  rewrite Hmap. unfold single_or_list.
  destruct args as [| o [| o' r]]; reflexivity.
Qed.

(** *** Patch containers and empty batches *)

Lemma refused_patch_branch module dcate :
  refused_patch module dcate = true ->
  inverse_classify module dcate = PatchFailure.
Proof.
  unfold refused_patch. intros H.
  apply andb_true_iff in H. destruct H as [H Hsc].
  apply andb_true_iff in H. destruct H as [Hp Hv].
  apply negb_true_iff in Hsc, Hv.
  rewrite (no_short_circuit_branch _ _ Hsc), Hv, Hp. reflexivity.
Qed.

(** X8. One refused patch container fails the whole dispatch.  If any
    record of the ledger names a [PatchSequential] (no video container)
    that the intensity tests do not short-circuit, then for a data key
    other than INPUT the forward dispatch of the ledger raises, wherever
    the record stands, and so does the inverse dispatch of any sequence
    that holds the module, for every data key. *)
Theorem patch_record_fails_the_ledger
        (b : Base) (params : Ledger) (dcate : DataKey) (ledger : Ledger)
        (p : ParamItem) (module : Module) (n : string)
        (iparam : option ParamItem)
        (items : list (option (string * Module) * option ParamItem))
        (input label : Value) :
  refused_patch module dcate = true ->
  (dcate <> INPUT ->
   In p ledger ->
   get_submodule b (name p) = Ok module ->
   is_ok (forward_dispatch b dcate ledger input label) = false)
  /\ (In (Some (n, module), iparam) items ->
      is_ok (inverse_dispatch params dcate items input) = false).
Proof.
  intros Hpatch. pose proof (refused_patch_branch _ _ Hpatch) as Hbr. split.
  - intros Hkey Hin Hsub. revert input label.
    induction ledger as [| q r IH]; intros input label; [contradiction |].
    cbn [forward_dispatch]. destruct Hin as [-> | Hin].
    + rewrite forward_step_exec with (module := module) by exact Hsub.
      unfold forward_exec.
      rewrite (@forward_classify_shared module dcate _ Hkey Hbr). reflexivity.
    + destruct (forward_step b dcate q input label) as [[i l] | e];
        cbn [rbind]; [now apply IH | reflexivity].
  - intros Hin. revert input.
    induction items as [| it r IH]; intros input; [contradiction |].
    cbn [inverse_dispatch]. destruct Hin as [-> | Hin].
    + rewrite inverse_step_exec. unfold inverse_exec. rewrite Hbr. reflexivity.
    + destruct (inverse_step params dcate it input) as [i | e];
        cbn [rbind]; [now apply IH | reflexivity].
Qed.


Lemma infer_scan_raises req dim newsize infer_dim e :
  infer_scan req dim newsize infer_dim = Err e -> e = Interp RuntimeError.
Proof.
  revert dim newsize infer_dim.
  induction req as [| d r IH]; intros dim newsize infer_dim H; simpl in H.
  - discriminate H.
  - destruct (d =? -1).
    + destruct infer_dim; [now injection H as <- | eauto].
    + destruct (0 <=? d); [eauto | now injection H as <-].
Qed.

Lemma infer_scan_from_zero req dim i newsize infer_dim :
  infer_scan req dim 0 (Some i) = Ok (newsize, infer_dim) ->
  newsize = 0 /\ infer_dim = Some i.
Proof.
  revert dim. induction req as [| d r IH]; intros dim H; simpl in H.
  - injection H as <- <-. now split.
  - destruct (d =? -1); [discriminate H |].
    destruct (0 <=? d); [eauto | discriminate H].
Qed.

(** [view(0, -1, ...)] has no answer: the wildcard would be any size. *)
Lemma infer_size_zero_batch sh n :
  infer_size (0 :: -1 :: sh) n = Err (Interp RuntimeError).
Proof.
  unfold infer_size.
  replace (infer_scan (0 :: -1 :: sh) 0 1 None)
    with (infer_scan sh 2 0 (Some 1%nat)) by reflexivity.
  destruct (infer_scan sh 2 0 (Some 1%nat)) as [[newsize infer_dim] | e] eqn:Hs.
  - apply infer_scan_from_zero in Hs. destruct Hs as [-> ->]. cbn [rbind].
    now destruct ((n =? 0) || (0 <? 0) && (n mod 0 =? 0)).
  - apply infer_scan_raises in Hs. now subst e.
Qed.

Lemma unfold_zero_batch (v : Value) (sh : list Z) :
  is_ok (view v (0 :: -1 :: sh)) = false.
Proof.
  destruct v as [| t | | |]; try reflexivity.
  unfold view, tensor_view. now rewrite infer_size_zero_batch.
Qed.

(** X9. The video branch cannot take an empty batch.  For a video
    container that is not short-circuited and a data key that is neither
    INPUT nor MASK, on a tensor whose first size is 0 both dispatchers
    raise, whatever the applier does: the size 0 read first is the batch
    size of the closing [view(batch_size, -1, ...)], which torch refuses
    because the wildcard could be any size. *)
Theorem video_fold_rejects_empty_batch
        (b : Base) (dcate : DataKey) (module : Module) (param : ParamItem)
        (iparam : option ParamItem) (t : Tensor) (label : Value)
        (sh : list Z) :
  isinstance module VideoSequential = true ->
  key_in dcate [INPUT; MASK] = false ->
  intensity_short_circuit module dcate = false ->
  shape t = 0 :: sh ->
  is_ok (forward_exec b dcate module param (VTensor t) label) = false
  /\ is_ok (inverse_exec dcate module iparam (VTensor t)) = false.
Proof.
  intros Hvideo Hkey Hsc Hshape.
  assert (Hne : dcate <> INPUT) by (intros ->; discriminate).
  assert (Hbr : inverse_classify module dcate = VideoFold).
  { rewrite (no_short_circuit_branch _ _ Hsc), Hvideo, Hkey. reflexivity. }
  split.
  - unfold forward_exec.
    rewrite (@forward_classify_shared module dcate _ Hne Hbr).
    unfold size0, tensor_size0. rewrite Hshape. cbn [rbind shape_of].
    destruct (view (VTensor t) (-1 :: skipn 2 (shape t))) as [v1 | e];
      cbn [rbind]; [| reflexivity].
    destruct (apply_by_key v1 label module param dcate) as [[v2 l2] | e];
      cbn [rbind]; [| reflexivity].
    destruct (shape_of v2) as [sh2 | e]; cbn [rbind]; [| reflexivity].
    pose proof (unfold_zero_batch v2 (skipn 1 sh2)) as Hv.
    now destruct (view v2 (0 :: -1 :: skipn 1 sh2)).
  - unfold inverse_exec. rewrite Hbr.
    unfold size0, tensor_size0. rewrite Hshape. cbn [rbind shape_of].
    destruct (view (VTensor t) (-1 :: skipn 2 (shape t))) as [v1 | e];
      cbn [rbind]; [| reflexivity].
    destruct (inverse_by_key v1 module iparam dcate) as [v2 | e];
      cbn [rbind]; [| reflexivity].
    destruct (shape_of v2) as [sh2 | e]; cbn [rbind]; [| reflexivity].
    apply unfold_zero_batch.
Qed.

(** *** The constructor *)

Lemma scan_args_spec args video ws :
  scan_args args video ws
  = (video || existsb (fun m => isinstance m VideoSequential) args,
     ws ++ map (fun _ => GeometricInPatchSequential)
             (filter geometric_patch args)).
Proof.
  revert video ws. induction args as [| m args IH]; intros video ws; simpl.
  - now rewrite orb_false_r, app_nil_r.
  - rewrite IH. unfold geometric_patch at 2.
    destruct (isinstance m PatchSequential && negb (intensity_only m));
      destruct (isinstance m VideoSequential); simpl;
      rewrite <- ?app_assoc, ?orb_true_r; reflexivity.
Qed.

(** X10. What a constructed container holds.  When the constructor
    returns, the base constructor returned the base part; [data_keys] are
    the keys given ([INPUT] alone by default) and start with INPUT;
    [contains_video_sequential] tells whether some argument is a
    [VideoSequential]; and one warning was emitted for each argument that
    is a [PatchSequential] answering false to [is_intensity_only()]. *)
Theorem constructor_postcondition
        (args : list Module) (keys : option (list DataKey))
        (opts : InitOptions) (s : Self) (ws : list Warning) :
  __init__ args keys opts = Ok (s, ws) ->
  super_init args opts = Ok (base s)
  /\ data_keys s = match keys with None => [INPUT] | Some ks => ks end
  /\ (exists r, data_keys s = INPUT :: r)
  /\ contains_video_sequential s
     = existsb (fun m => isinstance m VideoSequential) args
  /\ List.length ws = List.length (filter geometric_patch args).
Proof.
  unfold __init__. rewrite map_DataKey_get, scan_args_spec.
  set (ks := match keys with None => [INPUT] | Some ks => ks end).
  destruct (super_init args opts) as [b |]; [| discriminate].
  cbn [rbind]. destruct (negb (forallb in_DataKey ks)); [discriminate |].
  destruct ks as [| k r] eqn:Hks; [discriminate |].
  unfold getitem. cbn [nth_error rbind].
  destruct (DataKey_eqb_spec k INPUT) as [-> | Hk]; [| discriminate].
  cbn [negb]. intros [= <- <-]. cbn [base data_keys contains_video_sequential].
  repeat split; eauto.
  cbn [app orb]. now rewrite length_map.
Qed.


(** *** [forward], stage by stage *)

Lemma forward_by_stages args label params w :
  forward args label params None w = forward_stages args label params w.
Proof.
  unfold forward, forward_stages, next_return_label.
  unfold bind at 1 2. cbn [get_self ret lift].
  unfold bind at 1. cbn [lift].
  destruct (_validate_args_datakeys args (data_keys (self w))); [| reflexivity].
  unfold bind at 1. cbn [lift].
  destruct (_arguments_preproc args (data_keys (self w))) as [inp |];
    [| reflexivity].
  unfold bind at 1.
  destruct (resolve_params inp (data_keys (self w)) params w) as [w1 [p | e]];
    [| reflexivity].
  unfold bind at 1.
  destruct (forward_input inp (data_keys (self w)) p
              (repeat VNone (List.length (data_keys (self w)))) label w1)
    as [w2 [[outputs label1] | e]]; [| reflexivity].
  unfold bind at 1. cbn [get_self].
  unfold bind at 1. cbn [set_return_label fst].
  unfold bind at 1. cbn [get_self self base].
  unfold bind at 1. cbn [lift].
  destruct (forward_each _ p 0 _ outputs label1) as [[outputs' label2] |];
    reflexivity.
Qed.


Lemma set_data_keys_run ks w :
  self (fst (set_data_keys ks w))
  = {| base := base (self w); data_keys := ks;
       contains_video_sequential := contains_video_sequential (self w) |}
  /\ rng (fst (set_data_keys ks w)) = rng w.
Proof. split; reflexivity. Qed.

(** The world [forward] works in once the keys are settled. *)
Lemma forward_any_keys args label params keys w :
  exists w0,
    forward args label params keys w = forward_stages args label params w0
    /\ base (self w0) = base (self w)
    /\ contains_video_sequential (self w0) = contains_video_sequential (self w)
    /\ data_keys (self w0) = effective_keys (self w) keys
    /\ rng w0 = rng w.
Proof.
  destruct keys as [ks |].
  - exists (fst (set_data_keys ks w)).
    rewrite forward_explicit_keys, forward_by_stages. repeat split.
  - exists w. rewrite forward_by_stages. repeat split.
Qed.

(** X11. The number of inputs is checked before anything else is done.
    When it differs from the number of data keys in force, [forward] raises
    the arity [AssertionError] having drawn nothing and having changed
    nothing of [self] but [data_keys], which holds the keys passed, if any;
    [inverse] raises the same error, with or without a ledger. *)
Theorem arity_mismatch_is_raised_first
        (w : World) (args : list Value) (label : Value)
        (params : option Ledger) (keys : option (list DataKey)) :
  List.length args <> List.length (effective_keys (self w) keys) ->
  snd (forward args label params keys w) = Err ArityMismatch
  /\ rng (fst (forward args label params keys w)) = rng w
  /\ base (self (fst (forward args label params keys w))) = base (self w)
  /\ data_keys (self (fst (forward args label params keys w)))
     = effective_keys (self w) keys
  /\ inverse (self w) args params keys = Err ArityMismatch.
Proof.
  intros Hlen.
  destruct (forward_any_keys args label params keys w)
    as (w0 & -> & Hb & _ & Hk & Hg).
  assert (Hneq : (List.length args =? List.length (data_keys (self w0)))%nat
                 = false) by (rewrite Hk; now apply Nat.eqb_neq).
  unfold forward_stages, _validate_args_datakeys. rewrite Hneq. cbn [negb].
  cbn [fst snd]. repeat split; auto.
  unfold inverse. fold (effective_keys (self w) keys).
  apply Nat.eqb_neq in Hlen. now rewrite Hlen.
Qed.

Lemma key_index_nth ks :
  key_in INPUT ks = true -> nth_error ks (key_index INPUT ks) = Some INPUT.
Proof.
  induction ks as [| k r IH]; simpl; [discriminate |].
  destruct k; simpl; auto.
Qed.

Lemma arguments_preproc_nth_plain args keys inp i d :
  _arguments_preproc args keys = Ok inp ->
  nth_error keys i = Some d ->
  plain_key d = true ->
  nth_error inp i = nth_error args i.
Proof.
  revert keys inp i. induction args as [| arg args IH];
    intros [| k keys] inp i Hpre Hd Hplain.
  - now destruct i.
  - cbn in Hpre. injection Hpre as <-. now destruct i.
  - now destruct i.
  - cbn [_arguments_preproc] in Hpre.
    destruct (preproc_one arg k) as [x |] eqn:Hone; [| discriminate Hpre].
    cbn [rbind] in Hpre.
    destruct (_arguments_preproc args keys) as [rest |] eqn:Hrest;
      [| discriminate Hpre].
    cbn [rbind] in Hpre. injection Hpre as <-.
    destruct i as [| i]; cbn [nth_error] in *.
    + injection Hd as ->. rewrite preproc_one_plain in Hone by exact Hplain.
      now injection Hone as <-.
    + now apply (IH keys rest i).
Qed.

Lemma resolve_params_refused inp ks v w :
  key_in INPUT ks = true ->
  nth_error inp (key_index INPUT ks) = Some v ->
  refused_pixel_input v = true ->
  resolve_params inp ks None w = (w, Err InputNotATensor).
Proof.
  intros Hin Hv Hbad. unfold resolve_params. rewrite Hin.
  unfold bind at 1. unfold lift at 1, getitem at 1. rewrite Hv.
  destruct v as [| t | [| x xs] | xs | d m]; try discriminate Hbad.
  - unfold bind at 1. cbn [lift getitem nth_error].
    cbn [refused_pixel_input] in Hbad. now rewrite Hbad.
  - unfold bind at 1. reflexivity.
Qed.

(** X12. Without a ledger the pixel argument must be a tensor, or a tuple
    that starts with one.  When the checks and the preprocessing pass and
    the argument in the place of the first INPUT key is a list, or a tuple
    whose first element is a tuple or a list, [forward] raises the
    [ValueError] of line 322 before sampling: the generator and the base
    part of [self] are as they were. *)
Theorem forward_refuses_list_as_pixel_input
        (w : World) (args : list Value) (label : Value)
        (keys : option (list DataKey)) (v : Value) :
  List.length args = List.length (effective_keys (self w) keys) ->
  is_ok (_arguments_preproc args (effective_keys (self w) keys)) = true ->
  key_in INPUT (effective_keys (self w) keys) = true ->
  nth_error args (key_index INPUT (effective_keys (self w) keys)) = Some v ->
  refused_pixel_input v = true ->
  snd (forward args label None keys w) = Err InputNotATensor
  /\ rng (fst (forward args label None keys w)) = rng w
  /\ base (self (fst (forward args label None keys w))) = base (self w).
Proof.
  intros Hlen Hpre Hin Hnth Hbad.
  destruct (forward_any_keys args label None keys w)
    as (w0 & -> & Hb & _ & Hk & Hg).
  rewrite <- Hk in *.
  unfold forward_stages, _validate_args_datakeys.
  rewrite Hlen, Nat.eqb_refl. cbn [negb].
  destruct (_arguments_preproc args (data_keys (self w0))) as [inp |] eqn:Hinp;
    [| discriminate Hpre].
  assert (Hv : nth_error inp (key_index INPUT (data_keys (self w0))) = Some v).
  { rewrite <- Hnth.
    apply (arguments_preproc_nth_plain _ _ _ Hinp (key_index_nth _ Hin)).
    reflexivity. }
  rewrite (@resolve_params_refused inp (data_keys (self w0)) v w0 Hin Hv Hbad).
  cbn [fst snd]. auto.
Qed.

Lemma quiet_ret A (a : A) : quiet (ret a).
Proof. intros w. reflexivity. Qed.

Lemma quiet_raise (A : Type) (e : Exn) : quiet (raise (A := A) e).
Proof. intros w. reflexivity. Qed.

Lemma quiet_lift A (r : result A) : quiet (lift r).
Proof. intros w. reflexivity. Qed.

Lemma quiet_get_self : quiet get_self.
Proof. intros w. reflexivity. Qed.

Lemma quiet_bind A B (m : M A) (k : A -> M B) :
  quiet m -> (forall a, quiet (k a)) -> quiet (bind m k).
Proof.
  intros Hm Hk w. unfold bind. specialize (Hm w).
  destruct (m w) as [w' [a | e]]; cbn [fst] in Hm; subst w'.
  - apply Hk.
  - reflexivity.
Qed.

Lemma quiet_draws A (m : M A) : quiet m -> draws_at_most_once m.
Proof. intros Hm w. rewrite (Hm w). split; [| left]; reflexivity. Qed.

Lemma sample_draws out_shape : draws_at_most_once (sample out_shape).
Proof.
  intros w. unfold sample.
  destruct (forward_parameters (base (self w)) out_shape (rng w)) as [p g] eqn:Hd.
  cbn [fst self rng]. split; [reflexivity |]. right.
  exists out_shape. now rewrite Hd.
Qed.

Lemma draws_after_quiet A B (m : M A) (k : A -> M B) :
  quiet m -> (forall a, draws_at_most_once (k a)) ->
  draws_at_most_once (bind m k).
Proof.
  intros Hm Hk w. unfold bind. specialize (Hm w).
  destruct (m w) as [w' [a | e]]; cbn [fst] in Hm; subst w'.
  - apply Hk.
  - split; [| left]; reflexivity.
Qed.

Lemma resolve_params_draws inp ks params :
  draws_at_most_once (resolve_params inp ks params).
Proof.
  unfold resolve_params. destruct params as [p |].
  { apply quiet_draws, quiet_ret. }
  destruct (key_in INPUT ks); [| apply quiet_draws, quiet_raise].
  apply draws_after_quiet; [apply quiet_lift | intros _input].
  apply draws_after_quiet.
  { destruct _input; auto using quiet_ret, quiet_lift. }
  intros x. destruct (is_tuple_or_list x); [apply quiet_draws, quiet_raise |].
  apply draws_after_quiet; [apply quiet_get_self | intros s].
  apply draws_after_quiet; [apply quiet_lift | intros [y out_shape]].
  apply sample_draws.
Qed.

Lemma resolve_params_quiet inp ks params :
  params <> None \/ key_in INPUT ks = false ->
  quiet (resolve_params inp ks params).
Proof.
  unfold resolve_params. intros [Hp | Hk].
  - destruct params; [apply quiet_ret | now elim Hp].
  - destruct params; [apply quiet_ret |]. rewrite Hk. apply quiet_raise.
Qed.

Lemma resolve_params_run inp ks params w :
  self (fst (resolve_params inp ks params w)) = self w
  /\ (rng (fst (resolve_params inp ks params w)) = rng w
      \/ (params = None /\ key_in INPUT ks = true
          /\ exists out_shape,
               rng (fst (resolve_params inp ks params w))
               = snd (forward_parameters (base (self w)) out_shape (rng w)))).
Proof.
  destruct params as [p |].
  { rewrite resolve_params_quiet by (left; discriminate).
    split; [| left]; reflexivity. }
  destruct (key_in INPUT ks) eqn:Hin.
  - destruct (resolve_params_draws inp ks None w) as [Hs [Hq | Hd]].
    + split; [exact Hs | now left].
    + split; [exact Hs | right; auto].
  - rewrite resolve_params_quiet by now right.
    split; [| left]; reflexivity.
Qed.

Lemma forward_input_run inp ks p outputs label w :
  rng (fst (forward_input inp ks p outputs label w)) = rng w
  /\ (key_in INPUT ks = false ->
      forward_input inp ks p outputs label w = (w, Ok (outputs, label)))
  /\ (forall outs l,
         snd (forward_input inp ks p outputs label w) = Ok (outs, l) ->
         List.length outs = List.length outputs).
Proof.
  unfold forward_input. destruct (key_in INPUT ks).
  2: { split; [reflexivity |]. split; [reflexivity |].
       intros outs l H. now injection H as <- _. }
  unfold bind, lift, call_super_forward, get_self, ret.
  destruct (getitem inp (key_index INPUT ks)) as [_inp |].
  2: { split; [reflexivity |]. split; discriminate. }
  destruct (super_forward (base (self w)) _inp label p) as [b' [_out |]].
  2: { split; [reflexivity |]. split; discriminate. }
  cbn [self base with_base].
  destruct (truthy (return_label b')); [destruct (unpack2 _out) as [[i l0] |] |];
    cbn [fst snd rng]; (split; [reflexivity |]); (split; [discriminate |]);
    intros outs l H; try discriminate H; injection H as <- _;
    apply set_nth_length.
Qed.

Lemma forward_each_length b params idx items outputs label outputs' label' :
  forward_each b params idx items outputs label = Ok (outputs', label') ->
  List.length outputs' = List.length outputs.
Proof.
  revert idx outputs label.
  induction items as [| [[arg dcate] out] items IH];
    intros idx outputs label H; simpl in H.
  - now injection H as <- _.
  - destruct (negb (is_None out)); [now apply IH in H |].
    destruct (forward_dispatch b dcate params (payload arg) label)
      as [[i l] |]; [| discriminate H].
    cbn [rbind] in H. destruct (repack arg i); [| discriminate H].
    cbn [rbind] in H. apply IH in H. rewrite H. apply set_nth_length.
Qed.

(** X13. One [forward] call draws from the random generator at most once,
    and only when no ledger is passed and INPUT is among the data keys:
    the generator is left as it was, or as one call of
    [forward_parameters] on the base part of [self] leaves it. *)
Theorem forward_draws_at_most_once
        (w : World) (args : list Value) (label : Value)
        (params : option Ledger) (keys : option (list DataKey)) :
  rng (fst (forward args label params keys w)) = rng w
  \/ (params = None
      /\ key_in INPUT (effective_keys (self w) keys) = true
      /\ exists out_shape,
           rng (fst (forward args label params keys w))
           = snd (forward_parameters (base (self w)) out_shape (rng w))).
Proof.
  destruct (forward_any_keys args label params keys w)
    as (w0 & -> & Hb & _ & Hk & Hg).
  rewrite <- Hk, <- Hb, <- Hg. clear Hk Hb Hg.
  unfold forward_stages.
  destruct (_validate_args_datakeys args _); [| now left].
  destruct (_arguments_preproc args _) as [inp |]; [| now left].
  pose proof (resolve_params_run inp (data_keys (self w0)) params w0)
    as [Hself Hdraw].
  destruct (resolve_params inp (data_keys (self w0)) params w0)
    as [w1 [p | e]]; cbn [fst] in *; [| exact Hdraw].
  pose proof (forward_input_run inp (data_keys (self w0)) p
                (repeat VNone (List.length (data_keys (self w0)))) label w1)
    as (Hrng & _ & _).
  destruct (forward_input inp (data_keys (self w0)) p _ label w1)
    as [w2 [[outputs label1] | e]]; cbn [fst] in *.
  - destruct (forward_each _ p 0 _ outputs label1) as [[o l] |];
      cbn [fst set_return_label rng]; now rewrite Hrng.
  - now rewrite Hrng.
Qed.

(** X14. A [forward] call whose data keys hold no INPUT does not go
    through the base class: the children and the stored ledger
    [self._params] are as they were, so a later [inverse] without [params]
    still works with the ledger of an earlier pass, if there was one. *)
Theorem forward_without_pixel_key_keeps_ledger
        (w : World) (args : list Value) (label : Value)
        (params : option Ledger) (keys : option (list DataKey)) :
  key_in INPUT (effective_keys (self w) keys) = false ->
  modules (base (self (fst (forward args label params keys w))))
  = modules (base (self w))
  /\ _params (base (self (fst (forward args label params keys w))))
     = _params (base (self w)).
Proof.
  intros Hin.
  destruct (forward_any_keys args label params keys w)
    as (w0 & -> & Hb & _ & Hk & Hg).
  rewrite <- Hk in Hin. rewrite <- Hb. clear Hk Hb Hg.
  unfold forward_stages.
  destruct (_validate_args_datakeys args _); [| now split].
  destruct (_arguments_preproc args _) as [inp |]; [| now split].
  pose proof (resolve_params_run inp (data_keys (self w0)) params w0)
    as [Hself _].
  destruct (resolve_params inp (data_keys (self w0)) params w0)
    as [w1 [p | e]]; cbn [fst] in *; [| now rewrite Hself].
  pose proof (forward_input_run inp (data_keys (self w0)) p
                (repeat VNone (List.length (data_keys (self w0)))) label w1)
    as (_ & Hret & _).
  rewrite (Hret Hin).
  destruct (forward_each _ p 0 _ _ label) as [[o l] |];
    cbn [fst set_return_label self base modules _params with_base];
    now rewrite Hself.
Qed.

(** X15. When [forward] returns, it returns the packing of one output per
    data key in force, by [__packup_output__] under the [return_label] the
    call leaves on [self], which by then is a boolean: the single output or
    the pair of it and the label for one key, the list of outputs or the
    pair of the list and the label otherwise. *)
Theorem forward_returns_one_output_per_key
        (w : World) (args : list Value) (label : Value)
        (params : option Ledger) (keys : option (list DataKey)) (v : Value) :
  snd (forward args label params keys w) = Ok v ->
  exists outputs label',
    List.length outputs = List.length (effective_keys (self w) keys)
    /\ v = __packup_output__ (self (fst (forward args label params keys w)))
             outputs label'
    /\ exists r,
         return_label (base (self (fst (forward args label params keys w))))
         = Some r.
Proof.
  destruct (forward_any_keys args label params keys w)
    as (w0 & -> & Hb & _ & Hk & Hg).
  rewrite <- Hk. clear Hk Hb Hg.
  unfold forward_stages.
  destruct (_validate_args_datakeys args _); [| discriminate].
  destruct (_arguments_preproc args _) as [inp |]; [| discriminate].
  destruct (resolve_params inp (data_keys (self w0)) params w0)
    as [w1 [p | e]]; [| discriminate].
  pose proof (forward_input_run inp (data_keys (self w0)) p
                (repeat VNone (List.length (data_keys (self w0)))) label w1)
    as (_ & _ & Hlen).
  destruct (forward_input inp (data_keys (self w0)) p _ label w1)
    as [w2 [[outputs label1] | e]]; [| discriminate].
  specialize (Hlen outputs label1 eq_refl). rewrite repeat_length in Hlen.
  destruct (forward_each _ p 0 _ outputs label1) as [[o l] |] eqn:Heach;
    [| discriminate].
  cbn [fst snd]. intros [= <-]. exists o, l. repeat split.
  - apply forward_each_length in Heach. now rewrite Heach.
  - unfold next_return_label. cbn [set_return_label fst self base return_label with_base].
    eexists. reflexivity.
Qed.


(** *** Arguments and keys, piece by piece *)

Lemma arguments_preproc_app a1 k1 b kb :
  List.length a1 = List.length k1 ->
  _arguments_preproc (a1 ++ b) (k1 ++ kb)
  = rbind (_arguments_preproc a1 k1)
      (fun r1 => rbind (_arguments_preproc b kb)
                   (fun r2 => Ok (r1 ++ r2))).
Proof.
  revert k1. induction a1 as [| x a1 IH]; intros [| k k1] Hlen;
    try discriminate Hlen.
  - cbn. now destruct (_arguments_preproc b kb).
  - cbn [app _arguments_preproc]. destruct (preproc_one x k); [| reflexivity].
    cbn [rbind]. rewrite IH by now injection Hlen.
    destruct (_arguments_preproc a1 k1); [| reflexivity]. cbn [rbind].
    now destruct (_arguments_preproc b kb).
Qed.

Lemma arguments_preproc_length args keys inp :
  _arguments_preproc args keys = Ok inp ->
  List.length args = List.length keys ->
  List.length inp = List.length keys.
Proof.
  revert keys inp. induction args as [| x args IH]; intros [| k keys] inp H Hlen;
    try discriminate Hlen.
  - cbn in H. now injection H as <-.
  - cbn [_arguments_preproc] in H. destruct (preproc_one x k); [| discriminate H].
    cbn [rbind] in H.
    destruct (_arguments_preproc args keys) as [r |] eqn:Hr; [| discriminate H].
    cbn [rbind] in H. injection H as <-. cbn. f_equal.
    apply (IH keys r Hr). now injection Hlen.
Qed.

Lemma combine_app_eq A B (xs1 xs2 : list A) (ys1 ys2 : list B) :
  List.length xs1 = List.length ys1 ->
  combine (xs1 ++ xs2) (ys1 ++ ys2) = combine xs1 ys1 ++ combine xs2 ys2.
Proof.
  revert ys1. induction xs1 as [| x xs1 IH]; intros [| y ys1] Hlen;
    try discriminate Hlen; simpl; [reflexivity |].
  f_equal. apply IH. now injection Hlen.
Qed.

(** *** Masks and key points under a ledger of intensity records *)

Lemma skipped_record_any_key b d d' p :
  skipped_record b d p = skipped_record b d' p.
Proof.
  unfold skipped_record. destruct (get_submodule b (name p)); [| reflexivity].
  apply intensity_short_circuit_any_key.
Qed.

Lemma skipped_record_modules b b' d p :
  modules b = modules b' -> skipped_record b d p = skipped_record b' d p.
Proof. intros H. unfold skipped_record, get_submodule. now rewrite H. Qed.

Lemma skipped_ledger_modules b b' d (ledger : Ledger) :
  modules b = modules b' ->
  forallb (skipped_record b d) ledger = forallb (skipped_record b' d) ledger.
Proof.
  intros H. induction ledger as [| p r IH]; [reflexivity |].
  cbn [forallb]. now rewrite IH, (skipped_record_modules b b' d p H).
Qed.

Lemma mask_or_keypoints_not_input d :
  mask_or_keypoints d = true -> d <> INPUT.
Proof. intros H ->. discriminate H. Qed.

Lemma mask_or_keypoints_plain ks :
  forallb mask_or_keypoints ks = true -> forallb plain_key ks = true.
Proof.
  intros H. apply forallb_forall. intros d Hd.
  rewrite forallb_forall in H. specialize (H d Hd). now destruct d.
Qed.

Lemma forward_each_skipped b ledger :
  forallb (skipped_record b MASK) ledger = true ->
  forall args ks done label,
    List.length args = List.length ks ->
    forallb is_tensor args = true ->
    forallb mask_or_keypoints ks = true ->
    forward_each b ledger (List.length done)
      (zip3 args ks (repeat VNone (List.length ks)))
      (done ++ repeat VNone (List.length ks)) label
    = Ok (done ++ args, label).
Proof.
  intros Hled. induction args as [| arg args IH];
    intros [| d ks] done label Hlen Hten Hks; try discriminate Hlen.
  - reflexivity.
  - cbn [forallb] in Hten, Hks.
    apply andb_true_iff in Hten. destruct Hten as [Harg Hargs].
    apply andb_true_iff in Hks. destruct Hks as [Hd Hks].
    destruct arg as [| t | | |]; try discriminate Harg.
    cbn [List.length repeat zip3 forward_each is_None negb payload].
    rewrite forward_dispatch_skipped.
    + cbn [rbind repack]. rewrite set_nth_middle.
      specialize (IH ks (done ++ [VTensor t]) label).
      rewrite length_app in IH. cbn [List.length] in IH.
      rewrite Nat.add_1_r, <- !app_assoc in IH. apply IH; auto.
    + now apply mask_or_keypoints_not_input.
    + rewrite <- Hled. clear. induction ledger as [| p r IHl]; [reflexivity |].
      cbn [forallb]. now rewrite IHl, (skipped_record_any_key b d MASK p).
Qed.

(** X17. Masks and key points pass unchanged through a ledger of intensity
    records.  When the data keys in force are MASK and KEYPOINTS only, the
    arguments are tensors, and every record of the ledger passed names an
    intensity transform (other than erasing) or an intensity-only
    container, [forward] returns the arguments and the label it was given,
    packed by [__packup_output__]. *)
Theorem forward_skips_intensity_ledger
        (w : World) (args : list Value) (label : Value) (ledger : Ledger)
        (keys : option (list DataKey)) :
  List.length args = List.length (effective_keys (self w) keys) ->
  forallb mask_or_keypoints (effective_keys (self w) keys) = true ->
  forallb is_tensor args = true ->
  forallb (skipped_record (base (self w)) MASK) ledger = true ->
  snd (forward args label (Some ledger) keys w)
  = Ok (__packup_output__
          (self (fst (forward args label (Some ledger) keys w))) args label).
Proof.
  intros Hlen Hks Hten Hled.
  destruct (forward_any_keys args label (Some ledger) keys w)
    as (w0 & -> & Hb & _ & Hk & _).
  rewrite <- Hk in Hlen, Hks. clear Hk.
  assert (Hin : key_in INPUT (data_keys (self w0)) = false).
  { clear - Hks. induction (data_keys (self w0)) as [| d r IH]; [reflexivity |].
    cbn [forallb] in Hks. apply andb_true_iff in Hks. destruct Hks as [Hd Hr].
    cbn. rewrite orb_false_iff. split; [now destruct d | now apply IH]. }
  unfold forward_stages, _validate_args_datakeys.
  rewrite Hlen, Nat.eqb_refl. cbn [negb].
  rewrite arguments_preproc_plain by now apply mask_or_keypoints_plain.
  rewrite <- Hlen, firstn_all, Hlen.
  cbn [resolve_params ret].
  destruct (forward_input_run args (data_keys (self w0)) ledger
              (repeat VNone (List.length (data_keys (self w0)))) label w0)
    as (_ & Hret & _).
  rewrite (Hret Hin).
  assert (Hled3 : forallb
            (skipped_record
               (base (self (fst (set_return_label
                                   (next_return_label (base (self w0)) label
                                      ledger) w0)))) MASK) ledger = true).
  { rewrite <- Hled. apply skipped_ledger_modules. now rewrite <- Hb. }
  pose proof (@forward_each_skipped _ ledger Hled3 args (data_keys (self w0)) []
                label Hlen Hten Hks) as Heach.
  cbn [List.length app] in Heach. rewrite Heach. reflexivity.
Qed.


(** *** When the label comes back *)

Lemma forward_input_label inp ks p outputs label w outs l1 :
  snd (forward_input inp ks p outputs label w) = Ok (outs, l1) ->
  truthy (return_label
            (base (self (fst (forward_input inp ks p outputs label w)))))
  = true
  \/ l1 = label.
Proof.
  unfold forward_input. destruct (key_in INPUT ks).
  2: { intros H. right. now injection H as _ <-. }
  unfold bind, lift, call_super_forward, get_self, ret.
  destruct (getitem inp (key_index INPUT ks)) as [_inp |]; [| discriminate].
  destruct (super_forward (base (self w)) _inp label p) as [b' [_out |]];
    [| discriminate].
  cbn [self base with_base].
  destruct (truthy (return_label b')) eqn:Hrl.
  - destruct (unpack2 _out) as [[i l0] |]; [| discriminate].
    intros _. left. exact Hrl.
  - intros H. right. now injection H as _ <-.
Qed.

(** X18. When a label comes back.  If a label is passed, or if
    [self.return_label] is already set and no data key is INPUT, then a
    [forward] call that returns gives a pair (the output or the outputs,
    and a label) and leaves [self.return_label] set to true, so that later
    calls without INPUT key return pairs as well. *)
Theorem forward_with_label_returns_pair
        (w : World) (args : list Value) (label : Value)
        (params : option Ledger) (keys : option (list DataKey)) (v : Value) :
  is_None label = false
  \/ (truthy (return_label (base (self w))) = true
      /\ key_in INPUT (effective_keys (self w) keys) = false) ->
  snd (forward args label params keys w) = Ok v ->
  return_label (base (self (fst (forward args label params keys w))))
  = Some true
  /\ exists x l, v = VTuple [x; l].
Proof.
  intros Hcase.
  destruct (forward_any_keys args label params keys w)
    as (w0 & -> & Hb & _ & Hk & _).
  rewrite <- Hk, <- Hb in Hcase. clear Hk Hb.
  unfold forward_stages.
  destruct (_validate_args_datakeys args _); [| discriminate].
  destruct (_arguments_preproc args _) as [inp |]; [| discriminate].
  pose proof (resolve_params_run inp (data_keys (self w0)) params w0)
    as [Hself _].
  destruct (resolve_params inp (data_keys (self w0)) params w0)
    as [w1 [p | e]]; cbn [fst] in Hself; [| discriminate].
  pose proof (forward_input_run inp (data_keys (self w0)) p
                (repeat VNone (List.length (data_keys (self w0)))) label w1)
    as (_ & Hret & _).
  pose proof (@forward_input_label inp (data_keys (self w0)) p
                (repeat VNone (List.length (data_keys (self w0)))) label w1)
    as Hlab.
  destruct (forward_input inp (data_keys (self w0)) p _ label w1)
    as [w2 [[outputs label1] | e]]; [| discriminate].
  cbn [fst snd] in Hlab. specialize (Hlab outputs label1 eq_refl).
  assert (Hnext : next_return_label (base (self w2)) label1 p = Some true).
  { unfold next_return_label. f_equal.
    destruct Hcase as [Hnone | [Hrl Hin]].
    - destruct Hlab as [-> | ->]; [reflexivity |].
      rewrite Hnone. cbn [negb]. now rewrite orb_true_r.
    - specialize (Hret Hin). injection Hret as -> _ _.
      now rewrite Hself, Hrl. }
  rewrite Hnext.
  destruct (forward_each _ p 0 _ outputs label1) as [[o l] |]; [| discriminate].
  cbn [fst snd set_return_label self base return_label with_base].
  intros [= <-]. split; [reflexivity |].
  unfold __packup_output__.
  cbn [self base return_label with_base truthy].
  destruct o as [| x [| y r]]; eauto.
Qed.


(** *** Undoing a ledger on masks, boxes and key points *)

Lemma applied_by_key_branch module dcate :
  applied_by_key module dcate = true ->
  inverse_classify module dcate = ApplyByKey.
Proof.
  unfold applied_by_key. now destruct (inverse_classify module dcate).
Qed.

Lemma inverse_dispatch_undoes_apply_by_key b params0 dcate ledger :
  dcate <> INPUT ->
  forall seq x label y label',
    children_by_params b ledger = Ok seq ->
    forallb (fun nm => applied_by_key (snd nm) dcate) seq = true ->
    (forall nm param u l v l',
        In nm seq ->
        apply_by_key u l (snd nm) param dcate = Ok (v, l') ->
        inverse_by_key v (snd nm) (kept_param (snd nm) param) dcate = Ok u) ->
    forward_dispatch b dcate ledger x label = Ok (y, label') ->
    inverse_dispatch params0 dcate (zip_longest (rev seq) (rev ledger)) y
    = Ok x.
Proof.
  intros Hkey.
  induction ledger as [| p r IH]; intros seq x label y label' Hseq Hgeo Hinv Hfwd.
  - simpl in Hseq, Hfwd. injection Hseq as <-. injection Hfwd as <- <-.
    reflexivity.
  - simpl in Hseq, Hfwd.
    destruct (get_submodule b (name p)) as [m |] eqn:Hm; [| discriminate].
    cbn [rbind] in Hseq.
    destruct (children_by_params b r) as [seq_r |] eqn:Hr; [| discriminate].
    cbn [rbind] in Hseq. injection Hseq as <-.
    cbn [forallb snd] in Hgeo. apply andb_true_iff in Hgeo.
    destruct Hgeo as [Hgm Hgr].
    pose proof (applied_by_key_branch _ _ Hgm) as Hbr.
    unfold forward_step in Hfwd. rewrite Hm in Hfwd. cbn [rbind] in Hfwd.
    unfold forward_exec in Hfwd.
    rewrite (@forward_classify_shared m dcate _ Hkey Hbr) in Hfwd.
    destruct (apply_by_key x label m p dcate) as [[x1 l1] |] eqn:Happ;
      [| discriminate].
    cbn [rbind] in Hfwd.
    cbn [rev]. rewrite zip_longest_snoc, inverse_dispatch_snoc.
    + rewrite (IH seq_r x1 l1 y label' eq_refl Hgr); [| | exact Hfwd].
      * cbn [rbind]. rewrite inverse_step_exec. unfold inverse_exec.
        rewrite Hbr.
        apply (Hinv (name p, m) p x label x1 l1); [now left | exact Happ].
      * intros nm param u l v l' Hin. apply Hinv. now right.
    + rewrite !length_rev. eapply children_by_params_length. exact Hr.
Qed.

(** X19. Round trip on masks, boxes and key points.  For a data key other
    than INPUT, take a ledger whose records all name modules that the
    dispatchers hand to the applier for that key, and suppose that for each
    of them [inverse_by_key] undoes [apply_by_key] for the same parameter.
    Then the inverse dispatch, run on what the forward dispatch of the
    ledger returned, gives back what the forward dispatch was given. *)
Theorem inverse_dispatch_undoes_forward_dispatch
        (b : Base) (params0 : Ledger) (dcate : DataKey) (ledger : Ledger)
        (seq : list (string * Module)) (x label y label' : Value) :
  dcate <> INPUT ->
  children_by_params b ledger = Ok seq ->
  forallb (fun nm => applied_by_key (snd nm) dcate) seq = true ->
  (forall nm param u l v l',
      In nm seq ->
      apply_by_key u l (snd nm) param dcate = Ok (v, l') ->
      inverse_by_key v (snd nm) (kept_param (snd nm) param) dcate = Ok u) ->
  forward_dispatch b dcate ledger x label = Ok (y, label') ->
  inverse_dispatch params0 dcate (zip_longest (rev seq) (rev ledger)) y = Ok x.
Proof.
  intros Hkey Hseq Hall Hinv Hfwd.
  exact (@inverse_dispatch_undoes_apply_by_key b params0 dcate ledger Hkey
           seq x label y label' Hseq Hall Hinv Hfwd).
Qed.

(** *** A ledger longer than the forward sequence *)

Lemma inverse_dispatch_fails params dcate items item input :
  In item items ->
  (forall i, is_ok (inverse_step params dcate item i) = false) ->
  is_ok (inverse_dispatch params dcate items input) = false.
Proof.
  intros Hin Hfail. revert input.
  induction items as [| it r IH]; intros input; [contradiction |].
  cbn [inverse_dispatch]. destruct Hin as [-> | Hin].
  - specialize (Hfail input).
    now destruct (inverse_step params dcate item input).
  - destruct (inverse_step params dcate it input) as [i | e]; cbn [rbind];
      [now apply IH | reflexivity].
Qed.

Lemma zip_longest_right_fill A B (xs : list A) (ys : list B) :
  (List.length xs < List.length ys)%nat ->
  exists y, In (None, Some y) (zip_longest xs ys).
Proof.
  revert ys. induction xs as [| x xs IH]; intros [| y ys] Hlen; simpl in *;
    try lia.
  - exists y. now left.
  - destruct (IH ys ltac:(lia)) as (y' & Hy'). exists y'. now right.
Qed.

(** X20. [inverse] does not pass over records that have no module.  When
    the forward sequence holds fewer modules than the ledger holds records,
    [zip_longest] pairs the first records with [None], which cannot be
    unpacked into a name and a module: the inverse dispatch raises, for
    every data key and every input. *)
Theorem inverse_dispatch_needs_a_module_per_record
        (params : Ledger) (dcate : DataKey) (seq : list (string * Module))
        (ledger : Ledger) (input : Value) :
  (List.length seq < List.length ledger)%nat ->
  is_ok (inverse_dispatch params dcate (zip_longest (rev seq) (rev ledger))
           input) = false.
Proof.
  intros Hlen.
  destruct (zip_longest_right_fill (rev seq) (rev ledger)) as (p & Hin).
  - now rewrite !length_rev.
  - apply inverse_dispatch_fails with (item := (None, Some p)); [exact Hin |].
    reflexivity.
Qed.


End Coverage.

(** * Keys as the caller spells them *)

Section Spelling.

Context {carrier : Carrier} {ext : Collaborators} {spell : Spellings}.

Lemma normalise_members ks : normalise (map KMember ks) = Ok ks.
Proof.
  induction ks as [| k r IH]; [reflexivity |].
  cbn [map normalise DataKey_get_any DataKey_get rbind]. now rewrite IH.
Qed.

(** On a member of the enumeration the chain of [inverse] is the one of
    [inverse_classify]. *)
Lemma inverse_classify_raw_member module d :
  inverse_classify_raw module (KMember d) = Ok (inverse_classify module d).
Proof.
  unfold inverse_classify_raw, inverse_classify, raw_in_DataKey, raw_key_in,
    key_in, isinstance_any.
  cbn [raw_eqb existsb]. rewrite in_DataKey_total.
  destruct (isinstance module IntensityAugmentationBase2D),
    (isinstance module RandomErasing),
    (isinstance module ImageSequential), (intensity_only module),
    (isinstance module VideoSequential), (isinstance module PatchSequential),
    (isinstance module GeometricAugmentationBase2D),
    (isinstance module SequentialBase),
    (DataKey_eqb d INPUT), (DataKey_eqb d MASK); reflexivity.
Qed.

Lemma inverse_exec_raw_member d module param input :
  inverse_exec_raw (KMember d) module param input
  = inverse_exec d module param input.
Proof.
  unfold inverse_exec_raw, inverse_exec.
  rewrite inverse_classify_raw_member. cbn [rbind].
  now destruct (inverse_classify module d).
Qed.

Lemma inverse_dispatch_raw_member params d items input :
  inverse_dispatch_raw params (KMember d) items input
  = inverse_dispatch params d items input.
Proof.
  revert input. induction items as [| [[[n module] |] param] items IH];
    intros input; cbn [inverse_dispatch_raw inverse_dispatch];
    unfold inverse_step_raw, inverse_step; cbn [fst snd];
    [reflexivity | | reflexivity].
  destruct (select_param module n params param); [| reflexivity].
    cbn [rbind]. rewrite inverse_exec_raw_member.
    destruct (inverse_exec d module _ input); [| reflexivity].
    cbn [rbind]. apply IH.
Qed.

Lemma inverse_each_raw_member b params ks :
  forall args idx outputs,
    inverse_each_raw b params idx (combine args (map KMember ks)) outputs
    = inverse_each b params idx (combine args ks) outputs.
Proof.
  induction ks as [| d ks IH]; intros [| arg args] idx outputs;
    try reflexivity.
  cbn [map combine inverse_each_raw inverse_each].
  unfold inverse_payload_raw, inverse_payload. cbn [raw_eqb].
  destruct (if DataKey_eqb d INPUT && is_tuple_or_list arg
            then rbind (unpack2 arg) (fun x => let (input, _) := x in Ok input)
            else Ok (payload arg)); [| reflexivity].
  cbn [rbind]. destruct (get_forward_sequence b params); [| reflexivity].
  cbn [rbind]. rewrite inverse_dispatch_raw_member.
  destruct (inverse_dispatch params d _ _); [| reflexivity].
  cbn [rbind]. destruct (repack arg _); [| reflexivity].
  cbn [rbind]. apply IH.
Qed.

(** Called with members, or without keys, [inverse_raw] is [inverse]. *)
Lemma inverse_raw_members s args params keys :
  inverse_raw s args params (option_map (map KMember) keys)
  = inverse s args params keys.
Proof.
  unfold inverse_raw, inverse.
  replace (match option_map (map KMember) keys with
           | Some ks => ks
           | None => map KMember (data_keys s)
           end)
    with (map KMember (match keys with
                       | Some ks => ks
                       | None => data_keys s
                       end))
    by now destruct keys.
  rewrite normalise_members, map_DataKey_get. cbn [rbind].
  rewrite length_map.
  destruct (negb (_ =? _)%nat); [reflexivity |].
  destruct (_arguments_preproc args _) as [inp |]; [| reflexivity].
  cbn [rbind].
  destruct (match params with
            | Some p => Ok p
            | None => match _params (base s) with
                      | Some p => Ok p
                      | None => Err MissingParameters
                      end
            end) as [p |]; [| reflexivity].
  cbn [rbind]. now rewrite inverse_each_raw_member.
Qed.

(** Called with members, or without keys, [forward_raw] is [forward]. *)
Lemma forward_raw_members args label params keys w :
  forward_raw args label params (option_map (map KMember) keys) w
  = forward args label params keys w.
Proof.
  destruct keys as [ks |]; [| reflexivity].
  cbn [option_map forward_raw]. now rewrite normalise_members.
Qed.

(** *** A video container and a mask key spelled as a string *)

Lemma geometric_video_member_branch module :
  isinstance module VideoSequential = true ->
  isinstance module ImageSequential = true ->
  isinstance module IntensityAugmentationBase2D = false ->
  isinstance module PatchSequential = false ->
  intensity_only module = false ->
  inverse_classify module MASK = ApplyByKey.
Proof.
  intros Hv Hi Hn Hp Ho. unfold inverse_classify, isinstance_any.
  cbn [existsb key_in in_DataKey DataKey_eqb].
  rewrite Hv, Hi, Hn, Hp, Ho. cbn [andb orb negb].
  now rewrite orb_true_r.
Qed.

Lemma geometric_video_spelled_branch module (s : string) :
  isinstance module VideoSequential = true ->
  isinstance module ImageSequential = true ->
  isinstance module IntensityAugmentationBase2D = false ->
  isinstance module PatchSequential = false ->
  intensity_only module = false ->
  inverse_classify_raw module (KStr s) = Ok VideoFold.
Proof.
  intros Hv Hi Hn Hp Ho. unfold inverse_classify_raw, raw_key_in.
  cbn [existsb raw_eqb]. rewrite Hv, Hi, Hn, Ho. reflexivity.
Qed.

(** C3. A geometric video container and the mask key spelled as a string
    ([data_keys=["mask"]]): [forward] normalises the key to the member MASK
    and hands the mask to [apply_by_key] as it is (the branch of line 371),
    whereas the loop of [inverse] sees the string, finds it in
    [[DataKey.INPUT, DataKey.MASK]] no more than any other string, and folds
    the time axis of the mask into the batch axis around [inverse_by_key]
    (the branch of line 222).  With the member MASK as the key, [inverse]
    takes the branch of line 229, as [forward] does. *)
Theorem spelled_mask_key_is_dispatched_two_ways
        (w : World) (s : string) (module : Module) (p : ParamItem)
        (t : Tensor) (label : Value) :
  DataKey_get_any (KStr s) = Ok MASK ->
  get_submodule (base (self w)) (name p) = Ok module ->
  get_forward_sequence (base (self w)) [p] = Ok [(name p, module)] ->
  isinstance module VideoSequential = true ->
  isinstance module ImageSequential = true ->
  isinstance module IntensityAugmentationBase2D = false ->
  isinstance module PatchSequential = false ->
  intensity_only module = false ->
  match apply_by_key (VTensor t) label module p MASK with
  | Ok (o, l) =>
      snd (forward_raw [VTensor t] label (Some [p]) (Some [KStr s]) w)
      = Ok (__packup_output__
              (self (fst (forward_raw [VTensor t] label (Some [p])
                            (Some [KStr s]) w))) [o] l)
  | Err e =>
      snd (forward_raw [VTensor t] label (Some [p]) (Some [KStr s]) w) = Err e
  end
  /\ inverse_raw (self w) [VTensor t] (Some [p]) (Some [KStr s])
     = (batch_size <- size0 (VTensor t) ;;
        sh <- shape_of (VTensor t) ;;
        input <- view (VTensor t) (-1 :: skipn 2 sh) ;;
        input <- inverse_by_key_spelled input module (Some p) (KStr s) ;;
        sh <- shape_of input ;;
        view input (batch_size :: -1 :: skipn 1 sh))%res
  /\ inverse_raw (self w) [VTensor t] (Some [p]) (Some [KMember MASK])
     = inverse_by_key (VTensor t) module (Some p) MASK.
Proof.
  intros Hget Hsub Hseq Hv Hi Hn Hp Ho.
  assert (Hany : isinstance_any module [_AugmentationBase; ImageSequential]
                 = true).
  { unfold isinstance_any. cbn [existsb]. rewrite Hi. now rewrite orb_true_r. }
  split; [| split].
  - cbn [forward_raw normalise]. rewrite Hget. cbn [rbind].
    rewrite forward_explicit_keys, forward_by_stages.
    unfold forward_stages. cbn [set_data_keys fst self data_keys map DataKey_get].
    cbn [_validate_args_datakeys List.length Nat.eqb negb _arguments_preproc].
    rewrite preproc_one_plain by reflexivity. cbn [rbind resolve_params ret].
    unfold forward_input. cbn [key_in existsb DataKey_eqb orb ret].
    cbn [repeat List.length zip3 forward_each is_None negb payload
         forward_dispatch].
    cbn [set_return_label fst self base with_base modules].
    rewrite (@forward_step_exec _ _ _ MASK p module) by exact Hsub.
    unfold forward_exec.
    rewrite (@forward_classify_shared module MASK ApplyByKey) by
      (try discriminate;
       now apply geometric_video_member_branch).
    destruct (apply_by_key (VTensor t) label module p MASK) as [[o l] | e];
      reflexivity.
  - unfold inverse_raw. cbn [normalise]. rewrite Hget.
    cbn [rbind List.length Nat.eqb negb _arguments_preproc].
    rewrite preproc_one_plain by reflexivity.
    cbn [rbind combine repeat List.length inverse_each_raw].
    unfold inverse_payload_raw. cbn [raw_eqb andb payload rbind].
    rewrite Hseq. cbn [rbind rev app zip_longest inverse_dispatch_raw].
    unfold inverse_step_raw, select_param. cbn [fst snd].
    rewrite Hany, name_in_params_false. cbn [rbind].
    unfold inverse_exec_raw.
    rewrite (@geometric_video_spelled_branch module s Hv Hi Hn Hp Ho).
    unfold inverse_by_key_any. cbn [rbind map inverse_dispatch_raw].
    destruct (size0 (VTensor t)); [| reflexivity]. cbn [rbind].
    destruct (shape_of (VTensor t)); [| reflexivity]. cbn [rbind].
    destruct (view (VTensor t) _); [| reflexivity]. cbn [rbind].
    destruct (inverse_by_key_spelled _ module (Some p) (KStr s)) as [i |];
      [| reflexivity].
    cbn [rbind]. destruct (shape_of i); [| reflexivity]. cbn [rbind].
    destruct (view i _) as [o |]; [| reflexivity]. cbn [rbind].
    unfold repack. cbn [rbind set_nth]. reflexivity.
  - change (Some [KMember MASK]) with (option_map (map KMember) (Some [MASK])).
    rewrite inverse_raw_members.
    unfold inverse. cbn [map DataKey_get List.length Nat.eqb negb
                         _arguments_preproc].
    rewrite preproc_one_plain by reflexivity.
    cbn [rbind combine repeat List.length inverse_each].
    unfold inverse_payload. cbn [DataKey_eqb andb payload rbind].
    rewrite Hseq. cbn [rbind rev app zip_longest inverse_dispatch].
    rewrite inverse_step_exec, Hany. unfold inverse_exec.
    rewrite (@geometric_video_member_branch module Hv Hi Hn Hp Ho).
    cbn [map inverse_dispatch].
    destruct (inverse_by_key (VTensor t) module (Some p) MASK) as [o |];
      reflexivity.
Qed.

(** *** The transformation matrix of a pixel argument *)

Lemma normalise_app k1 k2 :
  normalise (k1 ++ k2)
  = rbind (normalise k1)
      (fun d1 => rbind (normalise k2) (fun d2 => Ok (d1 ++ d2))).
Proof.
  induction k1 as [| k k1 IH]; cbn [app normalise rbind].
  - now destruct (normalise k2).
  - destruct (DataKey_get_any k); [| reflexivity]. cbn [rbind].
    rewrite IH. destruct (normalise k1); [| reflexivity]. cbn [rbind].
    now destruct (normalise k2).
Qed.

Lemma normalise_length ks ds :
  normalise ks = Ok ds -> List.length ds = List.length ks.
Proof.
  revert ds. induction ks as [| k r IH]; intros ds; cbn [normalise].
  - now intros [= <-].
  - destruct (DataKey_get_any k); [| discriminate]. cbn [rbind].
    destruct (normalise r) as [ds' |]; [| discriminate]. cbn [rbind].
    intros [= <-]. cbn [List.length]. now rewrite (IH ds').
Qed.

Lemma same_item_raw_refl it : same_item_raw it it.
Proof. repeat split. Qed.

Lemma Forall2_same_item_raw_refl items : Forall2 same_item_raw items items.
Proof. induction items; constructor; auto using same_item_raw_refl. Qed.

Lemma inverse_each_raw_ext b params items items' :
  Forall2 same_item_raw items items' ->
  forall idx outputs,
    inverse_each_raw b params idx items outputs
    = inverse_each_raw b params idx items' outputs.
Proof.
  induction 1 as [| [a d] [a' d'] items items' (Hd & Hp & Hr) _ IH];
    intros idx outputs; [reflexivity |].
  cbn [fst snd] in Hd, Hp, Hr. subst d'. cbn [inverse_each_raw]. rewrite Hp.
  destruct (inverse_payload_raw a' d); [| reflexivity]. cbn [rbind].
  destruct (get_forward_sequence b params); [| reflexivity]. cbn [rbind].
  destruct (inverse_dispatch_raw params d _ _); [| reflexivity]. cbn [rbind].
  rewrite Hr. destruct (repack a' _); [| reflexivity]. cbn [rbind].
  apply IH.
Qed.

(** X16. [inverse] ignores the transformation matrix that comes with a
    pixel argument whose key is the member [DataKey.INPUT]: calling it with
    the pair (tensor, matrix) in that place gives what calling it with the
    tensor alone gives, value or exception, whatever the other arguments,
    the ledger, and the other keys, however they are spelled. *)
Theorem inverse_ignores_matrix_under_member_key
        (s : Self) (a1 a2 : list Value) (k1 k2 : list RawKey)
        (t : Tensor) (m : Value) (params : option Ledger) :
  List.length a1 = List.length k1 ->
  inverse_raw s (a1 ++ VTuple [VTensor t; m] :: a2) params
    (Some (k1 ++ KMember INPUT :: k2))
  = inverse_raw s (a1 ++ VTensor t :: a2) params
      (Some (k1 ++ KMember INPUT :: k2)).
Proof.
  intros Hlen. unfold inverse_raw. rewrite normalise_app.
  destruct (normalise k1) as [d1 |] eqn:H1; [| reflexivity].
  cbn [rbind normalise DataKey_get_any DataKey_get].
  destruct (normalise k2) as [d2 |]; [| reflexivity]. cbn [rbind].
  rewrite !length_app. cbn [List.length].
  destruct (negb (_ =? _)%nat); [reflexivity |].
  assert (Hlen1 : List.length a1 = List.length d1)
    by now rewrite (normalise_length _ H1).
  rewrite !arguments_preproc_app by exact Hlen1.
  destruct (_arguments_preproc a1 d1) as [r1 |] eqn:Hr; [| reflexivity].
  cbn [rbind _arguments_preproc].
  rewrite !preproc_one_plain by reflexivity. cbn [rbind].
  destruct (_arguments_preproc a2 d2) as [r2 |]; [| reflexivity].
  cbn [rbind].
  destruct (match params with
            | Some p => Ok p
            | None => match _params (base s) with
                      | Some p => Ok p
                      | None => Err MissingParameters
                      end
            end) as [p |]; [| reflexivity].
  cbn [rbind].
  assert (Hr1 : List.length r1 = List.length k1).
  { rewrite (arguments_preproc_length _ _ Hr Hlen1).
    now apply normalise_length. }
  rewrite !combine_app_eq by exact Hr1. cbn [combine].
  rewrite (@inverse_each_raw_ext (base s) p
             (combine r1 k1 ++ (VTuple [VTensor t; m], KMember INPUT)
                :: combine r2 k2)
             (combine r1 k1 ++ (VTensor t, KMember INPUT) :: combine r2 k2)).
  - reflexivity.
  - apply Forall2_app; [apply Forall2_same_item_raw_refl |].
    constructor; [| apply Forall2_same_item_raw_refl].
    repeat split.
Qed.


End Spelling.


(** * Calls in a row *)

Section Calls.

Context {carrier : Carrier} {ext : Collaborators}.

(** *** What a call reads of the object it is made on *)

Lemma get_submodule_children b b' n :
  modules b = modules b' -> get_submodule b n = get_submodule b' n.
Proof. unfold get_submodule. now intros ->. Qed.

Section SameChildren.

(** [apply_to_input] reads the children of [self] and nothing else. *)
Hypothesis apply_reads_children :
  forall b b' input l module param,
    modules b = modules b' ->
    apply_to_input b input l module param
    = apply_to_input b' input l module param.

Lemma forward_dispatch_children b b' dcate params :
  modules b = modules b' ->
  forall input label,
    forward_dispatch b dcate params input label
    = forward_dispatch b' dcate params input label.
Proof.
  intros Hm. induction params as [| p r IH]; intros input label;
    [reflexivity |].
  cbn [forward_dispatch]. unfold forward_step.
  rewrite (@get_submodule_children b b' (name p) Hm).
  destruct (get_submodule b' (name p)) as [module |]; [| reflexivity].
  cbn [rbind].
  assert (Hexec : forward_exec b dcate module p input label
                  = forward_exec b' dcate module p input label).
  { unfold forward_exec. destruct (forward_classify module dcate);
      [now apply apply_reads_children | reflexivity]. }
  rewrite Hexec.
  destruct (forward_exec b' dcate module p input label) as [[i l] |];
    [| reflexivity].
  cbn [rbind]. apply IH.
Qed.

Lemma forward_each_children b b' params items :
  modules b = modules b' ->
  forall idx outputs label,
    forward_each b params idx items outputs label
    = forward_each b' params idx items outputs label.
Proof.
  intros Hm. induction items as [| [[arg dcate] out] items IH];
    intros idx outputs label; [reflexivity |].
  cbn [forward_each]. destruct (negb (is_None out)); [apply IH |].
  rewrite (@forward_dispatch_children b b' dcate params Hm).
  destruct (forward_dispatch b' dcate params (payload arg) label)
    as [[i l] |]; [| reflexivity].
  cbn [rbind]. destruct (repack arg i); [| reflexivity].
  cbn [rbind]. apply IH.
Qed.

End SameChildren.

(** Lines 334-342 in terms of what the base class hands back. *)
Lemma forward_input_pixel inp ks p outputs label w :
  forward_input inp ks p outputs label w
  = if key_in INPUT ks then
      match getitem inp (key_index INPUT ks) with
      | Err e => (w, Err e)
      | Ok x =>
          ({| self := with_base (self w)
                        (fst (super_forward (base (self w)) x label p));
              rng := rng w |},
           match pixel_pass (base (self w)) x label p with
           | Ok (i, l) => Ok (set_nth (key_index INPUT ks) i outputs, l)
           | Err e => Err e
           end)
      end
    else (w, Ok (outputs, label)).
Proof.
  unfold forward_input, pixel_pass. destruct (key_in INPUT ks); [| reflexivity].
  unfold bind, lift, call_super_forward, get_self, ret.
  destruct (getitem inp (key_index INPUT ks)) as [x |]; [| reflexivity].
  destruct (super_forward (base (self w)) x label p) as [b' [_out |]];
    [| reflexivity].
  cbn [self base with_base fst rbind].
  destruct (truthy (return_label b')); [| reflexivity].
  now destruct (unpack2 _out) as [[i l] |].
Qed.

Lemma packup_reads_return_label s s' outputs label :
  truthy (return_label (base s)) = truthy (return_label (base s')) ->
  __packup_output__ s outputs label = __packup_output__ s' outputs label.
Proof. unfold __packup_output__. now intros ->. Qed.

Lemma same_outputs_equal s s' r r' :
  same_outputs s s' r r' ->
  truthy (return_label (base s)) = truthy (return_label (base s')) ->
  r = r'.
Proof.
  destruct r as [v | e], r' as [v' | e']; cbn [same_outputs];
    try contradiction.
  - intros (outputs & label & -> & ->) Ht. f_equal.
    now apply packup_reads_return_label.
  - now intros ->.
Qed.

Section Replay.

Variables (args : list Value) (label : Value) (ledger : Ledger).

(** The base class keeps its children. *)
Hypothesis super_keeps_children :
  forall b _inp l p, modules (fst (super_forward b _inp l p)) = modules b.

Hypothesis apply_reads_children :
  forall b b' input l module param,
    modules b = modules b' ->
    apply_to_input b input l module param
    = apply_to_input b' input l module param.

Lemma forward_stages_children w :
  modules (base (self (fst (forward_stages args label (Some ledger) w))))
  = modules (base (self w)).
Proof.
  unfold forward_stages.
  destruct (_validate_args_datakeys args (data_keys (self w)));
    [| reflexivity].
  destruct (_arguments_preproc args (data_keys (self w))) as [inp |];
    [| reflexivity].
  cbn [resolve_params ret]. rewrite forward_input_pixel.
  destruct (key_in INPUT (data_keys (self w))).
  - destruct (getitem inp _) as [x |]; [| reflexivity].
    destruct (pixel_pass (base (self w)) x label ledger) as [[i l] |].
    + cbn [set_return_label fst self base with_base modules].
      destruct (forward_each _ ledger 0 _ _ l) as [[o l2] |];
        cbn [fst self base with_base modules]; apply super_keeps_children.
    + cbn [fst self base with_base modules]. apply super_keeps_children.
  - cbn [set_return_label fst self base with_base modules].
    now destruct (forward_each _ ledger 0 _ _ label) as [[o l2] |].
Qed.

(** Two objects with the same keys and the same children, for which the
    base class hands back the same pixel output and label. *)
Lemma forward_stages_replay wa wb :
  data_keys (self wa) = data_keys (self wb) ->
  modules (base (self wa)) = modules (base (self wb)) ->
  (forall _inp,
      pixel_pass (base (self wb)) _inp label ledger
      = pixel_pass (base (self wa)) _inp label ledger) ->
  same_outputs (self (fst (forward_stages args label (Some ledger) wa)))
    (self (fst (forward_stages args label (Some ledger) wb)))
    (snd (forward_stages args label (Some ledger) wa))
    (snd (forward_stages args label (Some ledger) wb)).
Proof.
  intros Hk Hm Hpix. unfold forward_stages. rewrite <- Hk.
  destruct (_validate_args_datakeys args (data_keys (self wa)));
    [| reflexivity].
  destruct (_arguments_preproc args (data_keys (self wa))) as [inp |];
    [| reflexivity].
  cbn [resolve_params ret]. rewrite !forward_input_pixel.
  destruct (key_in INPUT (data_keys (self wa))).
  - destruct (getitem inp _) as [x |]; [| reflexivity].
    rewrite (Hpix x).
    destruct (pixel_pass (base (self wa)) x label ledger) as [[i l] |];
      [| reflexivity].
    cbn [set_return_label fst self base with_base modules].
    rewrite (@forward_each_children apply_reads_children
               {| modules :=
                    modules (fst (super_forward (base (self wa)) x label ledger));
                  _params :=
                    _params (fst (super_forward (base (self wa)) x label ledger));
                  return_label :=
                    next_return_label
                      (fst (super_forward (base (self wa)) x label ledger))
                      l ledger |}
               {| modules :=
                    modules (fst (super_forward (base (self wb)) x label ledger));
                  _params :=
                    _params (fst (super_forward (base (self wb)) x label ledger));
                  return_label :=
                    next_return_label
                      (fst (super_forward (base (self wb)) x label ledger))
                      l ledger |})
      by (cbn [modules]; now rewrite !super_keeps_children).
    destruct (forward_each _ ledger 0 _ _ l) as [[o l2] |];
      cbn [fst snd same_outputs]; [| reflexivity].
    exists o, l2. split; reflexivity.
  - cbn [set_return_label fst self base with_base modules].
    rewrite (@forward_each_children apply_reads_children
               {| modules := modules (base (self wa));
                  _params := _params (base (self wa));
                  return_label :=
                    next_return_label (base (self wa)) label ledger |}
               {| modules := modules (base (self wb));
                  _params := _params (base (self wb));
                  return_label :=
                    next_return_label (base (self wb)) label ledger |})
      by exact Hm.
    destruct (forward_each _ ledger 0 _ _ label) as [[o l2] |];
      cbn [fst snd same_outputs]; [| reflexivity].
    exists o, l2. split; reflexivity.
Qed.

End Replay.

(** C1. Two [forward] calls in a row on one object, with the same inputs,
    label, data keys and explicit ledger; the generator may be in any state
    when the second call is made.  The first call has assigned
    [self.data_keys] and [self.return_label] and the base class has left
    its own state behind; the second call starts from there.  Provided the
    base class keeps its children, [apply_to_input] reads nothing of
    [self] but the children, and the base class hands the second call the
    pixel output and the label it handed the first (lines 337-341), the two
    calls compute the same output for every data key and the same label, or
    raise the same exception; they return the same value when
    [return_label] stands the same for both at line 385; and neither
    advances the generator. *)
Theorem forward_twice_replays_the_ledger
        (w w' : World) (args : list Value) (label : Value)
        (ledger : Ledger) (keys : option (list DataKey)) :
  self w' = self (fst (forward args label (Some ledger) keys w)) ->
  (forall b _inp l p, modules (fst (super_forward b _inp l p)) = modules b) ->
  (forall b b' input l module param,
      modules b = modules b' ->
      apply_to_input b input l module param
      = apply_to_input b' input l module param) ->
  (forall _inp,
      pixel_pass (base (self w')) _inp label ledger
      = pixel_pass (base (self w)) _inp label ledger) ->
  same_outputs (self w')
    (self (fst (forward args label (Some ledger) keys w')))
    (snd (forward args label (Some ledger) keys w))
    (snd (forward args label (Some ledger) keys w'))
  /\ (truthy (return_label (base (self w')))
      = truthy (return_label
                  (base (self (fst (forward args label (Some ledger) keys w')))))
      -> snd (forward args label (Some ledger) keys w)
         = snd (forward args label (Some ledger) keys w'))
  /\ rng (fst (forward args label (Some ledger) keys w)) = rng w
  /\ rng (fst (forward args label (Some ledger) keys w')) = rng w'.
Proof.
  intros Hself Hsuper Happly Hpix.
  assert (Hsame :
            same_outputs (self w')
              (self (fst (forward args label (Some ledger) keys w')))
              (snd (forward args label (Some ledger) keys w))
              (snd (forward args label (Some ledger) keys w'))).
  { rewrite Hself.
    destruct (forward_any_keys args label (Some ledger) keys w)
      as (w0 & E0 & Hb0 & _ & Hk0 & _).
    destruct (forward_any_keys args label (Some ledger) keys w')
      as (w0' & E0' & Hb0' & _ & Hk0' & _).
    assert (Hchild : modules (base (self w')) = modules (base (self w))).
    { rewrite Hself, E0, (forward_stages_children args label ledger Hsuper).
      now rewrite Hb0. }
    assert (Hkeys : data_keys (self w0) = data_keys (self w0')).
    { rewrite Hk0, Hk0'. destruct keys as [ks |]; [reflexivity |].
      cbn [effective_keys]. rewrite Hself.
      symmetry. apply forward_keeps_keys. }
    rewrite E0, E0'.
    apply (forward_stages_replay args label ledger Hsuper Happly).
    - exact Hkeys.
    - now rewrite Hb0, Hb0'.
    - intros _inp. rewrite Hb0, Hb0'. apply Hpix. }
  split; [exact Hsame |].
  split; [now apply same_outputs_equal |].
  destruct w as [s g], w' as [s' g']. cbn [rng].
  split; apply (forward_replay_blind args label ledger keys _ _ g).
Qed.

(** *** The slot of one data key in the lists of outputs *)

Lemma set_nth_same A (i : nat) (x : A) (l : list A) :
  (i < List.length l)%nat -> nth_error (set_nth i x l) i = Some x.
Proof.
  revert i. induction l as [| y r IH]; intros [| i] Hi; cbn in *;
    try lia; [reflexivity |].
  apply IH. lia.
Qed.

Lemma set_nth_other A (i j : nat) (x : A) (l : list A) :
  i <> j -> nth_error (set_nth i x l) j = nth_error l j.
Proof.
  revert i j. induction l as [| y r IH]; intros [| i] [| j] Hij; cbn;
    try reflexivity; try congruence.
  apply IH. congruence.
Qed.

Lemma zip3_nth A B C (xs : list A) (ys : list B) (zs : list C) i x y z :
  nth_error xs i = Some x -> nth_error ys i = Some y ->
  nth_error zs i = Some z ->
  nth_error (zip3 xs ys zs) i = Some (x, y, z).
Proof.
  revert ys zs i.
  induction xs as [| a xs IH]; intros [| b ys] [| c zs] [| i];
    cbn; try discriminate.
  - now intros [= ->] [= ->] [= ->].
  - apply IH.
Qed.

Lemma combine_nth_error A B (xs : list A) (ys : list B) i x y :
  nth_error xs i = Some x -> nth_error ys i = Some y ->
  nth_error (combine xs ys) i = Some (x, y).
Proof.
  revert ys i. induction xs as [| a xs IH]; intros [| b ys] [| i];
    cbn; try discriminate.
  - now intros [= ->] [= ->].
  - apply IH.
Qed.

(** The loop of [forward] writes slot [idx] and the ones after it. *)
Lemma forward_each_below b params items :
  forall idx outputs label outputs' label' j,
    forward_each b params idx items outputs label = Ok (outputs', label') ->
    (j < idx)%nat ->
    nth_error outputs' j = nth_error outputs j.
Proof.
  induction items as [| [[arg dcate] out] items IH];
    intros idx outputs label outputs' label' j H Hj; cbn [forward_each] in H.
  - now injection H as <- _.
  - destruct (negb (is_None out)).
    + apply (IH (S idx) outputs label outputs' label' j H). lia.
    + destruct (forward_dispatch b dcate params (payload arg) label)
        as [[i l] |]; [| discriminate H].
      cbn [rbind] in H. destruct (repack arg i) as [o |]; [| discriminate H].
      cbn [rbind] in H.
      rewrite (IH (S idx) _ l outputs' label' j H) by lia.
      apply set_nth_other. lia.
Qed.

(** It leaves alone the slot of an argument whose output is there
    already (line 347). *)
Lemma forward_each_filled b params items :
  forall idx outputs label outputs' label' k arg dcate out,
    forward_each b params idx items outputs label = Ok (outputs', label') ->
    nth_error items k = Some (arg, dcate, out) ->
    is_None out = false ->
    nth_error outputs' (idx + k) = nth_error outputs (idx + k).
Proof.
  induction items as [| [[arg0 dcate0] out0] items IH];
    intros idx outputs label outputs' label' k arg dcate out H Hk Hout;
    [now destruct k |].
  cbn [forward_each] in H. destruct k as [| k]; cbn [nth_error] in Hk.
  - injection Hk as -> -> ->. rewrite Hout in H. cbn [negb] in H.
    rewrite Nat.add_0_r.
    apply (@forward_each_below b params items (S idx) outputs label outputs'
             label' idx H). lia.
  - rewrite Nat.add_succ_r.
    change (S (idx + k)) with (S idx + k)%nat.
    destruct (negb (is_None out0)).
    + apply (IH (S idx) outputs label outputs' label' k arg dcate out H Hk Hout).
    + destruct (forward_dispatch b dcate0 params (payload arg0) label)
        as [[i l] |]; [| discriminate H].
      cbn [rbind] in H. destruct (repack arg0 i) as [o |]; [| discriminate H].
      cbn [rbind] in H.
      rewrite (IH (S idx) _ l outputs' label' k arg dcate out H Hk Hout).
      apply set_nth_other. lia.
Qed.

Lemma inverse_each_below b params items :
  forall idx outputs outputs' j,
    inverse_each b params idx items outputs = Ok outputs' ->
    (j < idx)%nat ->
    nth_error outputs' j = nth_error outputs j.
Proof.
  induction items as [| [arg dcate] items IH];
    intros idx outputs outputs' j H Hj; cbn [inverse_each] in H.
  - now injection H as <-.
  - destruct (inverse_payload arg dcate) as [input |]; [| discriminate H].
    cbn [rbind] in H.
    destruct (get_forward_sequence b params) as [seq |]; [| discriminate H].
    cbn [rbind] in H.
    destruct (inverse_dispatch params dcate _ input) as [i |];
      [| discriminate H].
    cbn [rbind] in H. destruct (repack arg i) as [o |]; [| discriminate H].
    cbn [rbind] in H.
    rewrite (IH (S idx) _ outputs' j H) by lia.
    apply set_nth_other. lia.
Qed.

(** What the loop of [inverse] leaves in the slot of an argument. *)
Lemma inverse_each_slot b params items :
  forall idx outputs outputs' k arg dcate,
    inverse_each b params idx items outputs = Ok outputs' ->
    nth_error items k = Some (arg, dcate) ->
    (idx + k < List.length outputs)%nat ->
    exists input seq i o,
      inverse_payload arg dcate = Ok input
      /\ get_forward_sequence b params = Ok seq
      /\ inverse_dispatch params dcate (zip_longest (rev seq) (rev params))
           input = Ok i
      /\ repack arg i = Ok o
      /\ nth_error outputs' (idx + k) = Some o.
Proof.
  induction items as [| [arg0 dcate0] items IH];
    intros idx outputs outputs' k arg dcate H Hk Hlen; [now destruct k |].
  cbn [inverse_each] in H.
  destruct (inverse_payload arg0 dcate0) as [input |] eqn:Hpay;
    [| discriminate H].
  cbn [rbind] in H.
  destruct (get_forward_sequence b params) as [seq |] eqn:Hseq;
    [| discriminate H].
  cbn [rbind] in H.
  destruct (inverse_dispatch params dcate0 _ input) as [i |] eqn:Hdis;
    [| discriminate H].
  cbn [rbind] in H. destruct (repack arg0 i) as [o |] eqn:Hre;
    [| discriminate H].
  cbn [rbind] in H.
  destruct k as [| k]; cbn [nth_error] in Hk.
  - injection Hk as -> ->. exists input, seq, i, o.
    split; [exact Hpay |]. split; [reflexivity |].
    split; [exact Hdis |]. split; [exact Hre |].
    rewrite Nat.add_0_r in *.
    rewrite (@inverse_each_below b params items (S idx)
               (set_nth idx o outputs) outputs' idx H) by lia.
    now apply set_nth_same.
  - rewrite Nat.add_succ_r in *.
    change (S (idx + k)) with (S idx + k)%nat in *.
    apply (IH (S idx) _ outputs' k arg dcate H Hk).
    now rewrite set_nth_length.
Qed.

Lemma children_by_params_children b b' ledger :
  modules b = modules b' ->
  children_by_params b ledger = children_by_params b' ledger.
Proof.
  intros Hm. induction ledger as [| p r IH]; [reflexivity |].
  cbn [children_by_params].
  now rewrite (@get_submodule_children b b' (name p) Hm), IH.
Qed.

(** *** [forward], then [inverse] *)

Section RoundTrip.

Variables (b0 : Base) (ledger : Ledger) (seq : list (string * Module)).
Variables (x label y label1 : Value).

Hypothesis ledger_children : children_by_params b0 ledger = Ok seq.

Hypothesis all_geometric :
  forallb (fun nm => purely_geometric (snd nm)) seq = true.

Hypothesis sequence_by_params :
  forall b, get_forward_sequence b ledger = children_by_params b ledger.

Hypothesis inverse_undoes :
  forall nm param u l v l',
    In nm seq ->
    apply_to_input b0 u l (snd nm) param = Ok (v, l') ->
    inverse_by_key v (snd nm) (kept_param (snd nm) param) INPUT = Ok u.

Hypothesis pixels_forward :
  forward_dispatch b0 INPUT ledger x label = Ok (y, label1).

Hypothesis pixels_tensor : is_tensor y = true.

Lemma forward_sequence_same_children s :
  modules (base s) = modules b0 ->
  get_forward_sequence (base s) ledger = Ok seq.
Proof.
  intros Hm. rewrite sequence_by_params.
  now rewrite (@children_by_params_children (base s) b0 ledger Hm).
Qed.

Lemma pixel_item_undone s :
  modules (base s) = modules b0 ->
  forall input sq i o,
    inverse_payload y INPUT = Ok input ->
    get_forward_sequence (base s) ledger = Ok sq ->
    inverse_dispatch ledger INPUT (zip_longest (rev sq) (rev ledger)) input
    = Ok i ->
    repack y i = Ok o ->
    o = x.
Proof.
  intros Hm input sq i o Hpay Hsq Hdis Hre.
  rewrite (forward_sequence_same_children s Hm) in Hsq. injection Hsq as <-.
  destruct y as [| ty | | |]; try discriminate pixels_tensor.
  cbn in Hpay, Hre. injection Hpay as <-. injection Hre as <-.
  rewrite (@inverse_dispatch_undoes_forward _ _ b0 ledger ledger seq x label
             (VTensor ty) label1 ledger_children all_geometric inverse_undoes
             pixels_forward) in Hdis.
  now injection Hdis.
Qed.

(** The slot of the pixel key in what [inverse] returns for a list of
    arguments that holds [y] in that slot. *)
Lemma inverse_pixel_slot s outputs params keys i v :
  modules (base s) = modules b0 ->
  params = Some ledger \/ (params = None /\ _params (base s) = Some ledger) ->
  nth_error (effective_keys s keys) i = Some INPUT ->
  nth_error outputs i = Some y ->
  inverse s outputs params keys = Ok v ->
  exists restored,
    v = single_or_list restored /\ nth_error restored i = Some x.
Proof.
  intros Hm Hpar Hkey Hout. unfold inverse.
  change (match keys with
          | Some ks => ks
          | None => data_keys s
          end) with (effective_keys s keys).
  rewrite map_DataKey_get.
  destruct (negb (_ =? _)%nat); [discriminate |].
  destruct (_arguments_preproc outputs (effective_keys s keys)) as [inp |]
    eqn:Hpre; [| discriminate].
  cbn [rbind].
  assert (Hp : match params with
               | Some p => Ok p
               | None => match _params (base s) with
                         | Some p => Ok p
                         | None => Err MissingParameters
                         end
               end = Ok ledger).
  { destruct Hpar as [-> | [-> ->]]; reflexivity. }
  rewrite Hp. cbn [rbind].
  destruct (inverse_each (base s) ledger 0 _ _) as [outs |] eqn:Heach;
    [| discriminate].
  cbn [rbind]. intros Hv. exists outs. split.
  { destruct outs as [| o [| o' r]]; now injection Hv as <-. }
  assert (Hinp : nth_error inp i = Some y).
  { rewrite (arguments_preproc_nth_plain _ _ i Hpre Hkey) by reflexivity.
    exact Hout. }
  assert (Hlt : (0 + i < List.length
                             (repeat VNone
                                (List.length (effective_keys s keys))))%nat).
  { rewrite repeat_length. cbn [Nat.add].
    apply nth_error_Some. now rewrite Hkey. }
  destruct (@inverse_each_slot (base s) ledger _ 0%nat _ outs i y INPUT Heach
              (combine_nth_error _ _ i Hinp Hkey) Hlt)
    as (input & sq & r & o & Hpay & Hsq & Hdis & Hre & Hnth).
  cbn [Nat.add] in Hnth. rewrite Hnth. f_equal.
  exact (pixel_item_undone s Hm Hpay Hsq Hdis Hre).
Qed.

(** [inverse] on the pixel output alone. *)
Lemma inverse_pixel_alone s params :
  modules (base s) = modules b0 ->
  params = Some ledger \/ (params = None /\ _params (base s) = Some ledger) ->
  inverse s [y] params (Some [INPUT]) = Ok x.
Proof.
  intros Hm Hpar. unfold inverse.
  cbn [map List.length Nat.eqb negb _arguments_preproc].
  rewrite preproc_one_plain by reflexivity. cbn [rbind].
  assert (Hp : match params with
               | Some p => Ok p
               | None => match _params (base s) with
                         | Some p => Ok p
                         | None => Err MissingParameters
                         end
               end = Ok ledger).
  { destruct Hpar as [-> | [-> ->]]; reflexivity. }
  rewrite Hp. cbn [rbind combine repeat inverse_each].
  rewrite (forward_sequence_same_children s Hm).
  destruct y as [| ty | | |]; try discriminate pixels_tensor.
  unfold inverse_payload. cbn [DataKey_eqb is_tuple_or_list andb payload rbind].
  rewrite (@inverse_dispatch_undoes_forward _ _ b0 ledger ledger seq x label
             (VTensor ty) label1 ledger_children all_geometric inverse_undoes
             pixels_forward).
  reflexivity.
Qed.

End RoundTrip.

(** What [forward] leaves in the slot of the pixel key when the base class
    hands back [y] for the pixel argument [x]. *)
Lemma forward_pixel_slot (w : World) (args : list Value) (label : Value)
      (ledger : Ledger) (keys : option (list DataKey)) (x y label1 : Value) :
  key_in INPUT (effective_keys (self w) keys) = true ->
  nth_error args (key_index INPUT (effective_keys (self w) keys)) = Some x ->
  modules (fst (super_forward (base (self w)) x label ledger))
  = modules (base (self w)) ->
  pixel_pass (base (self w)) x label ledger = Ok (y, label1) ->
  is_None y = false ->
  modules (base (self (fst (forward args label (Some ledger) keys w))))
  = modules (base (self w))
  /\ (forall v,
         snd (forward args label (Some ledger) keys w) = Ok v ->
         exists outputs l,
           v = __packup_output__
                 (self (fst (forward args label (Some ledger) keys w)))
                 outputs l
           /\ nth_error outputs (key_index INPUT (effective_keys (self w) keys))
              = Some y)
  /\ (effective_keys (self w) keys = [INPUT] -> args = [x] ->
      snd (forward args label (Some ledger) keys w)
      = Ok (__packup_output__
              (self (fst (forward args label (Some ledger) keys w)))
              [y] label1)).
Proof.
  intros Hin Hx Hchild Hpix Hy.
  destruct (forward_any_keys args label (Some ledger) keys w)
    as (w0 & E0 & Hb0 & _ & Hk0 & _).
  rewrite E0. unfold forward_stages. rewrite Hk0.
  set (ks := effective_keys (self w) keys) in *.
  destruct (_validate_args_datakeys args ks) eqn:Hval.
  2: { cbn [fst snd]. split; [now rewrite Hb0 |].
       split; [discriminate |]. intros Hks ->. rewrite Hks in Hval.
       discriminate Hval. }
  destruct (_arguments_preproc args ks) as [inp |] eqn:Hpre.
  2: { cbn [fst snd]. split; [now rewrite Hb0 |].
       split; [discriminate |]. intros Hks ->. rewrite Hks in Hpre.
       discriminate Hpre. }
  cbn [resolve_params ret]. rewrite forward_input_pixel, Hin.
  assert (Hinp : nth_error inp (key_index INPUT ks) = Some x).
  { rewrite (arguments_preproc_nth_plain _ _ _ Hpre (key_index_nth _ Hin))
      by reflexivity.
    exact Hx. }
  unfold getitem. rewrite Hinp, Hb0, Hpix.
  cbn [set_return_label fst self base with_base modules].
  assert (Hlt : (key_index INPUT ks < List.length ks)%nat).
  { apply nth_error_Some. now rewrite (key_index_nth _ Hin). }
  destruct (forward_each _ ledger 0 _ _ label1) as [[o l2] |] eqn:Heach;
    cbn [fst snd self base modules].
  - split; [exact Hchild |]. split.
    + intros v [= <-]. exists o, l2. split; [reflexivity |].
      assert (Hslot : nth_error
                        (set_nth (key_index INPUT ks) y
                           (repeat VNone (List.length ks)))
                        (key_index INPUT ks) = Some y).
      { apply set_nth_same. now rewrite repeat_length. }
      assert (Hitem : nth_error
                        (zip3 inp ks
                           (set_nth (key_index INPUT ks) y
                              (repeat VNone (List.length ks))))
                        (key_index INPUT ks) = Some (x, INPUT, y)).
      { apply zip3_nth; [exact Hinp | now apply key_index_nth | exact Hslot]. }
      eapply forward_each_filled in Heach; [| exact Hitem | exact Hy].
      cbn [Nat.add] in Heach. rewrite Heach. exact Hslot.
    + intros Hks ->. revert Heach. rewrite Hks in Hpre |- *.
      cbn in Hpre. injection Hpre as <-.
      cbn [key_index DataKey_eqb List.length repeat set_nth zip3 forward_each].
      rewrite Hy. cbn [negb]. now intros [= <- <-].
  - split; [exact Hchild |]. split; [discriminate |].
    intros Hks ->. exfalso. revert Heach. rewrite Hks in Hpre |- *.
    cbn in Hpre. injection Hpre as <-.
    cbn [key_index DataKey_eqb List.length repeat set_nth zip3 forward_each].
    rewrite Hy. discriminate.
Qed.

(** C2, amended. A purely geometric pipeline without patch container:
    the records of the ledger name geometric transforms or containers,
    none of them an intensity, erasing or patch module.  Taking the base
    class to run the records in pipeline order on the pixel argument and to
    keep its children, [get_forward_sequence] to list the children the
    records name, and the inverse applier of every module to undo its
    forward applier on the pixel key: [forward] with any data keys that
    hold INPUT puts the transformed pixel tensor [y] in the slot of the
    pixel key; [inverse], made on the object [forward] left, with the same
    ledger (passed again or stored by the base class), returns the pixel
    argument [x] when called on [y] alone, and puts [x] back in the pixel
    slot whenever it returns for the whole list of outputs under the same
    keys; with INPUT as the only key, [forward] returns [y]. *)
Theorem forward_then_inverse_restores_pixels
        (w : World) (args : list Value) (label : Value) (ledger : Ledger)
        (keys : option (list DataKey)) (seq : list (string * Module))
        (x y label1 : Value) :
  key_in INPUT (effective_keys (self w) keys) = true ->
  nth_error args (key_index INPUT (effective_keys (self w) keys)) = Some x ->
  children_by_params (base (self w)) ledger = Ok seq ->
  forallb (fun nm => purely_geometric (snd nm)) seq = true ->
  (forall b, get_forward_sequence b ledger = children_by_params b ledger) ->
  modules (fst (super_forward (base (self w)) x label ledger))
  = modules (base (self w)) ->
  pixel_pass (base (self w)) x label ledger
  = forward_dispatch (base (self w)) INPUT ledger x label ->
  (forall nm param u l v l',
      In nm seq ->
      apply_to_input (base (self w)) u l (snd nm) param = Ok (v, l') ->
      inverse_by_key v (snd nm) (kept_param (snd nm) param) INPUT = Ok u) ->
  forward_dispatch (base (self w)) INPUT ledger x label = Ok (y, label1) ->
  is_tensor y = true ->
  (forall params,
      params = Some ledger
      \/ (params = None
          /\ _params (base (self (fst (forward args label (Some ledger)
                                         keys w)))) = Some ledger) ->
      inverse (self (fst (forward args label (Some ledger) keys w)))
        [y] params (Some [INPUT]) = Ok x)
  /\ (forall v,
         snd (forward args label (Some ledger) keys w) = Ok v ->
         exists outputs l,
           v = __packup_output__
                 (self (fst (forward args label (Some ledger) keys w)))
                 outputs l
           /\ nth_error outputs (key_index INPUT (effective_keys (self w) keys))
              = Some y
           /\ forall params v',
                params = Some ledger
                \/ (params = None
                    /\ _params (base (self (fst (forward args label
                                                   (Some ledger) keys w))))
                       = Some ledger) ->
                inverse (self (fst (forward args label (Some ledger) keys w)))
                  outputs params keys = Ok v' ->
                exists restored,
                  v' = single_or_list restored
                  /\ nth_error restored
                       (key_index INPUT (effective_keys (self w) keys))
                     = Some x)
  /\ (effective_keys (self w) keys = [INPUT] -> args = [x] ->
      snd (forward args label (Some ledger) keys w)
      = Ok (__packup_output__
              (self (fst (forward args label (Some ledger) keys w)))
              [y] label1)).
Proof.
  intros Hin Hx Hseq Hgeo Hget Hchild Hpix Hker Hfwd Hy.
  assert (Hnone : is_None y = false) by now destruct y.
  rewrite Hfwd in Hpix.
  destruct (forward_pixel_slot w args label ledger keys Hin Hx Hchild Hpix
              Hnone) as (Hm & Hslot & Hone).
  assert (Hkeys : effective_keys
                    (self (fst (forward args label (Some ledger) keys w)))
                    keys
                  = effective_keys (self w) keys).
  { destruct keys as [ks |]; [reflexivity |]. apply forward_keeps_keys. }
  split; [| split].
  - intros params Hpar.
    exact (@inverse_pixel_alone (base (self w)) ledger seq x label y label1
             Hseq Hgeo Hget Hker Hfwd Hy _ params Hm Hpar).
  - intros v Hv. destruct (Hslot v Hv) as (outputs & l & -> & Hnth).
    exists outputs, l. split; [reflexivity |]. split; [exact Hnth |].
    intros params v' Hpar Hinv.
    apply (@inverse_pixel_slot (base (self w)) ledger seq x label y label1
             Hseq Hgeo Hget Hker Hfwd Hy _ outputs params keys
             (key_index INPUT (effective_keys (self w) keys)) v' Hm Hpar);
      [| exact Hnth | exact Hinv].
    rewrite Hkeys. now apply key_index_nth.
  - exact Hone.
Qed.

End Calls.


(** * Concrete runs *)

Import Toy.
Local Open Scope string_scope.

Example jitter_affine_constructed :
  __init__ [ColorJitter; RandomAffine] (Some [INPUT; KEYPOINTS]) tt
  = Ok (jitter_affine, []).
Proof. reflexivity. Qed.

Example jitter_affine_forward :
  snd (forward [image; points] VNone None None (world jitter_affine 7))
  = Ok (VList [VTensor {| shape := [1; 2]; data := [17; 27] |};
               VTensor {| shape := [1; 2; 1; 2]; data := [8; 9; 10; 11] |}]).
Proof. reflexivity. Qed.

(** Without a ledger the generator is read and advanced. *)
Example sampling_reads_generator :
  snd (forward [image] VNone None (Some [INPUT]) (world jitter_affine 7))
  <> snd (forward [image] VNone None (Some [INPUT]) (world jitter_affine 8))
  /\ rng (fst (forward [image] VNone None (Some [INPUT])
                 (world jitter_affine 7))) = 8.
Proof. split; [discriminate | reflexivity]. Qed.

(** The docstring's replay: a second call with the ledger the first call
    stored returns what the first call returned. *)
Example jitter_affine_replay :
  let (w, out) :=
    forward [image; points] VNone None None (world jitter_affine 7) in
  _params (base (self w)) = Some [record "a" 7; record "b" 7]
  /\ snd (forward [image; points] VNone (_params (base (self w))) None w)
     = out.
Proof. split; reflexivity. Qed.

(** Forward, then inverse with the ledger the forward pass stored. *)
Example jitter_affine_round_trip :
  let (w, out) :=
    forward [image; points] VNone None None (world jitter_affine 7) in
  out = Ok (VList [VTensor {| shape := [1; 2]; data := [17; 27] |};
                   VTensor {| shape := [1; 2; 1; 2]; data := [8; 9; 10; 11] |}])
  /\ inverse (self w)
       [VTensor {| shape := [1; 2]; data := [17; 27] |};
        VTensor {| shape := [1; 2; 1; 2]; data := [8; 9; 10; 11] |}]
       None None
     = Ok (VList [image; points]).
Proof. split; reflexivity. Qed.

Lemma forward_replay_is_deterministic_witness :
  snd (forward [image; points] VNone
         (Some [record "a" 3; record "b" 4]) None (world jitter_affine 1))
  = snd (forward [image; points] VNone
           (Some [record "a" 3; record "b" 4]) None (world jitter_affine 2)).
Proof.
  apply (forward_replay_is_deterministic
           (world jitter_affine 1) (world jitter_affine 2)
           [image; points] VNone [record "a" 3; record "b" 4] None).
  reflexivity.
Defined.

Lemma forward_inverse_same_branch_witness :
  forward_classify Video KEYPOINTS = Shared (inverse_classify Video KEYPOINTS).
Proof.
  apply (@forward_inverse_same_branch Video KEYPOINTS).
  discriminate.
Defined.

Lemma intensity_only_record_is_identity_witness :
  forward_step (base jitter_affine) KEYPOINTS (record "a" 5) points VNone
  = Ok (points, VNone)
  /\ inverse_step [record "a" 5; record "b" 6] KEYPOINTS
       (Some ("a", ColorJitter), Some (record "a" 5)) points
     = Ok points.
Proof.
  apply (@intensity_only_record_is_identity carrier ext
           (base jitter_affine) [record "a" 5; record "b" 6]
           KEYPOINTS ColorJitter (record "a" 5)
           "a" (Some (record "a" 5)) points VNone).
  - discriminate.
  - reflexivity.
  - left. split; reflexivity.
Defined.

Lemma erasing_inverse_is_applied_witness :
  inverse_step [record "a" 5] MASK
    (Some ("a", Erasing), Some (record "a" 5)) points
  = inverse_by_key points Erasing (Some (record "a" 5)) MASK.
Proof.
  apply (@erasing_inverse_is_applied carrier ext
           [record "a" 5] MASK Erasing "a" (Some (record "a" 5)) points).
  - reflexivity.
  - reflexivity.
Defined.

Lemma patch_container_is_rejected_witness :
  forward_step (base (fresh [Patch] [INPUT; MASK])) MASK (record "a" 5)
    points VNone = Err PatchNotSupported
  /\ inverse_step [record "a" 5] MASK
       (Some ("a", Patch), Some (record "a" 5)) points
     = Err PatchNotSupported
  /\ py_class PatchNotSupported = NotImplementedError.
Proof.
  apply (@patch_container_is_rejected carrier ext
           (base (fresh [Patch] [INPUT; MASK])) [record "a" 5]
           MASK Patch (record "a" 5)
           "a" (Some (record "a" 5)) points VNone).
  - discriminate.
  - reflexivity.
  - reflexivity.
  - reflexivity.
  - reflexivity.
Defined.

Lemma inverse_without_ledger_raises_witness :
  inverse jitter_affine [image; points] None None = Err MissingParameters.
Proof.
  destruct (inverse_without_ledger_raises
              jitter_affine [image; points] None eq_refl) as [_ H].
  apply H; reflexivity.
Defined.

Lemma forward_data_keys_persist_witness :
  data_keys
    (self (fst (forward [points; image] VNone None (Some [KEYPOINTS; INPUT])
                  (world jitter_affine 7))))
  = [KEYPOINTS; INPUT].
Proof.
  apply (@forward_data_keys_persist carrier ext
           (world jitter_affine 7)
           (fst (forward [points; image] VNone None (Some [KEYPOINTS; INPUT])
                   (world jitter_affine 7)))
           [points; image] VNone None [KEYPOINTS; INPUT]).
  apply no_call.
Defined.

Lemma video_record_folds_time_into_batch_witness :
  forward_step (base (fresh [Video] [INPUT; KEYPOINTS])) KEYPOINTS
    (record "a" 5) points VNone
  = Ok (VTensor {| shape := [1; 2; 1; 2]; data := [6; 7; 8; 9] |}, VNone)
  /\ inverse_step [record "a" 5] KEYPOINTS
       (Some ("a", Video), Some (record "a" 5)) points
     = Ok (VTensor {| shape := [1; 2; 1; 2]; data := [-4; -3; -2; -1] |}).
Proof.
  assert (Hrest : positive_sizes [1; 2]).
  { repeat (apply Forall_cons; [reflexivity |]). apply Forall_nil. }
  destruct (@video_record_folds_time_into_batch carrier ext
              (base (fresh [Video] [INPUT; KEYPOINTS])) [record "a" 5]
              KEYPOINTS Video (record "a" 5) "a" (Some (record "a" 5))
              (@mkTensor carrier [1; 2; 1; 2] [1; 2; 3; 4]) VNone
              1 2 [1; 2]
              eq_refl eq_refl eq_refl eq_refl eq_refl eq_refl Hrest)
    as [Hforward Hinverse].
  split.
  - apply (Hforward (@mkTensor carrier [2; 1; 2] [6; 7; 8; 9]) VNone
             [1; 2]); [reflexivity | reflexivity | exact Hrest].
  - apply (Hinverse (@mkTensor carrier [2; 1; 2] [-4; -3; -2; -1])
             [1; 2]); [reflexivity | reflexivity | exact Hrest].
Defined.

(** C6 as stated fails: a video container that answers
    [is_intensity_only()] with true, such as [VideoSequential(ColorJitter)],
    meets the intensity-only container test first.  For key points both
    chains select the skip, and whatever the appliers are, both steps hand
    back the input they were given. *)
Lemma intensity_only_video_is_skipped :
  isinstance VideoJitter VideoSequential = true
  /\ key_in KEYPOINTS [INPUT; MASK] = false
  /\ forward_classify VideoJitter KEYPOINTS = Shared SkipIntensityContainer
  /\ inverse_classify VideoJitter KEYPOINTS = SkipIntensityContainer
  /\ forward_classify VideoJitter KEYPOINTS <> Shared VideoFold
  /\ inverse_classify VideoJitter KEYPOINTS <> VideoFold
  /\ (forall (c : Carrier) (e : Collaborators) b param input label,
         forward_exec b KEYPOINTS VideoJitter param input label
         = Ok (input, label))
  /\ (forall (c : Carrier) (e : Collaborators) param input,
         inverse_exec KEYPOINTS VideoJitter param input = Ok input).
Proof. repeat split; discriminate. Qed.

Lemma first_key_is_checked_by_constructor_witness :
  is_ok (__init__ [ColorJitter; RandomAffine] (Some [KEYPOINTS; INPUT]) tt)
  = false.
Proof.
  apply (@first_key_is_checked_by_constructor carrier ext
           [ColorJitter; RandomAffine] [KEYPOINTS; INPUT] tt).
  discriminate.
Defined.

(** C9 as stated fails: [forward] accepts explicit data keys that do not
    start with INPUT.  On the container built above, the keys
    [KEYPOINTS; INPUT] go through without a ledger, and with a ledger so do
    keys that hold no INPUT at all. *)
Lemma forward_accepts_keys_not_starting_with_input :
  hd_error [KEYPOINTS; INPUT] <> Some INPUT
  /\ snd (forward [points; image] VNone None (Some [KEYPOINTS; INPUT])
            (world jitter_affine 7))
     = Ok (VList [VTensor {| shape := [1; 2; 1; 2]; data := [8; 9; 10; 11] |};
                  VTensor {| shape := [1; 2]; data := [17; 27] |}])
  /\ hd_error [KEYPOINTS] <> Some INPUT
  /\ snd (forward [points] VNone (Some [record "a" 3; record "b" 4])
            (Some [KEYPOINTS]) (world jitter_affine 7))
     = Ok (VTensor {| shape := [1; 2; 1; 2]; data := [5; 6; 7; 8] |}).
Proof. repeat split; discriminate. Qed.

Lemma shift_undo (k : Z) (u : Value) : shift (- k) (shift k u) = u.
Proof.
  destruct u as [| [sh d] | | |]; try reflexivity.
  unfold shift. cbn [shape data]. do 2 f_equal.
  rewrite map_map. rewrite <- (map_id d) at 2.
  apply map_ext. intros a. lia.
Qed.

Lemma geometric_pipeline_round_trip_witness :
  inverse affine_video [VTensor (@mkTensor carrier [1; 2] [17; 27])]
    (Some [record "a" 3; record "b" 4]) (Some [INPUT])
  = Ok image.
Proof.
  apply (@geometric_pipeline_round_trip carrier ext affine_video
           [record "a" 3; record "b" 4]
           [("a", RandomAffine); ("b", Video)]
           image VNone (VTensor (@mkTensor carrier [1; 2] [17; 27])) VNone).
  - reflexivity.
  - reflexivity.
  - reflexivity.
  - intros nm param u l v l' [<- | [<- | []]] Happ;
      injection Happ as <- _; cbn; f_equal; apply shift_undo.
  - reflexivity.
  - reflexivity.
  - reflexivity.
Defined.

(** C2 as stated fails: a pipeline made of a patch container around a
    geometric transform has no intensity and no erasing transform, and
    [forward] runs it on the pixel tensor; but [inverse] raises the patch
    [NotImplementedError] on the pixel key too, with the ledger the forward
    pass stored or with the same ledger passed again. *)
Lemma geometric_patch_is_not_restored :
  isinstance Patch IntensityAugmentationBase2D = false
  /\ isinstance Patch RandomErasing = false
  /\ intensity_only Patch = false
  /\ (let (w, out) :=
        forward [image] VNone None (Some [INPUT])
          (world (fresh [Patch] [INPUT]) 7) in
      out = Ok (VTensor (@mkTensor carrier [1; 2] [17; 27]))
      /\ _params (base (self w)) = Some [record "a" 7]
      /\ inverse (self w) [VTensor (@mkTensor carrier [1; 2] [17; 27])]
           None None = Err PatchNotSupported
      /\ inverse (self w) [VTensor (@mkTensor carrier [1; 2] [17; 27])]
           (Some [record "a" 7]) (Some [INPUT]) = Err PatchNotSupported).
Proof. repeat split. Qed.

(** ** Runs for the further properties *)

Lemma inverse_dispatch_runs_backwards_witness :
  inverse_dispatch [] MASK
    (zip_longest (rev [("a", RandomAffine); ("b", ColorJitter)])
       (rev [record "a" 3; record "b" 4])) points
  = rbind (inverse_dispatch [] MASK
             (zip_longest (rev [("b", ColorJitter)]) (rev [record "b" 4]))
             points)
          (inverse_dispatch [] MASK
             (zip_longest (rev [("a", RandomAffine)]) (rev [record "a" 3]))).
Proof.
  apply (@inverse_dispatch_runs_backwards carrier ext [] MASK
           [("a", RandomAffine)] [("b", ColorJitter)]
           [record "a" 3] [record "b" 4] points); reflexivity.
Defined.

Lemma intensity_only_ledger_is_identity_witness :
  forward_dispatch (base jitter_only) KEYPOINTS
    [record "a" 1; record "b" 2] points VNone = Ok (points, VNone)
  /\ inverse_dispatch [] KEYPOINTS
       (zip_longest (rev [("a", ColorJitter); ("b", VideoJitter)])
          (rev [record "a" 1; record "b" 2])) points
     = Ok points.
Proof.
  apply (@intensity_only_ledger_is_identity carrier ext
           (base jitter_only) [] KEYPOINTS [record "a" 1; record "b" 2]
           [("a", ColorJitter); ("b", VideoJitter)] points VNone).
  - discriminate.
  - reflexivity.
  - apply le_n.
  - reflexivity.
Defined.

Lemma arguments_preproc_passes_plain_keys_witness :
  _arguments_preproc [image; points] [INPUT; KEYPOINTS] = Ok [image; points].
Proof.
  destruct (@arguments_preproc_passes_plain_keys carrier ext
              [image; points] [INPUT; KEYPOINTS] eq_refl) as [_ H].
  apply H. reflexivity.
Defined.

Lemma arguments_preproc_raises_only_from_boxes_witness :
  exists arg dcate mode,
    In (arg, dcate) (combine [image; VNone] [INPUT; BBOX])
    /\ ((dcate = BBOX /\ mode = vertices_plus)
        \/ (dcate = BBOX_XYXY /\ mode = xyxy)
        \/ (dcate = BBOX_XYWH /\ mode = xywh))
    /\ @Boxes_from_tensor carrier strict_ext arg mode
       = Err (Interp AttributeError).
Proof.
  apply (@arguments_preproc_raises_only_from_boxes carrier strict_ext
           [image; VNone] [INPUT; BBOX] (Interp AttributeError)).
  reflexivity.
Defined.

Lemma inverse_returns_one_output_per_key_witness :
  exists outputs,
    List.length outputs = 2%nat
    /\ VList [VTensor (@mkTensor carrier [1; 2] [3; 13]);
              VTensor (@mkTensor carrier [1; 2; 1; 2] [-6; -5; -4; -3])]
       = single_or_list outputs.
Proof.
  apply (@inverse_returns_one_output_per_key carrier ext jitter_affine
           [image; points] (Some [record "a" 7; record "b" 7]) None).
  reflexivity.
Defined.

Lemma inverse_skips_intensity_pipeline_witness :
  inverse jitter_only [image; points] (Some [record "a" 1; record "b" 2]) None
  = Ok (VList [image; points]).
Proof.
  apply (@inverse_skips_intensity_pipeline carrier ext jitter_only
           [image; points] [record "a" 1; record "b" 2] None
           [("a", ColorJitter); ("b", VideoJitter)]).
  - reflexivity.
  - reflexivity.
  - reflexivity.
  - reflexivity.
  - apply le_n.
  - reflexivity.
Defined.

Lemma patch_record_fails_the_ledger_witness :
  is_ok (forward_dispatch (base affine_patch) MASK
           [record "a" 1; record "b" 2] points VNone) = false
  /\ is_ok (inverse_dispatch [] MASK
              [(Some ("b", Patch), Some (record "b" 2));
               (Some ("a", RandomAffine), Some (record "a" 1))] points)
     = false.
Proof.
  destruct (@patch_record_fails_the_ledger carrier ext
              (base affine_patch) [] MASK [record "a" 1; record "b" 2]
              (record "b" 2) Patch "b" (Some (record "b" 2))
              [(Some ("b", Patch), Some (record "b" 2));
               (Some ("a", RandomAffine), Some (record "a" 1))]
              points VNone eq_refl) as [Hforward Hinverse].
  split.
  - apply Hforward; [discriminate | right; left; reflexivity | reflexivity].
  - apply Hinverse. left. reflexivity.
Defined.

Lemma video_fold_rejects_empty_batch_witness :
  is_ok (forward_exec (base affine_video) KEYPOINTS Video (record "b" 2)
           (VTensor no_points) VNone) = false
  /\ is_ok (inverse_exec KEYPOINTS Video (Some (record "b" 2))
              (VTensor no_points)) = false.
Proof.
  apply (@video_fold_rejects_empty_batch carrier ext
           (base affine_video) KEYPOINTS Video (record "b" 2)
           (Some (record "b" 2)) no_points VNone [2; 1; 2]);
    reflexivity.
Defined.

Lemma constructor_postcondition_witness :
  data_keys jitter_affine = [INPUT; KEYPOINTS]
  /\ contains_video_sequential jitter_affine = false.
Proof.
  destruct (@constructor_postcondition carrier ext
              [ColorJitter; RandomAffine] (Some [INPUT; KEYPOINTS]) tt
              jitter_affine [] eq_refl) as (_ & Hkeys & _ & Hvideo & _).
  split; [exact Hkeys | exact Hvideo].
Defined.

Lemma arity_mismatch_is_raised_first_witness :
  snd (forward [image] VNone None None (world jitter_affine 7))
  = Err ArityMismatch.
Proof.
  apply (@arity_mismatch_is_raised_first carrier ext
           (world jitter_affine 7) [image] VNone None None).
  discriminate.
Defined.

Lemma forward_refuses_list_as_pixel_input_witness :
  snd (forward [VList [image]; points] VNone None None
         (world jitter_affine 7))
  = Err InputNotATensor.
Proof.
  apply (@forward_refuses_list_as_pixel_input carrier ext
           (world jitter_affine 7) [VList [image]; points] VNone None
           (VList [image])); reflexivity.
Defined.

Lemma forward_without_pixel_key_keeps_ledger_witness :
  _params (base (self (fst (forward [points] VNone (Some [record "a" 3])
                              (Some [KEYPOINTS]) (world jitter_affine 7)))))
  = None.
Proof.
  apply (@forward_without_pixel_key_keeps_ledger carrier ext
           (world jitter_affine 7) [points] VNone (Some [record "a" 3])
           (Some [KEYPOINTS])).
  reflexivity.
Defined.

Lemma forward_returns_one_output_per_key_witness :
  exists outputs label',
    List.length outputs = 2%nat
    /\ VList [VTensor (@mkTensor carrier [1; 2] [17; 27]);
              VTensor (@mkTensor carrier [1; 2; 1; 2] [8; 9; 10; 11])]
       = __packup_output__
           (self (fst (forward [image; points] VNone None None
                         (world jitter_affine 7)))) outputs label'
    /\ exists r,
         return_label
           (base (self (fst (forward [image; points] VNone None None
                               (world jitter_affine 7))))) = Some r.
Proof.
  apply (@forward_returns_one_output_per_key carrier ext
           (world jitter_affine 7) [image; points] VNone None None).
  reflexivity.
Defined.

Lemma forward_skips_intensity_ledger_witness :
  snd (forward [image; points] VNone (Some [record "a" 1; record "b" 2])
         (Some [MASK; KEYPOINTS]) (world jitter_only 7))
  = Ok (VList [image; points]).
Proof.
  apply (@forward_skips_intensity_ledger carrier ext
           (world jitter_only 7) [image; points] VNone
           [record "a" 1; record "b" 2] (Some [MASK; KEYPOINTS]));
    reflexivity.
Defined.

Lemma forward_with_label_returns_pair_witness :
  exists x l, VTuple [points; image] = VTuple [x; l].
Proof.
  apply (@forward_with_label_returns_pair carrier ext
           (world jitter_only 7) [points] image
           (Some [record "a" 1; record "b" 2]) (Some [KEYPOINTS])
           (VTuple [points; image])).
  - left. reflexivity.
  - reflexivity.
Defined.

Lemma inverse_dispatch_undoes_forward_dispatch_witness :
  inverse_dispatch [] MASK
    (zip_longest (rev [("a", RandomAffine); ("b", Video)])
       (rev [record "a" 3; record "b" 4]))
    (VTensor (@mkTensor carrier [1; 2; 1; 2] [8; 9; 10; 11]))
  = Ok points.
Proof.
  apply (@inverse_dispatch_undoes_forward_dispatch carrier ext
           (base affine_video) [] MASK [record "a" 3; record "b" 4]
           [("a", RandomAffine); ("b", Video)] points VNone
           (VTensor (@mkTensor carrier [1; 2; 1; 2] [8; 9; 10; 11])) VNone).
  - discriminate.
  - reflexivity.
  - reflexivity.
  - intros nm param u l v l' [<- | [<- | []]] Happ;
      injection Happ as <- _; cbn; f_equal; apply shift_undo.
  - reflexivity.
Defined.

Lemma inverse_dispatch_needs_a_module_per_record_witness :
  is_ok (inverse_dispatch [record "a" 1] MASK
           (zip_longest (rev []) (rev [record "a" 1])) points) = false.
Proof.
  apply (@inverse_dispatch_needs_a_module_per_record carrier ext
           [record "a" 1] MASK [] [record "a" 1] points).
  apply le_n.
Defined.

(** ** Runs for the spelled keys and for calls in a row *)

(** The mask key as a string, on a video container.  [forward] applies the
    record to the mask as it is; [inverse] folds the mask when the key is
    the string and does not when it is the member. *)
Lemma spelled_mask_key_is_dispatched_two_ways_witness :
  inverse_raw video_only [mask] (Some [record "a" 5]) (Some [KMember MASK])
  = inverse_by_key mask Video (Some (record "a" 5)) MASK.
Proof.
  apply (@spelled_mask_key_is_dispatched_two_ways carrier ext spell
           (world video_only 0) "mask" Video (record "a" 5)
           (@mkTensor carrier [1; 2; 1; 2] [0; 1; 1; 0]) VNone);
    reflexivity.
Defined.

(** On a mask with a single axis the fold shows in the result: [forward]
    and [inverse] under the member MASK keep the shape (4), [inverse] under
    the string gives the shape (4, 1). *)
Example spelled_mask_key_changes_the_shape :
  snd (forward_raw [VTensor (@mkTensor carrier [4] [0; 1; 1; 0])] VNone
         (Some [record "a" 5]) (Some [KStr "mask"]) (world video_only 0))
  = Ok (VTensor (@mkTensor carrier [4] [5; 6; 6; 5]))
  /\ inverse_raw video_only [VTensor (@mkTensor carrier [4] [5; 6; 6; 5])]
       (Some [record "a" 5]) (Some [KMember MASK])
     = Ok (VTensor (@mkTensor carrier [4] [0; 1; 1; 0]))
  /\ inverse_raw video_only [VTensor (@mkTensor carrier [4] [5; 6; 6; 5])]
       (Some [record "a" 5]) (Some [KStr "mask"])
     = Ok (VTensor (@mkTensor carrier [4; 1] [0; 1; 1; 0])).
Proof. repeat split. Qed.

Lemma inverse_ignores_matrix_under_member_key_witness :
  inverse_raw jitter_affine
    [VTuple [VTensor (@mkTensor carrier [1; 2] [17; 27]); image]; points]
    (Some [record "a" 7; record "b" 7]) (Some [KMember INPUT; KInt 5])
  = inverse_raw jitter_affine
      [VTensor (@mkTensor carrier [1; 2] [17; 27]); points]
      (Some [record "a" 7; record "b" 7]) (Some [KMember INPUT; KInt 5]).
Proof.
  apply (@inverse_ignores_matrix_under_member_key carrier ext spell
           jitter_affine [] [points] [] [KInt 5]
           (@mkTensor carrier [1; 2] [17; 27]) image
           (Some [record "a" 7; record "b" 7])).
  reflexivity.
Defined.

(** Under the string key the test of line 205 fails and the pair is worked
    on whole: with an empty ledger it comes back as it went in. *)
Example spelled_input_key_keeps_the_matrix :
  inverse_raw jitter_affine [VTuple [image; points]] (Some [])
    (Some [KStr "input"])
  = Ok (VTuple [image; points])
  /\ inverse_raw jitter_affine [VTuple [image; points]] (Some [])
       (Some [KMember INPUT])
     = Ok image.
Proof. split; reflexivity. Qed.

(** Two calls in a row with one ledger, the generator moved in between. *)
Lemma forward_twice_replays_the_ledger_witness :
  snd (forward [image; points] VNone
         (Some [record "a" 3; record "b" 4]) None (world jitter_affine 7))
  = snd (forward [image; points] VNone
           (Some [record "a" 3; record "b" 4]) None
           (world
              (self (fst (forward [image; points] VNone
                            (Some [record "a" 3; record "b" 4]) None
                            (world jitter_affine 7))))
              99)).
Proof.
  apply (@forward_twice_replays_the_ledger carrier ext
           (world jitter_affine 7)
           (world
              (self (fst (forward [image; points] VNone
                            (Some [record "a" 3; record "b" 4]) None
                            (world jitter_affine 7))))
              99)
           [image; points] VNone [record "a" 3; record "b" 4] None).
  - reflexivity.
  - intros b _inp l p. reflexivity.
  - intros b b' input l module param _. reflexivity.
  - intros _inp. reflexivity.
  - reflexivity.
Defined.

Example forward_twice_values :
  snd (forward [image; points] VNone
         (Some [record "a" 3; record "b" 4]) None (world jitter_affine 7))
  = Ok (VList [VTensor (@mkTensor carrier [1; 2] [14; 24]);
               VTensor (@mkTensor carrier [1; 2; 1; 2] [5; 6; 7; 8])]).
Proof. reflexivity. Qed.

(** [forward] on pixels and a mask, then [inverse] on the pixel output. *)
Lemma forward_then_inverse_restores_pixels_witness :
  inverse
    (self (fst (forward [image; mask] VNone
                  (Some [record "a" 3; record "b" 4]) (Some [INPUT; MASK])
                  (world affine_video 7))))
    [VTensor (@mkTensor carrier [1; 2] [17; 27])]
    (Some [record "a" 3; record "b" 4]) (Some [INPUT])
  = Ok image.
Proof.
  apply (@forward_then_inverse_restores_pixels carrier ext
           (world affine_video 7) [image; mask] VNone
           [record "a" 3; record "b" 4] (Some [INPUT; MASK])
           [("a", RandomAffine); ("b", Video)]
           image (VTensor (@mkTensor carrier [1; 2] [17; 27])) VNone).
  - reflexivity.
  - reflexivity.
  - reflexivity.
  - reflexivity.
  - intros b. reflexivity.
  - reflexivity.
  - reflexivity.
  - intros nm param u l v l' [<- | [<- | []]] Happ;
      injection Happ as <- _; cbn; f_equal; apply shift_undo.
  - reflexivity.
  - reflexivity.
  - left. reflexivity.
Defined.

Example forward_then_inverse_values :
  snd (forward [image; mask] VNone
         (Some [record "a" 3; record "b" 4]) (Some [INPUT; MASK])
         (world affine_video 7))
  = Ok (VList [VTensor (@mkTensor carrier [1; 2] [17; 27]);
               VTensor (@mkTensor carrier [1; 2; 1; 2] [7; 8; 8; 7])])
  /\ inverse
       (self (fst (forward [image; mask] VNone
                     (Some [record "a" 3; record "b" 4]) (Some [INPUT; MASK])
                     (world affine_video 7))))
       [VTensor (@mkTensor carrier [1; 2] [17; 27]);
        VTensor (@mkTensor carrier [1; 2; 1; 2] [7; 8; 8; 7])]
       None None
     = Ok (VList [image; mask]).
Proof. split; reflexivity. Qed.
